(** * MemorySSA: the access graph of llvm/Transforms/Utils/MemorySSA.h

    A shallow embedding of the memory-access classes ([MemoryUse],
    [MemoryDef], [MemoryPhi]), of the defining-edge iterators and of the
    [MemorySSA] bookkeeping, followed by the properties of the
    specification that can be stated over it.

    Objects live in a store indexed by addresses; a C++ pointer is an
    optional address, [None] being [nullptr].  Operations that can trip an
    assertion, reach [llvm_unreachable] or dereference a null pointer
    return in the [result] monad. *)

From stdpp Require Import gmap list.
From Stdlib Require Import NArith Lia.

Open Scope N_scope.

(** ** Faults and the result monad *)

Inductive fault : Set :=
| NullDereference   (* a member is called through a null or dangling pointer *)
| AssertionFailure  (* an [assert] of the source does not hold *)
| Unreachable       (* [llvm_unreachable] is executed *)
| OutOfBounds       (* raw indexing outside the allocated array *)
| BadCast           (* [cast<T>] applied to an object of another class *)
| FuelExhausted.    (* not a fault of the program: the bound this model puts
                       on the iterations of a loop is used up *)

Inductive result (A : Type) : Type :=
| Ok (a : A)
| Fault (f : fault).
Arguments Ok {A} a.
Arguments Fault {A} f.

#[global] Instance result_ret : MRet result := fun A a => Ok a.
#[global] Instance result_bind : MBind result :=
  fun A B k m => match m with Ok a => k a | Fault f => Fault f end.

Definition check (b : bool) : result unit :=
  if b then Ok tt else Fault AssertionFailure.

Definition is_Ok {A} (r : result A) : Prop := exists a, r = Ok a.

(** ** Machine integers: [unsigned] is 32 bits wide *)

Definition UINT_WIDTH : N := 32.
Definition wrap (n : N) : N := n mod 2 ^ UINT_WIDTH.
Definition uadd (a b : N) : N := wrap (a + b).
Definition usub (a b : N) : N := wrap (a + 2 ^ UINT_WIDTH - wrap b).

Definition INVALID_MEMORYACCESS_ID : N := 0.

(** ** Addresses and the IR values the analysis refers to *)

Definition addr := positive.
Abbreviation ptr := (option addr).

Abbreviation BasicBlock := positive.
Abbreviation Instruction := positive.

(** The keys of [ValueToMemoryAccess]: a [const Value *] that is either an
    instruction or a basic block. *)
Inductive Value : Set :=
| VInstruction (I : Instruction)
| VBasicBlock (BB : BasicBlock).

#[global] Instance Value_eq_dec : EqDecision Value.
Proof. solve_decision. Defined.

#[global] Instance Value_countable : Countable Value.
Proof.
  refine (inj_countable'
            (fun v => match v with VInstruction i => inl i | VBasicBlock b => inr b end)
            (fun s => match s with inl i => VInstruction i | inr b => VBasicBlock b end) _).
  by intros [].
Defined.

(** [MemoryLocation]: the pointer, the size and the alias metadata. *)
Record AAMDNodes : Set := mkAAMDNodes {
  TBAA : option positive;
  Scope : option positive;
  NoAlias : option positive
}.

Record MemoryLocation : Set := mkMemoryLocation {
  Ptr : option positive;
  Size : N;
  AATags : AAMDNodes
}.

Definition getWithNewPtr (L : MemoryLocation) (NewPtr : option positive) : MemoryLocation :=
  {| Ptr := NewPtr; Size := Size L; AATags := AATags L |}.

(** ** The access classes *)

(** [MemoryUse]: block, instruction, operand 0 (the defining access) and
    the id the use was optimized to. *)
Record MemoryUse : Set := mkMemoryUse {
  use_Block : option BasicBlock;
  use_MemoryInst : option Instruction;
  use_Operand : ptr;
  OptimizedID : N
}.

(** [MemoryDef]: block, instruction, operand 0 and the constant [ID]. *)
Record MemoryDef : Set := mkMemoryDef {
  def_Block : option BasicBlock;
  def_MemoryInst : option Instruction;
  def_Operand : ptr;
  def_ID : N
}.

(** [MemoryPhi]: the hung-off operand array of [ReservedSpace] slots, of
    which the first [NumUserOperands] are in use, and the parallel array of
    incoming blocks that [block_begin] finds behind it. *)
Record MemoryPhi : Set := mkMemoryPhi {
  phi_Block : option BasicBlock;
  phi_ID : N;
  ReservedSpace : N;
  NumUserOperands : N;
  OperandList : list ptr;
  BlockList : list (option BasicBlock)
}.

Inductive MemoryAccess : Set :=
| MU (u : MemoryUse)
| MD (d : MemoryDef)
| MP (p : MemoryPhi).

Abbreviation heap := (gmap addr MemoryAccess).

Definition isa_MemoryUse (a : MemoryAccess) : bool :=
  match a with MU _ => true | _ => false end.
Definition isa_MemoryDef (a : MemoryAccess) : bool :=
  match a with MD _ => true | _ => false end.
Definition isa_MemoryPhi (a : MemoryAccess) : bool :=
  match a with MP _ => true | _ => false end.
Definition isa_MemoryUseOrDef (a : MemoryAccess) : bool :=
  match a with MP _ => false | _ => true end.

Definition getBlock (a : MemoryAccess) : option BasicBlock :=
  match a with
  | MU u => use_Block u
  | MD d => def_Block d
  | MP p => phi_Block p
  end.

(** [MemoryUseOrDef::getMemoryInst]; a phi is not a [MemoryUseOrDef]. *)
Definition getMemoryInst (a : MemoryAccess) : result (option Instruction) :=
  match a with
  | MU u => Ok (use_MemoryInst u)
  | MD d => Ok (def_MemoryInst d)
  | MP _ => Fault BadCast
  end.

(** [MemoryUseOrDef::getDefiningAccess] is [getOperand(0)]. *)
Definition getDefiningAccess (a : MemoryAccess) : result ptr :=
  match a with
  | MU u => Ok (use_Operand u)
  | MD d => Ok (def_Operand d)
  | MP _ => Fault BadCast
  end.

(** The virtual [getID]: [MemoryUse::getID] is [llvm_unreachable]. *)
Definition getID (a : MemoryAccess) : result N :=
  match a with
  | MU _ => Fault Unreachable
  | MD d => Ok (def_ID d)
  | MP p => Ok (phi_ID p)
  end.

(** Dereferencing a pointer in the store. *)
Definition deref (h : heap) (p : ptr) : result MemoryAccess :=
  match p with
  | None => Fault NullDereference
  | Some l => match h !! l with
              | Some a => Ok a
              | None => Fault NullDereference
              end
  end.

(** [P->getID()] through a pointer. *)
Definition getID_at (h : heap) (p : ptr) : result N :=
  a ← deref h p; getID a.

(** ** MemoryUse *)

(** [MemoryUseOrDef::setDefiningAccess(DMA)]: [setOperand(0, DMA)]. *)
Definition MemoryUseOrDef_setDefiningAccess (a : MemoryAccess) (DMA : ptr)
  : result MemoryAccess :=
  match a with
  | MU u => Ok (MU {| use_Block := use_Block u; use_MemoryInst := use_MemoryInst u;
                      use_Operand := DMA; OptimizedID := OptimizedID u |})
  | MD d => Ok (MD {| def_Block := def_Block d; def_MemoryInst := def_MemoryInst d;
                      def_Operand := DMA; def_ID := def_ID d |})
  | MP _ => Fault BadCast
  end.

Definition as_MemoryUse (a : MemoryAccess) : result MemoryUse :=
  match a with MU u => Ok u | _ => Fault BadCast end.

(** [MemoryUse::setDefiningAccess(DMA, Optimized)] on the use at [U]. *)
Definition setDefiningAccess (h : heap) (U : addr) (DMA : ptr) (Optimized : bool)
  : result heap :=
  a ← deref h (Some U);
  u ← as_MemoryUse a;
  oid ← (if Optimized then getID_at h DMA else Ok (OptimizedID u));
  Ok (<[U := MU {| use_Block := use_Block u; use_MemoryInst := use_MemoryInst u;
                   use_Operand := DMA; OptimizedID := oid |}]> h).

(** [MemoryUse::isOptimized]:
    [getDefiningAccess() && OptimizedID == getDefiningAccess()->getID()]. *)
Definition isOptimized (h : heap) (U : addr) : result bool :=
  a ← deref h (Some U);
  u ← as_MemoryUse a;
  match use_Operand u with
  | None => Ok false
  | Some d => id ← getID_at h (Some d); Ok (OptimizedID u =? id)
  end.

(** [MemoryUse::resetOptimized]. *)
Definition resetOptimized (h : heap) (U : addr) : result heap :=
  a ← deref h (Some U);
  u ← as_MemoryUse a;
  Ok (<[U := MU {| use_Block := use_Block u; use_MemoryInst := use_MemoryInst u;
                   use_Operand := use_Operand u;
                   OptimizedID := INVALID_MEMORYACCESS_ID |}]> h).

(** The constructor [MemoryUse(C, DMA, MI, BB)]: the base constructor
    installs [DMA] by [setOperand(0, DMA)], then [OptimizedID(0)]. *)
Definition MemoryUse_new (DMA : ptr) (MI : option Instruction) (BB : option BasicBlock)
  : MemoryUse :=
  {| use_Block := BB; use_MemoryInst := MI; use_Operand := DMA; OptimizedID := 0 |}.

(** ** MemoryPhi *)

(** Modelled from the spec: the operand storage of [User], which this
    header only calls ([getNumOperands], [getOperand], [setOperand],
    [allocHungoffUses], [growHungoffUses], [setNumHungOffUseOperands]).  The
    spec's "variable-length list of (predecessor block, incoming access)
    pairs" is kept the way the header addresses it: an operand array and a
    block array of [ReservedSpace] slots each, the accessors generated by
    DEFINE_TRANSPARENT_OPERAND_ACCESSORS asserting that the index is below
    the operand count, and the count living in a bit-field of
    [NumUserOperandsBits] bits. *)
Definition NumUserOperandsBits : N := 28.

(** Modelled from the spec: [User::getNumOperands], the number of incoming
    entries in use. *)
Definition getNumOperands (P : MemoryPhi) : N := NumUserOperands P.

(** Modelled from the spec: the generated [getOperand], which asserts
    "getOperand() out of range" before it reads the slot. *)
Definition getOperand (P : MemoryPhi) (I : N) : result ptr :=
  _ ← check (I <? getNumOperands P);
  match OperandList P !! N.to_nat I with
  | Some v => Ok v
  | None => Fault OutOfBounds
  end.

(** Modelled from the spec: the generated [setOperand], with the same
    assertion on the index. *)
Definition setOperand (P : MemoryPhi) (I : N) (V : ptr) : result MemoryPhi :=
  _ ← check (I <? getNumOperands P);
  if (N.to_nat I <? length (OperandList P))%nat then
    Ok {| phi_Block := phi_Block P; phi_ID := phi_ID P;
          ReservedSpace := ReservedSpace P; NumUserOperands := NumUserOperands P;
          OperandList := <[N.to_nat I := V]> (OperandList P);
          BlockList := BlockList P |}
  else Fault OutOfBounds.

(** Modelled from the spec: [User::setNumHungOffUseOperands], which asserts
    that the new count fits the bit-field and stores it. *)
Definition setNumHungOffUseOperands (P : MemoryPhi) (NumOps : N) : result MemoryPhi :=
  _ ← check (NumOps <? 2 ^ NumUserOperandsBits);
  Ok {| phi_Block := phi_Block P; phi_ID := phi_ID P;
        ReservedSpace := ReservedSpace P; NumUserOperands := NumOps;
        OperandList := OperandList P; BlockList := BlockList P |}.

(** Modelled from the spec: [User::growHungoffUses(NewNumUses, IsPhi = true)],
    which asserts that the list grows and moves to a fresh allocation of
    [NewNumUses] slots, copying the operands in use and their blocks. *)
Definition growHungoffUses (P : MemoryPhi) (NewNumUses : N) : result MemoryPhi :=
  _ ← check (getNumOperands P <? NewNumUses);
  let OldNumUses := N.to_nat (getNumOperands P) in
  let Fresh := (N.to_nat NewNumUses - OldNumUses)%nat in
  Ok {| phi_Block := phi_Block P; phi_ID := phi_ID P;
        ReservedSpace := ReservedSpace P; NumUserOperands := NumUserOperands P;
        OperandList := take OldNumUses (OperandList P) ++ replicate Fresh None;
        BlockList := take OldNumUses (BlockList P) ++ replicate Fresh None |}.

(** The constructor [MemoryPhi(C, BB, Ver, NumPreds)]: no operand in use,
    [NumPreds] slots allocated by [allocHungoffUses]. *)
Definition MemoryPhi_new (BB : option BasicBlock) (Ver NumPreds : N) : MemoryPhi :=
  {| phi_Block := BB; phi_ID := Ver; ReservedSpace := NumPreds;
     NumUserOperands := 0;
     OperandList := replicate (N.to_nat NumPreds) None;
     BlockList := replicate (N.to_nat NumPreds) None |}.

Definition getNumIncomingValues (P : MemoryPhi) : N := getNumOperands P.

Definition getIncomingValue (P : MemoryPhi) (I : N) : result ptr := getOperand P I.

Definition setIncomingValue (P : MemoryPhi) (I : N) (V : ptr) : result MemoryPhi :=
  _ ← check (bool_decide (is_Some V));
  setOperand P I V.

(** [block_begin()[I]]: raw indexing, no assertion on [I]. *)
Definition getIncomingBlock (P : MemoryPhi) (I : N) : result (option BasicBlock) :=
  match BlockList P !! N.to_nat I with
  | Some b => Ok b
  | None => Fault OutOfBounds
  end.

Definition setIncomingBlock (P : MemoryPhi) (I : N) (BB : option BasicBlock)
  : result MemoryPhi :=
  _ ← check (bool_decide (is_Some BB));
  if (N.to_nat I <? length (BlockList P))%nat then
    Ok {| phi_Block := phi_Block P; phi_ID := phi_ID P;
          ReservedSpace := ReservedSpace P; NumUserOperands := NumUserOperands P;
          OperandList := OperandList P;
          BlockList := <[N.to_nat I := BB]> (BlockList P) |}
  else Fault OutOfBounds.

(** [growOperands]: [ReservedSpace = std::max(E + E / 2, 2u)]. *)
Definition growOperands (P : MemoryPhi) : result MemoryPhi :=
  let E := getNumOperands P in
  let R := N.max (uadd E (E / 2)) 2 in
  growHungoffUses
    {| phi_Block := phi_Block P; phi_ID := phi_ID P;
       ReservedSpace := R; NumUserOperands := NumUserOperands P;
       OperandList := OperandList P; BlockList := BlockList P |} R.

Definition addIncoming (P : MemoryPhi) (V : ptr) (BB : option BasicBlock)
  : result MemoryPhi :=
  P1 ← (if getNumOperands P =? ReservedSpace P then growOperands P else Ok P);
  P2 ← setNumHungOffUseOperands P1 (uadd (getNumOperands P1) 1);
  P3 ← setIncomingValue P2 (usub (getNumOperands P2) 1) V;
  setIncomingBlock P3 (usub (getNumOperands P3) 1) BB.

(** [getBasicBlockIndex]: the first index holding [BB], or -1. *)
Fixpoint getBasicBlockIndex_from (P : MemoryPhi) (BB : option BasicBlock)
  (I : N) (n : nat) : result (option N) :=
  match n with
  | O => Ok None
  | S n' =>
      b ← getIncomingBlock P I;
      if decide (b = BB) then Ok (Some I)
      else getBasicBlockIndex_from P BB (I + 1) n'
  end.

Definition getBasicBlockIndex (P : MemoryPhi) (BB : option BasicBlock)
  : result (option N) :=
  getBasicBlockIndex_from P BB 0 (N.to_nat (getNumOperands P)).

Definition getIncomingValueForBlock (P : MemoryPhi) (BB : option BasicBlock)
  : result ptr :=
  Idx ← getBasicBlockIndex P BB;
  match Idx with
  | Some i => getIncomingValue P i
  | None => Fault AssertionFailure
  end.

(** The representation invariant of a phi: both arrays have
    [ReservedSpace] slots, the operands in use fit in them, [ReservedSpace]
    is an [unsigned] and the operand count fits its bit-field. *)
Definition wf_phi (P : MemoryPhi) : Prop :=
  N.of_nat (length (OperandList P)) = ReservedSpace P /\
  length (BlockList P) = length (OperandList P) /\
  NumUserOperands P <= ReservedSpace P /\
  ReservedSpace P < 2 ^ UINT_WIDTH /\
  NumUserOperands P < 2 ^ NumUserOperandsBits.

(** [incoming_values()], the range [operands()] of the operands in use,
    and the range from [block_begin()] to [block_end()], which is
    [block_begin() + getNumOperands()]. *)
Definition incoming_values (P : MemoryPhi) : list ptr :=
  take (N.to_nat (getNumOperands P)) (OperandList P).

Definition incoming_blocks (P : MemoryPhi) : list (option BasicBlock) :=
  take (N.to_nat (getNumOperands P)) (BlockList P).

(** ** The iterator over defining accesses *)

Record memoryaccess_def_iterator : Set := mkDefIterator {
  Access : ptr;
  ArgNo : N
}.

(** [memoryaccess_def_iterator_base(T *Start)] and the default constructor. *)
Definition defs_begin (A : ptr) : memoryaccess_def_iterator :=
  {| Access := A; ArgNo := 0 |}.
Definition defs_end : memoryaccess_def_iterator :=
  {| Access := None; ArgNo := 0 |}.

(** [operator==]:
    [Access == Other.Access && (!Access || ArgNo == Other.ArgNo)]. *)
Definition def_iterator_eq (X Other : memoryaccess_def_iterator) : bool :=
  bool_decide (Access X = Access Other) &&
  (negb (bool_decide (is_Some (Access X))) || (ArgNo X =? ArgNo Other)).

(** [getPhiArgBlock]: only while iterating over a phi. *)
Definition getPhiArgBlock (h : heap) (it : memoryaccess_def_iterator)
  : result (option BasicBlock) :=
  _ ← check (bool_decide (is_Some (Access it)));
  a ← deref h (Access it);
  match a with
  | MP P => getIncomingBlock P (ArgNo it)
  | _ => Fault AssertionFailure
  end.

(** [operator*]: the incoming value number [ArgNo] of a phi, the defining
    access of anything else. *)
Definition def_iterator_get (h : heap) (it : memoryaccess_def_iterator) : result ptr :=
  _ ← check (bool_decide (is_Some (Access it)));
  a ← deref h (Access it);
  match a with
  | MP P => getIncomingValue P (ArgNo it)
  | _ => getDefiningAccess a
  end.

(** [operator++]. *)
Definition def_iterator_next (h : heap) (it : memoryaccess_def_iterator)
  : result memoryaccess_def_iterator :=
  _ ← check (bool_decide (is_Some (Access it)));
  a ← deref h (Access it);
  match a with
  | MP P =>
      let ArgNo' := uadd (ArgNo it) 1 in
      if getNumIncomingValues P <=? ArgNo'
      then Ok {| Access := None; ArgNo := 0 |}
      else Ok {| Access := Access it; ArgNo := ArgNo' |}
  | _ => Ok {| Access := None; ArgNo := ArgNo it |}
  end.

(** The loop [for (I = B; I != E; ++I) yield obs(I)], at most [fuel]
    iterations long. *)
Fixpoint def_range {A} (obs : heap -> memoryaccess_def_iterator -> result A)
  (fuel : nat) (h : heap) (I E : memoryaccess_def_iterator) : result (list A) :=
  if def_iterator_eq I E then Ok []
  else match fuel with
       | O => Fault FuelExhausted
       | S fuel' =>
           x ← obs h I;
           I' ← def_iterator_next h I;
           xs ← def_range obs fuel' h I' E;
           Ok (x :: xs)
       end.

(** What a walk from [A.defs_begin()] to [A.defs_end()] yields. *)
Definition defs (fuel : nat) (h : heap) (A : addr) : result (list ptr) :=
  def_range def_iterator_get fuel h (defs_begin (Some A)) defs_end.

(** The same walk, reading [getPhiArgBlock] next to each element. *)
Definition defs_with_blocks (fuel : nat) (h : heap) (A : addr)
  : result (list (ptr * option BasicBlock)) :=
  def_range (fun h I => V ← def_iterator_get h I;
                        B ← getPhiArgBlock h I;
                        Ok (V, B))
            fuel h (defs_begin (Some A)) defs_end.

(** ** The upward iterator over (access, location) pairs *)

Abbreviation MemoryAccessPair := (ptr * MemoryLocation)%type.

Record upward_defs_iterator : Set := mkUpwardIterator {
  CurrentPair : MemoryAccessPair;
  DefIterator : memoryaccess_def_iterator;
  Location : MemoryLocation;
  OriginalAccess : ptr;
  WalkingPhi : bool
}.

(** The default [MemoryLocation()]: null pointer, unknown size, no tags. *)
Definition UnknownSize : N := 2 ^ 64 - 1.
Definition MemoryLocation_default : MemoryLocation :=
  {| Ptr := None; Size := UnknownSize;
     AATags := {| TBAA := None; Scope := None; NoAlias := None |} |}.

Section UpwardDefs.

(** The address translator of the IR ([PHITransAddr]), an external
    collaborator: started on an address, [PHITranslateValue(CurBB, PredBB,
    nullptr, false)] returns [true] on failure, and [getAddr()] is the
    address it ends on. *)
Variable PHITranslateValue :
  positive -> BasicBlock -> option BasicBlock -> bool * option positive.

Definition fillInCurrentPair (h : heap) (it : upward_defs_iterator)
  : result upward_defs_iterator :=
  first ← def_iterator_get h (DefIterator it);
  let keep (second : MemoryLocation) :=
    {| CurrentPair := (first, second); DefIterator := DefIterator it;
       Location := Location it; OriginalAccess := OriginalAccess it;
       WalkingPhi := WalkingPhi it |} in
  match WalkingPhi it, Ptr (Location it) with
  | true, Some p =>
      a ← deref h (OriginalAccess it);
      match getBlock a with
      | None => Fault NullDereference
      | Some CurBB =>
          PredBB ← getPhiArgBlock h (DefIterator it);
          let '(failed, Addr) := PHITranslateValue p CurBB PredBB in
          if negb failed && negb (bool_decide (Addr = Ptr (Location it)))
          then Ok (keep (getWithNewPtr (Location it) Addr))
          else Ok (keep (Location it))
      end
  | _, _ => Ok (keep (Location it))
  end.

(** [upward_defs_iterator(const MemoryAccessPair &Info)]. *)
Definition upward_defs_begin (h : heap) (Info : MemoryAccessPair)
  : result upward_defs_iterator :=
  walking ← match Info.1 with
            | None => Ok false
            | Some l => a ← deref h (Some l); Ok (isa_MemoryPhi a)
            end;
  fillInCurrentPair h
    {| CurrentPair := (None, MemoryLocation_default);
       DefIterator := defs_begin Info.1; Location := Info.2;
       OriginalAccess := Info.1; WalkingPhi := walking |}.

Definition upward_defs_end : upward_defs_iterator :=
  {| CurrentPair := (None, MemoryLocation_default);
     DefIterator := defs_end; Location := MemoryLocation_default;
     OriginalAccess := None; WalkingPhi := false |}.

Definition upward_iterator_eq (X Other : upward_defs_iterator) : bool :=
  def_iterator_eq (DefIterator X) (DefIterator Other).

Definition upward_iterator_get (it : upward_defs_iterator) : result MemoryAccessPair :=
  _ ← check (negb (def_iterator_eq (DefIterator it) defs_end));
  Ok (CurrentPair it).

Definition upward_iterator_next (h : heap) (it : upward_defs_iterator)
  : result upward_defs_iterator :=
  _ ← check (negb (def_iterator_eq (DefIterator it) defs_end));
  D ← def_iterator_next h (DefIterator it);
  let it' := {| CurrentPair := CurrentPair it; DefIterator := D;
                Location := Location it; OriginalAccess := OriginalAccess it;
                WalkingPhi := WalkingPhi it |} in
  if negb (def_iterator_eq D defs_end) then fillInCurrentPair h it' else Ok it'.

Fixpoint upward_range (fuel : nat) (h : heap) (I E : upward_defs_iterator)
  : result (list MemoryAccessPair) :=
  if upward_iterator_eq I E then Ok []
  else match fuel with
       | O => Fault FuelExhausted
       | S fuel' =>
           x ← upward_iterator_get I;
           I' ← upward_iterator_next h I;
           xs ← upward_range fuel' h I' E;
           Ok (x :: xs)
       end.

(** The pairs met from [upward_defs_begin(Pair)] to [upward_defs_end()]. *)
Definition upward_defs (fuel : nat) (h : heap) (Pair : MemoryAccessPair)
  : result (list MemoryAccessPair) :=
  I ← upward_defs_begin h Pair;
  upward_range fuel h I upward_defs_end.

(** The location the specification attaches to an incoming edge: the
    carried location with the translated pointer when the translation
    from the phi's block to the predecessor succeeds on a different
    address, the carried location itself otherwise. *)
Definition carried_location (L : MemoryLocation) (CurBB : BasicBlock)
  (PredBB : option BasicBlock) : MemoryLocation :=
  match Ptr L with
  | None => L
  | Some p =>
      match PHITranslateValue p CurBB PredBB with
      | (true, _) => L
      | (false, Addr) => if decide (Addr = Some p) then L else getWithNewPtr L Addr
      end
  end.

(** The iterator standing on operand [i] of the phi at [a]. *)
Definition upward_at (a : addr) (P : MemoryPhi) (L : MemoryLocation)
  (CurBB : BasicBlock) (i : nat) : upward_defs_iterator :=
  {| CurrentPair := (default None (OperandList P !! i),
                     carried_location L CurBB (default None (BlockList P !! i)));
     DefIterator := {| Access := Some a; ArgNo := N.of_nat i |};
     Location := L; OriginalAccess := Some a; WalkingPhi := true |}.

End UpwardDefs.

(** ** The analysis *)

(** The walker owned by the analysis.  Modelled from the spec: the caching
    walker is defined outside this header; what the spec fixes of its state
    is that [invalidate] is a hook the mutation API calls, so the walker
    records the accesses it was told to forget. *)
Record CachingWalker : Set := mkCachingWalker {
  Invalidated : list addr
}.

(** [class MemorySSA]: the objects it owns and its maps.  A
    [std::unique_ptr<AccessList>] is an optional list, [None] being the empty
    pointer. *)
Record MemorySSA : Type := mkMemorySSA {
  Accesses : heap;
  ValueToMemoryAccess : gmap Value addr;
  PerBlockAccesses : gmap BasicBlock (option (list addr));
  LiveOnEntryDef : ptr;
  BlockNumberingValid : gset BasicBlock;
  BlockNumbering : gmap addr N;
  Walker : CachingWalker;
  NextID : N
}.

Definition with_Accesses (h : heap) (s : MemorySSA) : MemorySSA :=
  {| Accesses := h; ValueToMemoryAccess := ValueToMemoryAccess s;
     PerBlockAccesses := PerBlockAccesses s; LiveOnEntryDef := LiveOnEntryDef s;
     BlockNumberingValid := BlockNumberingValid s;
     BlockNumbering := BlockNumbering s; Walker := Walker s; NextID := NextID s |}.

Definition with_ValueToMemoryAccess (m : gmap Value addr) (s : MemorySSA) : MemorySSA :=
  {| Accesses := Accesses s; ValueToMemoryAccess := m;
     PerBlockAccesses := PerBlockAccesses s; LiveOnEntryDef := LiveOnEntryDef s;
     BlockNumberingValid := BlockNumberingValid s;
     BlockNumbering := BlockNumbering s; Walker := Walker s; NextID := NextID s |}.

Definition with_PerBlockAccesses (m : gmap BasicBlock (option (list addr)))
  (s : MemorySSA) : MemorySSA :=
  {| Accesses := Accesses s; ValueToMemoryAccess := ValueToMemoryAccess s;
     PerBlockAccesses := m; LiveOnEntryDef := LiveOnEntryDef s;
     BlockNumberingValid := BlockNumberingValid s;
     BlockNumbering := BlockNumbering s; Walker := Walker s; NextID := NextID s |}.

Definition with_BlockNumberingValid (v : gset BasicBlock) (s : MemorySSA) : MemorySSA :=
  {| Accesses := Accesses s; ValueToMemoryAccess := ValueToMemoryAccess s;
     PerBlockAccesses := PerBlockAccesses s; LiveOnEntryDef := LiveOnEntryDef s;
     BlockNumberingValid := v;
     BlockNumbering := BlockNumbering s; Walker := Walker s; NextID := NextID s |}.

Definition with_Walker (w : CachingWalker) (s : MemorySSA) : MemorySSA :=
  {| Accesses := Accesses s; ValueToMemoryAccess := ValueToMemoryAccess s;
     PerBlockAccesses := PerBlockAccesses s; LiveOnEntryDef := LiveOnEntryDef s;
     BlockNumberingValid := BlockNumberingValid s;
     BlockNumbering := BlockNumbering s; Walker := w; NextID := NextID s |}.

Definition with_NextID (n : N) (s : MemorySSA) : MemorySSA :=
  {| Accesses := Accesses s; ValueToMemoryAccess := ValueToMemoryAccess s;
     PerBlockAccesses := PerBlockAccesses s; LiveOnEntryDef := LiveOnEntryDef s;
     BlockNumberingValid := BlockNumberingValid s;
     BlockNumbering := BlockNumbering s; Walker := Walker s; NextID := n |}.

Definition isLiveOnEntryDef (s : MemorySSA) (MA : ptr) : bool :=
  bool_decide (MA = LiveOnEntryDef s).

Definition getLiveOnEntryDef (s : MemorySSA) : ptr := LiveOnEntryDef s.

(** [getWritableBlockAccesses]: [nullptr] when [find] reaches [end()],
    [It->second.get()] otherwise. *)
Definition getWritableBlockAccesses (s : MemorySSA) (BB : BasicBlock)
  : option (list addr) :=
  match PerBlockAccesses s !! BB with
  | None => None
  | Some It_second => It_second
  end.

Definition getBlockAccesses (s : MemorySSA) (BB : BasicBlock) : option (list addr) :=
  getWritableBlockAccesses s BB.

(** ** The IR and the oracles the analysis consumes *)

Inductive ModRefInfo : Set := MRI_NoModRef | MRI_Ref | MRI_Mod | MRI_ModRef.

(** The alias oracle: the mod-ref class of an instruction, the two
    may-alias verdicts, and the location an instruction accesses. *)
Record AliasAnalysis : Type := mkAliasAnalysis {
  getModRefInfo : Instruction -> ModRefInfo;
  mayAliasInstruction : Instruction -> Instruction -> bool;
  mayAliasLocation : Instruction -> MemoryLocation -> bool;
  locationOf : Instruction -> MemoryLocation
}.

(** A basic block: its identity, its instructions in order, its CFG
    successors.  A function is the list of its blocks. *)
Record BasicBlockIR : Set := mkBasicBlockIR {
  bb_name : BasicBlock;
  bb_instructions : list Instruction;
  bb_successors : list BasicBlock
}.

Abbreviation Function := (list BasicBlockIR).

Definition instructions (F : Function) : list Instruction :=
  concat (bb_instructions <$> F).

Definition successors (F : Function) (BB : BasicBlock) : list BasicBlock :=
  match List.find (fun B => bool_decide (bb_name B = BB)) F with
  | Some B => bb_successors B
  | None => []
  end.

Definition predecessors (F : Function) (BB : BasicBlock) : list BasicBlock :=
  bb_name <$> List.filter (fun B => bool_decide (BB ∈ bb_successors B)) F.

(** The dominator tree, with the dominance frontier of each block. *)
#[warnings="-register-all"] Inductive DomTreeNode : Set :=
| DomNode (BB : BasicBlock) (Children : list DomTreeNode).

Record DominatorTree : Type := mkDominatorTree {
  getRootNode : DomTreeNode;
  frontier : BasicBlock -> list BasicBlock
}.

(** ** Construction *)

(** The functions of this module are declared in the header and defined
    outside it; each is modelled from the specification's description of the
    builder (sections 4.2, 4.3, 4.4 and 4.6). *)
Module Builder.

(** Modelled from the spec: the three outcomes of [classify]. *)
Inductive AccessKind : Set := Skip | AsUse | AsDef.

(** Modelled from the spec: the adapter's [classify], "Skip for NoModRef;
    Use for pure Ref; Def for Mod or ModRef". *)
Definition classify (AA : AliasAnalysis) (I : Instruction) : AccessKind :=
  match getModRefInfo AA I with
  | MRI_NoModRef => Skip
  | MRI_Ref => AsUse
  | MRI_Mod | MRI_ModRef => AsDef
  end.

(** Modelled from the spec: allocation of an access object; the new
    object lives at an address at which no object of the analysis lives. *)
Definition allocate (a : MemoryAccess) (s : MemorySSA) : addr * MemorySSA :=
  let l := fresh (dom (Accesses s)) in
  (l, with_Accesses (<[l := a]> (Accesses s)) s).

(** Modelled from the spec: the LiveOnEntry sentinel, "its id is reserved;
    it has no block membership, no instruction".  The spec leaves the
    reserved value open ("0 is reserved for sentinels", "id=1 internally (or
    any reserved value ...)"), so it is a parameter of the analysis; the
    ids handed out to Defs and Phis start at 1. *)
Definition LiveOnEntry (ReservedID : N) : MemoryAccess :=
  MD {| def_Block := None; def_MemoryInst := None; def_Operand := None;
        def_ID := ReservedID |}.

(** Modelled from the spec: the analysis before the scan; only LiveOnEntry
    exists, the maps are empty and the next id is 1. *)
Definition MemorySSA_init (ReservedID : N) : MemorySSA :=
  let empty := {| Accesses := ∅; ValueToMemoryAccess := ∅; PerBlockAccesses := ∅;
                  LiveOnEntryDef := None; BlockNumberingValid := ∅;
                  BlockNumbering := ∅;
                  Walker := {| Invalidated := [] |}; NextID := 1 |} in
  let '(l, s) := allocate (LiveOnEntry ReservedID) empty in
  {| Accesses := Accesses s; ValueToMemoryAccess := ∅; PerBlockAccesses := ∅;
     LiveOnEntryDef := Some l; BlockNumberingValid := ∅; BlockNumbering := ∅;
     Walker := {| Invalidated := [] |}; NextID := 1 |}.

(** Modelled from the spec: "Create the corresponding Use or Def", with
    "a fresh monotonically increasing id" for a Def; the defining edge is
    set by the caller or by renaming. *)
Definition createDefinedAccess (AA : AliasAnalysis) (I : Instruction)
  (BB : BasicBlock) (Definition_ : ptr) (s : MemorySSA) : option addr * MemorySSA :=
  match classify AA I with
  | Skip => (None, s)
  | AsUse =>
      let '(l, s1) :=
        allocate (MU {| use_Block := Some BB; use_MemoryInst := Some I;
                        use_Operand := Definition_;
                        OptimizedID := INVALID_MEMORYACCESS_ID |}) s in
      (Some l, s1)
  | AsDef =>
      let '(l, s1) :=
        allocate (MD {| def_Block := Some BB; def_MemoryInst := Some I;
                        def_Operand := Definition_; def_ID := NextID s |}) s in
      (Some l, with_NextID (NextID s + 1) s1)
  end.

(** Modelled from the spec: the access the scan creates for an instruction;
    its defining edge is null until renaming. *)
Definition createNewAccess (AA : AliasAnalysis) (I : Instruction)
  (BB : BasicBlock) (s : MemorySSA) : option addr * MemorySSA :=
  createDefinedAccess AA I BB None s.

(** Modelled from the spec: the "ordered intrusive list of accesses" of a
    block, empty when the block has none yet. *)
Definition accessList (s : MemorySSA) (BB : BasicBlock) : list addr :=
  default [] (getWritableBlockAccesses s BB).

(** Modelled from the spec: the access list of a block is replaced. *)
Definition setAccessList (BB : BasicBlock) (l : list addr) (s : MemorySSA) : MemorySSA :=
  with_PerBlockAccesses (<[BB := Some l]> (PerBlockAccesses s)) s.

(** Modelled from the spec, step 1 of the builder: "for each instruction
    call classify.  Create the corresponding Use or Def, append to the
    block's access list, record the instruction -> access map." *)
Definition scanInstruction (AA : AliasAnalysis) (BB : BasicBlock)
  (s : MemorySSA) (I : Instruction) : MemorySSA :=
  match createNewAccess AA I BB s with
  | (None, s1) => s1
  | (Some l, s1) =>
      with_ValueToMemoryAccess (<[VInstruction I := l]> (ValueToMemoryAccess s1))
        (setAccessList BB (accessList s1 BB ++ [l]) s1)
  end.

(** Modelled from the spec, step 1: the instructions of a block in order. *)
Definition scanBlock (AA : AliasAnalysis) (s : MemorySSA) (B : BasicBlockIR)
  : MemorySSA :=
  fold_left (scanInstruction AA (bb_name B)) (bb_instructions B) s.

(** Modelled from the spec, step 1: "traverse all blocks". *)
Definition scan (AA : AliasAnalysis) (F : Function) (s : MemorySSA) : MemorySSA :=
  fold_left (scanBlock AA) F s.

(** Modelled from the spec, step 1: "Collect the set of blocks that contain
    at least one Def". *)
Definition hasDef (s : MemorySSA) (BB : BasicBlock) : bool :=
  existsb (fun l => match Accesses s !! l with
                    | Some a => isa_MemoryDef a
                    | None => false
                    end) (accessList s BB).

(** Modelled from the spec: the defining-block set, in block order. *)
Definition definingBlocks (F : Function) (s : MemorySSA) : list BasicBlock :=
  List.filter (hasDef s) (bb_name <$> F).

(** Modelled from the spec: [getMemoryAccess] on a basic block, "block ->
    phi (for the block's phi, if any)". *)
Definition getMemoryAccess_block (s : MemorySSA) (BB : BasicBlock) : ptr :=
  ValueToMemoryAccess s !! VBasicBlock BB.

(** Modelled from the spec: [getMemoryAccess] on an instruction,
    "instruction -> access (for defs/uses only)". *)
Definition getMemoryAccess (s : MemorySSA) (I : Instruction) : ptr :=
  ValueToMemoryAccess s !! VInstruction I.

(** Modelled from the spec: [createMemoryPhi] "asserts the block has no
    phi; allocates one sized to the block's predecessor count; assigns an
    id"; within a block the phi is first.  The phi is the one the header's
    constructor makes: the slots are reserved and null, none is in use
    yet. *)
Definition createMemoryPhi (F : Function) (BB : BasicBlock) (s : MemorySSA)
  : result (addr * MemorySSA) :=
  _ ← check (bool_decide (getMemoryAccess_block s BB = None));
  let NumPreds := N.of_nat (length (predecessors F BB)) in
  let '(l, s1) := allocate (MP (MemoryPhi_new (Some BB) (NextID s) NumPreds)) s in
  Ok (l, with_NextID (NextID s + 1)
           (with_ValueToMemoryAccess
              (<[VBasicBlock BB := l]> (ValueToMemoryAccess s1))
              (setAccessList BB (l :: accessList s1 BB) s1))).

(** Modelled from the spec, step 2: "for each, add a Phi to every block in
    its dominance frontier that does not yet have one; add those blocks to
    the work set". *)
Fixpoint placeInFrontier (F : Function) (Frontier : list BasicBlock)
  (s : MemorySSA) : result (MemorySSA * list BasicBlock) :=
  match Frontier with
  | [] => Ok (s, [])
  | BB :: Rest =>
      match getMemoryAccess_block s BB with
      | Some _ => placeInFrontier F Rest s
      | None =>
          '(_, s1) ← createMemoryPhi F BB s;
          '(s2, New) ← placeInFrontier F Rest s1;
          Ok (s2, BB :: New)
      end
  end.

(** Modelled from the spec, step 2: "initialize work set to defining
    blocks", then one block of the work set after the other. *)
Fixpoint placePHINodes (fuel : nat) (F : Function) (DT : DominatorTree)
  (Work : list BasicBlock) (s : MemorySSA) : result MemorySSA :=
  match Work with
  | [] => Ok s
  | BB :: Rest =>
      match fuel with
      | O => Fault FuelExhausted
      | S fuel' =>
          '(s1, New) ← placeInFrontier F (frontier DT BB) s;
          placePHINodes fuel' F DT (Rest ++ New) s1
      end
  end.

(** Modelled from the spec, step 4: "fill the successor's incoming slot
    corresponding to this block with the current state", by the header's
    [addIncoming]; nothing to do when the successor has no phi. *)
Definition fillSuccessorPhi (Pred : BasicBlock) (V : ptr) (h : heap)
  (Succ : ptr) : result heap :=
  match Succ with
  | None => Ok h
  | Some l =>
      a ← deref h (Some l);
      match a with
      | MP P => P' ← addIncoming P V (Some Pred); Ok (<[l := MP P']> h)
      | _ => Fault BadCast
      end
  end.

(** Modelled from the spec, step 4: "for each CFG successor that has a
    Phi". *)
Fixpoint fillSuccessorPhis (s : MemorySSA) (Pred : BasicBlock) (V : ptr)
  (Succs : list BasicBlock) (h : heap) : result heap :=
  match Succs with
  | [] => Ok h
  | S_ :: Rest =>
      h1 ← fillSuccessorPhi Pred V h (getMemoryAccess_block s S_);
      fillSuccessorPhis s Pred V Rest h1
  end.

(** Modelled from the spec, step 4: "For each access in block order: if
    it is a Use, set its defining edge to current state; if it is a Def,
    set its defining edge to current state, then current state becomes the
    Def itself." *)
Fixpoint renameAccesses (l : list addr) (IncomingVal : ptr) (h : heap)
  : result (heap * ptr) :=
  match l with
  | [] => Ok (h, IncomingVal)
  | x :: l' =>
      a ← deref h (Some x);
      match a with
      | MU _ =>
          a' ← MemoryUseOrDef_setDefiningAccess a IncomingVal;
          renameAccesses l' IncomingVal (<[x := a']> h)
      | MD _ =>
          a' ← MemoryUseOrDef_setDefiningAccess a IncomingVal;
          renameAccesses l' (Some x) (<[x := a']> h)
      | MP _ => renameAccesses l' IncomingVal h
      end
  end.

(** Modelled from the spec, step 4: "On entering a block, if the block has
    a Phi, current state becomes that Phi." *)
Definition renameBlock (BB : BasicBlock) (IncomingVal : ptr) (s : MemorySSA)
  : result (MemorySSA * ptr) :=
  let Entry := match getMemoryAccess_block s BB with
               | Some phi => Some phi
               | None => IncomingVal
               end in
  '(h, Out) ← renameAccesses (accessList s BB) Entry (Accesses s);
  Ok (with_Accesses h s, Out).

(** Modelled from the spec, step 4: "a dominator-tree preorder walk
    carrying a single current incoming memory state"; "Visited blocks are
    tracked to avoid revisiting." *)
Fixpoint renamePass (F : Function) (Root : DomTreeNode) (IncomingVal : ptr)
  (st : MemorySSA * gset BasicBlock) : result (MemorySSA * gset BasicBlock) :=
  match Root with
  | DomNode BB Children =>
      if decide (BB ∈ st.2) then Ok st
      else
        '(s1, Out) ← renameBlock BB IncomingVal st.1;
        h2 ← fillSuccessorPhis s1 BB Out (successors F BB) (Accesses s1);
        (fix children (cs : list DomTreeNode) (st : MemorySSA * gset BasicBlock)
           : result (MemorySSA * gset BasicBlock) :=
           match cs with
           | [] => Ok st
           | c :: cs' => st' ← renamePass F c Out st; children cs' st'
           end) Children (with_Accesses h2 s1, {[BB]} ∪ st.2)
  end.

(** Modelled from the spec, step 5: "blocks not reached by the dominator
    walk are forced to LiveOnEntry for all their accesses and any phi
    incoming edges referencing them". *)
Fixpoint forceLiveOnEntry (LoE : ptr) (l : list addr) (h : heap) : result heap :=
  match l with
  | [] => Ok h
  | x :: l' =>
      a ← deref h (Some x);
      match a with
      | MP _ => forceLiveOnEntry LoE l' h
      | _ =>
          a' ← MemoryUseOrDef_setDefiningAccess a LoE;
          forceLiveOnEntry LoE l' (<[x := a']> h)
      end
  end.

(** Modelled from the spec, step 5: one unreachable block. *)
Definition markUnreachableAsLiveOnEntry (F : Function) (BB : BasicBlock)
  (s : MemorySSA) : result MemorySSA :=
  h1 ← forceLiveOnEntry (LiveOnEntryDef s) (accessList s BB) (Accesses s);
  h2 ← fillSuccessorPhis s BB (LiveOnEntryDef s) (successors F BB) h1;
  Ok (with_Accesses h2 s).

(** Modelled from the spec, step 5: every block the walk has not visited. *)
Fixpoint markUnreachable (F : Function) (Visited : gset BasicBlock)
  (Blocks : list BasicBlock) (s : MemorySSA) : result MemorySSA :=
  match Blocks with
  | [] => Ok s
  | BB :: Rest =>
      if decide (BB ∈ Visited) then markUnreachable F Visited Rest s
      else s1 ← markUnreachableAsLiveOnEntry F BB s;
           markUnreachable F Visited Rest s1
  end.

(** Modelled from the spec, section 4.4: "walk the defining-edge chain
    upward; at each Def, ask the oracle whether it may-alias the Use's
    location; at each Phi, treat the phi as a clobber"; the chain "ends at
    LiveOnEntry, which is treated as a clobber". *)
Fixpoint nearestClobber (fuel : nat) (AA : AliasAnalysis) (s : MemorySSA)
  (h : heap) (L : MemoryLocation) (Cur : ptr) : result ptr :=
  match fuel with
  | O => Fault FuelExhausted
  | S fuel' =>
      a ← deref h Cur;
      match a with
      | MP _ => Ok Cur
      | MD d =>
          if isLiveOnEntryDef s Cur then Ok Cur
          else match def_MemoryInst d with
               | None => Fault NullDereference
               | Some MI => if mayAliasLocation AA MI L then Ok Cur
                           else nearestClobber fuel' AA s h L (def_Operand d)
               end
      | MU _ => Fault BadCast
      end
  end.

(** Modelled from the spec, section 4.4: "Upon finding a may-aliasing
    access, install it as the defining access and record the Use's optimized
    marker to that access's id." *)
Definition optimizeUse (fuel : nat) (AA : AliasAnalysis) (s : MemorySSA)
  (h : heap) (U : addr) : result heap :=
  a ← deref h (Some U);
  match a with
  | MU u =>
      match use_MemoryInst u with
      | None => Fault NullDereference
      | Some MI =>
          Clobber ← nearestClobber fuel AA s h (locationOf AA MI) (use_Operand u);
          setDefiningAccess h U Clobber true
      end
  | _ => Ok h
  end.

(** Modelled from the spec, section 4.4: the Uses of a list of accesses. *)
Fixpoint optimizeUsesIn (fuel : nat) (AA : AliasAnalysis) (s : MemorySSA)
  (l : list addr) (h : heap) : result heap :=
  match l with
  | [] => Ok h
  | U :: l' => h1 ← optimizeUse fuel AA s h U; optimizeUsesIn fuel AA s l' h1
  end.

(** Modelled from the spec, section 4.4: "A single forward sweep" over
    "every Use created during build". *)
Definition optimizeUses (fuel : nat) (AA : AliasAnalysis) (F : Function)
  (s : MemorySSA) : result MemorySSA :=
  h ← optimizeUsesIn fuel AA s (concat ((fun B => accessList s (bb_name B)) <$> F))
        (Accesses s);
  Ok (with_Accesses h s).

(** Modelled from the spec, section 4.3: scan, phi placement, renaming
    from LiveOnEntry, unreachable blocks, then the use optimizer. *)
Definition buildMemorySSA (fuel : nat) (ReservedID : N) (AA : AliasAnalysis)
  (DT : DominatorTree) (F : Function) : result MemorySSA :=
  let s1 := scan AA F (MemorySSA_init ReservedID) in
  s2 ← placePHINodes fuel F DT (definingBlocks F s1) s1;
  '(s3, Visited) ← renamePass F (getRootNode DT) (LiveOnEntryDef s2) (s2, ∅);
  s4 ← markUnreachable F Visited (bb_name <$> F) s3;
  optimizeUses fuel AA F s4.

End Builder.

(** ** The clobber walker *)

Module ClobberWalker.

Section Walk.

Variable PHITranslateValue :
  positive -> BasicBlock -> option BasicBlock -> bool * option positive.
Variable AA : AliasAnalysis.

(** Modelled from the spec, section 4.5: the upward walk that answers a
    clobber query.  "Uses are skipped; only Defs and Phis are clobbers";
    "Phis are returned as-is rather than pushed through"; "LiveOnEntry
    is a valid return value"; a Def that may-alias the location is the
    clobber; "Upward traversal uses the upward-defs iterator".  The memo
    table is left out: a hit returns what the same walk returned. *)
Fixpoint walk (fuel : nat) (s : MemorySSA) (L : MemoryLocation) (Cur : ptr)
  : result ptr :=
  match fuel with
  | O => Fault FuelExhausted
  | S fuel' =>
      let above :=
        Pairs ← upward_defs PHITranslateValue 1 (Accesses s) (Cur, L);
        match Pairs with
        | [(D, L')] => walk fuel' s L' D
        | _ => Fault Unreachable
        end in
      a ← deref (Accesses s) Cur;
      match a with
      | MP _ => Ok Cur
      | MD d =>
          if isLiveOnEntryDef s Cur then Ok Cur
          else match def_MemoryInst d with
               | None => Fault NullDereference
               | Some MI => if mayAliasLocation AA MI L then Ok Cur else above
               end
      | MU _ => above
      end
  end.

(** Modelled from the spec: [getClobberingMemoryAccess] on an access and a
    location.  "When called with a Def and an explicit location L, and the
    Def itself may-aliases L, the Def itself is returned; otherwise walk
    upward as in the use case." *)
Definition getClobberingMemoryAccess_at (fuel : nat) (s : MemorySSA)
  (MA : addr) (L : MemoryLocation) : result ptr :=
  walk fuel s L (Some MA).

(** Modelled from the spec: [getClobberingMemoryAccess] on an access.  A
    phi is returned as it is; for a Use or a Def the walk starts above the
    access, with the location of its own instruction ("not the Def
    itself"). *)
Definition getClobberingMemoryAccess (fuel : nat) (s : MemorySSA) (MA : addr)
  : result ptr :=
  a ← deref (Accesses s) (Some MA);
  match a with
  | MP _ => Ok (Some MA)
  | _ =>
      MI ← getMemoryInst a;
      match MI with
      | None => Fault NullDereference
      | Some MI =>
          Pairs ← upward_defs PHITranslateValue 1 (Accesses s)
                    (Some MA, locationOf AA MI);
          match Pairs with
          | [(D, L')] => walk fuel s L' D
          | _ => Fault Unreachable
          end
      end
  end.

(** [getClobberingMemoryAccess] on an instruction, from the header:
    look the access up, assert that there is one, dispatch. *)
Definition getClobberingMemoryAccess_inst (fuel : nat) (s : MemorySSA)
  (I : Instruction) : result ptr :=
  match Builder.getMemoryAccess s I with
  | None => Fault AssertionFailure
  | Some MA => getClobberingMemoryAccess fuel s MA
  end.

End Walk.

(** Modelled from the spec: "the chain strictly ascends the dominator
    tree and ends at LiveOnEntry".  [rank] is the height an access sits
    at: the defining access of a Use, and of a Def other than LiveOnEntry,
    is an access of the analysis that sits strictly lower, and such a Def
    has an instruction. *)
Definition ascends (s : MemorySSA) (rank : addr -> nat) : Prop :=
  forall l a, Accesses s !! l = Some a ->
    match a with
    | MP _ => True
    | MU u =>
        exists l', use_Operand u = Some l' /\ is_Some (Accesses s !! l') /\
                   (rank l' < rank l)%nat
    | MD d =>
        Some l = LiveOnEntryDef s \/
        (is_Some (def_MemoryInst d) /\
         exists l', def_Operand d = Some l' /\ is_Some (Accesses s !! l') /\
                    (rank l' < rank l)%nat)
    end.

(** Modelled from the spec: the walker's "invalidate(access) hook the
    mutation API calls"; the walker records that it was told to forget
    [MA]. *)
Definition invalidateInfo (MA : addr) (W : CachingWalker) : CachingWalker :=
  {| Invalidated := MA :: Invalidated W |}.

End ClobberWalker.

(** Modelled from the spec: the do-nothing walker "returns the defining
    edge verbatim". *)
Module DoNothingMemorySSAWalker.

(** Modelled from the spec: the do-nothing walker "returns the defining
    edge verbatim"; a phi has none and is returned itself. *)
Definition getClobberingMemoryAccess (s : MemorySSA) (MA : addr) : result ptr :=
  a ← deref (Accesses s) (Some MA);
  match a with
  | MP _ => Ok (Some MA)
  | _ => getDefiningAccess a
  end.

(** Modelled from the spec: the same with a location, which it ignores. *)
Definition getClobberingMemoryAccess_at (s : MemorySSA) (MA : addr)
  (L : MemoryLocation) : result ptr :=
  getClobberingMemoryAccess s MA.

End DoNothingMemorySSAWalker.

(** ** The mutation API *)

Module Mutation.

Inductive InsertionPlace : Set := Beginning | End_.

(** Modelled from the spec, section 4.6: "materialize a new Use or Def
    (type derived from oracle classification) with the given defining
    edge, splice into the block's access list at the specified end.  Does
    not create phis; does not re-optimize uses.  If an access already
    existed for the instruction it is left orphaned". *)
Definition createMemoryAccessInBB (AA : AliasAnalysis) (I : Instruction)
  (Definition_ : ptr) (BB : BasicBlock) (Point : InsertionPlace) (s : MemorySSA)
  : result (addr * MemorySSA) :=
  match Builder.createDefinedAccess AA I BB Definition_ s with
  | (None, _) => Fault AssertionFailure
  | (Some l, s1) =>
      let Old := Builder.accessList s1 BB in
      let New := match Point with
                 | Beginning => l :: Old
                 | End_ => Old ++ [l]
                 end in
      Ok (l, with_ValueToMemoryAccess
               (<[VInstruction I := l]> (ValueToMemoryAccess s1))
               (Builder.setAccessList BB New s1))
  end.

(** Modelled from the spec: "placed immediately before/after an existing
    access", as a list operation; [None] when the anchor is not in the
    list. *)
Fixpoint spliceAt (After : bool) (InsertPt l : addr) (L : list addr)
  : option (list addr) :=
  match L with
  | [] => None
  | x :: L' =>
      if decide (x = InsertPt)
      then Some (if After then x :: l :: L' else l :: x :: L')
      else (x ::.) <$> spliceAt After InsertPt l L'
  end.

(** Modelled from the spec: "same, placed immediately before/after an
    existing access in its block's list". *)
Definition createMemoryAccessNextTo (After : bool) (AA : AliasAnalysis)
  (I : Instruction) (Definition_ : ptr) (InsertPt : addr) (s : MemorySSA)
  : result (addr * MemorySSA) :=
  a ← deref (Accesses s) (Some InsertPt);
  match getBlock a with
  | None => Fault NullDereference
  | Some BB =>
      match Builder.createDefinedAccess AA I BB Definition_ s with
      | (None, _) => Fault AssertionFailure
      | (Some l, s1) =>
          match spliceAt After InsertPt l (Builder.accessList s1 BB) with
          | None => Fault AssertionFailure
          | Some New =>
              Ok (l, with_ValueToMemoryAccess
                       (<[VInstruction I := l]> (ValueToMemoryAccess s1))
                       (Builder.setAccessList BB New s1))
          end
      end
  end.

(** Modelled from the spec: [createMemoryAccessBefore] and
    [createMemoryAccessAfter]. *)
Definition createMemoryAccessBefore := createMemoryAccessNextTo false.
Definition createMemoryAccessAfter := createMemoryAccessNextTo true.

(** Modelled from the spec: "rewires all users whose defining edge points
    to this access": every defining edge of [a] that points to [Old] is made
    to point to [New], operand 0 of a Use or Def and the incoming values of a
    phi alike. *)
Definition replaceUsesIn (Old : addr) (New : ptr) (a : MemoryAccess) : MemoryAccess :=
  let swap (V : ptr) := if decide (V = Some Old) then New else V in
  match a with
  | MU u => MU {| use_Block := use_Block u; use_MemoryInst := use_MemoryInst u;
                  use_Operand := swap (use_Operand u);
                  OptimizedID := OptimizedID u |}
  | MD d => MD {| def_Block := def_Block d; def_MemoryInst := def_MemoryInst d;
                  def_Operand := swap (def_Operand d); def_ID := def_ID d |}
  | MP P => MP {| phi_Block := phi_Block P; phi_ID := phi_ID P;
                  ReservedSpace := ReservedSpace P;
                  NumUserOperands := NumUserOperands P;
                  OperandList := swap <$> OperandList P;
                  BlockList := BlockList P |}
  end.

(** Modelled from the spec: the same for every access of the analysis. *)
Definition replaceAllUsesWith (Old : addr) (New : ptr) (h : heap) : heap :=
  replaceUsesIn Old New <$> h.

(** Modelled from the spec: the defining edges of an access, "for Use/Def a
    single-element sequence (the defining access), for Phi the sequence of
    incoming accesses". *)
Definition definingEdges (a : MemoryAccess) : list ptr :=
  match a with
  | MU u => [use_Operand u]
  | MD d => [def_Operand d]
  | MP P => take (N.to_nat (getNumIncomingValues P)) (OperandList P)
  end.

(** Modelled from the spec: whether some access has a defining edge to
    [X]. *)
Definition hasUsers (X : addr) (h : heap) : bool :=
  bool_decide (exists l a, h !! l = Some a /\ Some X ∈ definingEdges a).

(** Modelled from the spec: what the users of a removed access are
    rewired to.  For a Use or Def, "the removed access's own defining
    access"; a phi is replaced by "its predecessor incomings", which is a
    single access once the caller has "merged predecessor edges". *)
Definition replacementFor (X : addr) (h : heap) (a : MemoryAccess) : result ptr :=
  match a with
  | MP P =>
      match definingEdges a with
      | V :: Rest =>
          if forallb (fun W => bool_decide (W = V)) Rest then Ok V
          else if hasUsers X h then Fault AssertionFailure else Ok None
      | [] => if hasUsers X h then Fault AssertionFailure else Ok None
      end
  | _ => getDefiningAccess a
  end.

(** Modelled from the spec: "removes the access from the block list, the
    instruction map, and invokes walker invalidation"; the object is
    destroyed. *)
Definition removeFromLookups (MA : addr) (a : MemoryAccess) (s : MemorySSA)
  : MemorySSA :=
  let Lists := match getBlock a with
               | Some BB =>
                   match getWritableBlockAccesses s BB with
                   | Some l =>
                       <[BB := Some (List.filter (fun x => bool_decide (x <> MA)) l)]>
                         (PerBlockAccesses s)
                   | None => PerBlockAccesses s
                   end
               | None => PerBlockAccesses s
               end in
  {| Accesses := delete MA (Accesses s);
     ValueToMemoryAccess := filter (fun kv => kv.2 <> MA) (ValueToMemoryAccess s);
     PerBlockAccesses := Lists;
     LiveOnEntryDef := LiveOnEntryDef s;
     BlockNumberingValid := BlockNumberingValid s;
     BlockNumbering := delete MA (BlockNumbering s);
     Walker := ClobberWalker.invalidateInfo MA (Walker s);
     NextID := NextID s |}.

(** Modelled from the spec: [removeMemoryAccess] "rewires all users whose
    defining edge points to this access to point to the removed access's
    own defining access", then removes it from the lookups. *)
Definition removeMemoryAccess (MA : addr) (s : MemorySSA) : result MemorySSA :=
  a ← deref (Accesses s) (Some MA);
  NewDefTarget ← replacementFor MA (Accesses s) a;
  Ok (removeFromLookups MA a
        (with_Accesses (replaceAllUsesWith MA NewDefTarget (Accesses s)) s)).

End Mutation.

(** ** Notions used in the statements and their proofs *)

(** The arrays [addIncoming] writes into: those of [P], or the grown ones
    when every reserved slot is in use. *)
Definition slots_for_append {A} (P : MemoryPhi) (l : list (option A)) : list (option A) :=
  if getNumOperands P =? ReservedSpace P then
    take (N.to_nat (getNumOperands P)) l ++
    replicate (N.to_nat (N.max (getNumOperands P + getNumOperands P / 2) 2)
               - N.to_nat (getNumOperands P))%nat None
  else l.

(** The index, counted from [I], of the first element of [l] equal to [x]. *)
Fixpoint first_index {A} `{EqDecision A} (x : A) (l : list A) (I : N) : option N :=
  match l with
  | [] => None
  | y :: l' => if decide (y = x) then Some I else first_index x l' (I + 1)
  end.

(** A caller's loop [for (V, BB) in l: P.addIncoming(V, BB)]. *)
Fixpoint addIncomings (P : MemoryPhi) (l : list (ptr * option BasicBlock))
  : result MemoryPhi :=
  match l with
  | [] => Ok P
  | (V, BB) :: l' => P' ← addIncoming P V BB; addIncomings P' l'
  end.

(** The phis a client can arrive at: constructed, then changed by the
    public mutators. *)
Inductive phi_built : MemoryPhi -> Prop :=
| built_new BB Ver NumPreds :
    NumPreds < 2 ^ UINT_WIDTH -> phi_built (MemoryPhi_new BB Ver NumPreds)
| built_addIncoming P V BB P' :
    phi_built P -> addIncoming P V BB = Ok P' -> phi_built P'
| built_setIncomingValue P I V P' :
    phi_built P -> setIncomingValue P I V = Ok P' -> phi_built P'
| built_setIncomingBlock P I BB P' :
    phi_built P -> setIncomingBlock P I BB = Ok P' -> phi_built P'.

(** The instruction a Use or Def stands for ([false] Use, [true] Def). *)
Definition instKind (a : MemoryAccess) : option (bool * Instruction) :=
  match a with
  | MU u => pair false <$> use_MemoryInst u
  | MD d => pair true <$> def_MemoryInst d
  | MP _ => None
  end.

(** The id of a Def or Phi. *)
Definition idOf (a : MemoryAccess) : option N :=
  match a with
  | MU _ => None
  | MD d => Some (def_ID d)
  | MP P => Some (phi_ID P)
  end.

(** What never changes while an access lives: its class, its instruction,
    its id. *)
Definition stamp (a : MemoryAccess) : option (bool * Instruction) * option N :=
  (instKind a, idOf a).

Definition same_stamps (h h' : heap) : Prop :=
  forall l, stamp <$> h' !! l = stamp <$> h !! l.

(** [represents s l I]: the object at [l] is a Use or Def of instruction [I]. *)
Definition represents (s : MemorySSA) (l : addr) (I : Instruction) : Prop :=
  exists a, Accesses s !! l = Some a /\ getMemoryInst a = Ok (Some I).

(** Every block with an entry in [PerBlockAccesses] owns a list, and the
    list is not empty. *)
Definition lists_ok (s : MemorySSA) : Prop :=
  forall BB o, PerBlockAccesses s !! BB = Some o -> exists x l, o = Some (x :: l).

(** A step of the later phases of the builder: the accesses keep their
    stamps, or one phi with the next id is allocated; the instruction map is
    not touched and no block is left with an empty list. *)
Inductive evolve (s s' : MemorySSA) : Prop :=
| ev_same :
    same_stamps (Accesses s) (Accesses s') ->
    NextID s' = NextID s -> LiveOnEntryDef s' = LiveOnEntryDef s ->
    (forall I, ValueToMemoryAccess s' !! VInstruction I
               = ValueToMemoryAccess s !! VInstruction I) ->
    (lists_ok s -> lists_ok s') ->
    evolve s s'
| ev_phi (l : addr) (P : MemoryPhi) :
    Accesses s !! l = None -> Accesses s' !! l = Some (MP P) ->
    (forall l', l' <> l -> stamp <$> Accesses s' !! l' = stamp <$> Accesses s !! l') ->
    phi_ID P = NextID s -> NextID s' = NextID s + 1 ->
    LiveOnEntryDef s' = LiveOnEntryDef s ->
    (forall I, ValueToMemoryAccess s' !! VInstruction I
               = ValueToMemoryAccess s !! VInstruction I) ->
    (lists_ok s -> lists_ok s') ->
    evolve s s'.

(** Induction over a dominator tree and the trees below it. *)
Fixpoint DomTreeNode_forall_ind (P : DomTreeNode -> Prop)
  (Hnode : forall BB Children, Forall P Children -> P (DomNode BB Children))
  (Root : DomTreeNode) : P Root :=
  match Root with
  | DomNode BB Children =>
      Hnode BB Children
        ((fix below (cs : list DomTreeNode) : Forall P cs :=
            match cs with
            | [] => @List.Forall_nil _ P
            | c :: cs' =>
                @List.Forall_cons _ P c cs' (DomTreeNode_forall_ind P Hnode c) (below cs')
            end) Children)
  end.

Definition view (s : MemorySSA) (l : addr) : option (bool * Instruction) :=
  Accesses s !! l ≫= instKind.

(** [covers AA s done]: the Uses and Defs of [s] are exactly one per
    instruction of [done] that touches memory, of the class the oracle
    gives, and the instruction map finds them. *)
Definition covers (AA : AliasAnalysis) (s : MemorySSA) (done : list Instruction) : Prop :=
  (forall l k I, view s l = Some (k, I) ->
     I ∈ done /\ ValueToMemoryAccess s !! VInstruction I = Some l /\
     Builder.classify AA I = (if k then Builder.AsDef else Builder.AsUse)) /\
  (forall I, I ∈ done -> Builder.classify AA I <> Builder.Skip ->
     exists l k, ValueToMemoryAccess s !! VInstruction I = Some l /\
                 view s l = Some (k, I)) /\
  (forall I l, ValueToMemoryAccess s !! VInstruction I = Some l ->
     exists k, view s l = Some (k, I)).

(** The operations on accesses that a client, the builder or the optimizer
    can take on a built analysis. *)
Inductive step (s : MemorySSA) : MemorySSA -> Prop :=
| step_createMemoryAccessInBB AA I D BB Point l s' :
    Mutation.createMemoryAccessInBB AA I D BB Point s = Ok (l, s') -> step s s'
| step_createMemoryAccessNextTo After AA I D InsertPt l s' :
    Mutation.createMemoryAccessNextTo After AA I D InsertPt s = Ok (l, s') -> step s s'
| step_createMemoryPhi F BB l s' :
    Builder.createMemoryPhi F BB s = Ok (l, s') -> step s s'
| step_removeMemoryAccess X s' :
    Mutation.removeMemoryAccess X s = Ok s' -> step s s'
| step_setDefiningAccess U D Optimized h' :
    setDefiningAccess (Accesses s) U D Optimized = Ok h' ->
    step s (with_Accesses h' s)
| step_setDefiningAccess_base l a a' D :
    Accesses s !! l = Some a -> MemoryUseOrDef_setDefiningAccess a D = Ok a' ->
    step s (with_Accesses (<[l := a']> (Accesses s)) s)
| step_resetOptimized U h' :
    resetOptimized (Accesses s) U = Ok h' -> step s (with_Accesses h' s)
| step_setIncomingValue l P I V P' :
    Accesses s !! l = Some (MP P) -> setIncomingValue P I V = Ok P' ->
    step s (with_Accesses (<[l := MP P']> (Accesses s)) s)
| step_setIncomingBlock l P I BB P' :
    Accesses s !! l = Some (MP P) -> setIncomingBlock P I BB = Ok P' ->
    step s (with_Accesses (<[l := MP P']> (Accesses s)) s)
| step_addIncoming l P V BB P' :
    Accesses s !! l = Some (MP P) -> addIncoming P V BB = Ok P' ->
    step s (with_Accesses (<[l := MP P']> (Accesses s)) s).

(** The states of an analysis: as constructed, as built, and after any
    number of steps. *)
Inductive reachable : MemorySSA -> Prop :=
| reach_init ReservedID : reachable (Builder.MemorySSA_init ReservedID)
| reach_build fuel ReservedID AA DT F s :
    Builder.buildMemorySSA fuel ReservedID AA DT F = Ok s -> reachable s
| reach_step s s' : reachable s -> step s s' -> reachable s'.

(** The effect of one operation on the stamps: none, one object allocated
    (a Def or Phi among them with the next id), or one object freed. *)
Inductive effect (s s' : MemorySSA) : Prop :=
| eff_same :
    same_stamps (Accesses s) (Accesses s') ->
    NextID s' = NextID s -> LiveOnEntryDef s' = LiveOnEntryDef s -> effect s s'
| eff_alloc (l : addr) (a : MemoryAccess) :
    Accesses s !! l = None -> Accesses s' !! l = Some a ->
    (forall l', l' <> l -> stamp <$> Accesses s' !! l' = stamp <$> Accesses s !! l') ->
    (forall i, idOf a = Some i -> i = NextID s /\ NextID s' = NextID s + 1) ->
    NextID s <= NextID s' ->
    LiveOnEntryDef s' = LiveOnEntryDef s -> effect s s'
| eff_free (l : addr) :
    Accesses s' !! l = None ->
    (forall l', l' <> l -> stamp <$> Accesses s' !! l' = stamp <$> Accesses s !! l') ->
    NextID s' = NextID s -> LiveOnEntryDef s' = LiveOnEntryDef s -> effect s s'.

(** Apart from LiveOnEntry, the ids in use are positive, below [NextID],
    and pairwise distinct. *)
Definition ids_ok (s : MemorySSA) : Prop :=
  0 < NextID s /\
  (forall l a i, Accesses s !! l = Some a -> Some l <> LiveOnEntryDef s ->
     idOf a = Some i -> 0 < i < NextID s) /\
  (forall l1 l2 a1 a2 i,
     Accesses s !! l1 = Some a1 -> Accesses s !! l2 = Some a2 ->
     Some l1 <> LiveOnEntryDef s -> Some l2 <> LiveOnEntryDef s ->
     idOf a1 = Some i -> idOf a2 = Some i -> l1 = l2).

(** ** The state of the builder *)

(** The defining access and the instruction of a Use or Def. *)
Definition operandOf (a : MemoryAccess) : ptr :=
  match a with
  | MU u => use_Operand u
  | MD d => def_Operand d
  | MP _ => None
  end.

(** [getMemoryInst] without the cast: a phi stands for no instruction. *)
Definition instOf (a : MemoryAccess) : option Instruction :=
  match a with
  | MU u => use_MemoryInst u
  | MD d => def_MemoryInst d
  | MP _ => None
  end.

(** Two stores that hold the same objects in the same blocks. *)
Definition same_blocks (h h' : heap) : Prop :=
  forall l, getBlock <$> h' !! l = getBlock <$> h !! l.

(** A chain of defining accesses that the use optimizer can follow: within
    [n] steps it is at a phi or at LiveOnEntry, passing only Defs that
    stand for an instruction. *)
Fixpoint wfchain (n : nat) (loe : ptr) (h : heap) (Cur : ptr) : Prop :=
  match n with
  | O => False
  | S n' =>
      match Cur with
      | None => False
      | Some c =>
          match h !! c with
          | Some (MP _) => True
          | Some (MD d) =>
              Some c = loe \/
              (is_Some (def_MemoryInst d) /\ wfchain n' loe h (def_Operand d))
          | _ => False
          end
      end
  end.

(** The block lists and the blocks of the accesses agree. *)
Definition blocks_ok (s : MemorySSA) : Prop :=
  lists_ok s /\
  (forall BB, NoDup (Builder.accessList s BB)) /\
  (forall BB x, x ∈ Builder.accessList s BB ->
     exists a, Accesses s !! x = Some a /\ getBlock a = Some BB) /\
  (forall x a BB, Accesses s !! x = Some a -> getBlock a = Some BB ->
     x ∈ Builder.accessList s BB).

(** The number of CFG edges that leave the blocks of a dominator tree:
    the incoming entries the renaming walk can fill. *)
Fixpoint tree_edges (F : Function) (Root : DomTreeNode) : nat :=
  match Root with
  | DomNode BB Children =>
      (length (successors F BB)
       + (fix sum (cs : list DomTreeNode) : nat :=
            match cs with
            | [] => 0
            | c :: cs' => tree_edges F c + sum cs'
            end) Children)%nat
  end.

(** The number of CFG edges that leave the blocks of a list. *)
Definition block_edges (F : Function) (Blocks : list BasicBlock) : nat :=
  length (concat (successors F <$> Blocks)).

(** What the builder expects of its input: the blocks are distinct, the
    dominance frontiers lie within the function, a phi can be sized for
    the predecessors of a block, and the incoming edges the builder fills
    fit the operand count of a phi. *)
Definition well_formed (F : Function) (DT : DominatorTree) : Prop :=
  NoDup (bb_name <$> F) /\
  (forall BB BB', BB' ∈ frontier DT BB -> BB' ∈ (bb_name <$> F)) /\
  N.of_nat (length F) < 2 ^ UINT_WIDTH /\
  N.of_nat (tree_edges F (getRootNode DT) + block_edges F (bb_name <$> F))
  < 2 ^ NumUserOperandsBits.

(** The state of the analysis while it is built: [R] are the accesses
    renamed so far, [c] bounds the incoming entries of the phis, [k] the
    length of the chains of defining accesses. *)
Record build_inv (F : Function) (R : gset addr) (c : N) (k : nat)
  (s : MemorySSA) : Prop := mkBuildInv {
  inv_blocks : blocks_ok s;
  inv_loe : exists loe d, LiveOnEntryDef s = Some loe /\
                          Accesses s !! loe = Some (MD d) /\ def_Block d = None;
  inv_names : forall BB, is_Some (PerBlockAccesses s !! BB) -> BB ∈ (bb_name <$> F);
  inv_phimap : forall BB l, Builder.getMemoryAccess_block s BB = Some l ->
                 exists P, Accesses s !! l = Some (MP P);
  inv_phis : forall l P, Accesses s !! l = Some (MP P) ->
               wf_phi P /\ getNumIncomingValues P <= c;
  inv_usedef : forall x a, Accesses s !! x = Some a -> isa_MemoryUseOrDef a = true ->
                 Some x <> LiveOnEntryDef s ->
                 exists BB, getBlock a = Some BB /\ is_Some (instOf a) /\
                   if decide (x ∈ R)
                   then wfchain k (LiveOnEntryDef s) (Accesses s) (operandOf a)
                   else operandOf a = None
}.

(** The blocks of the function that have no phi yet: what the phi
    placement can still add. *)
Definition blocks_without_phi (F : Function) (s : MemorySSA) : nat :=
  length (List.filter (fun BB => bool_decide (Builder.getMemoryAccess_block s BB = None))
            (bb_name <$> F)).

(** ** Sample analyses *)

Module Samples.

(** A store followed by a load of the same block: LiveOnEntry at 1, the
  Def of the store at 2, the Use of the load at 3. *)
Definition store : MemoryDef :=
{| def_Block := Some 1%positive; def_MemoryInst := Some 10%positive;
   def_Operand := Some 1%positive; def_ID := 1 |}.

Definition load : MemoryUse :=
{| use_Block := Some 1%positive; use_MemoryInst := Some 11%positive;
   use_Operand := Some 2%positive; OptimizedID := INVALID_MEMORYACCESS_ID |}.

Definition straight : heap :=
<[3%positive := MU load]>
  (<[2%positive := MD store]> (<[1%positive := Builder.LiveOnEntry 0]> ∅)).

Definition load_optimized : MemoryUse :=
{| use_Block := Some 1%positive; use_MemoryInst := Some 11%positive;
   use_Operand := Some 2%positive; OptimizedID := 1 |}.

Definition straight_optimized : heap := <[3%positive := MU load_optimized]> straight.

(** A phi of block 4 merging the accesses 2 and 3 that come in from the
  blocks 2 and 3; every reserved slot is in use. *)
Definition merge : MemoryPhi :=
{| phi_Block := Some 4%positive; phi_ID := 3;
   ReservedSpace := 2; NumUserOperands := 2;
   OperandList := [Some 2%positive; Some 3%positive];
   BlockList := [Some 2%positive; Some 3%positive] |}.

Definition merged : heap := <[5%positive := MP merge]> straight.

(** A phi as the constructor leaves it: two slots reserved, none in use. *)
Definition fresh_phi : MemoryPhi := MemoryPhi_new (Some 4%positive) 3 2.

Definition fresh_phi_heap : heap := {[ 5%positive := MP fresh_phi ]}.

(** A location, and a translator that moves an address by one across the
  edge from block 2 and fails across any other edge. *)
Definition cell : MemoryLocation :=
{| Ptr := Some 9%positive; Size := 4;
   AATags := {| TBAA := None; Scope := None; NoAlias := None |} |}.

Definition translate (Addr : positive) (CurBB : BasicBlock)
(PredBB : option BasicBlock) : bool * option positive :=
match PredBB with
| Some 2%positive => (false, Some (Addr + 1)%positive)
| _ => (true, None)
end.

(** The diamond: block 1 branches to 2 and 3, which both store (10, 11) and
  join in 4, which loads (12); instruction 13 of block 1 touches no
  memory. *)
Definition oracle : AliasAnalysis :=
{| getModRefInfo := fun I =>
     match I with
     | 10%positive | 11%positive => MRI_Mod
     | 12%positive => MRI_Ref
     | _ => MRI_NoModRef
     end;
   mayAliasInstruction := fun _ _ => true;
   mayAliasLocation := fun _ _ => true;
   locationOf := fun _ => cell |}.

Definition diamond : Function :=
[ {| bb_name := 1%positive; bb_instructions := [13%positive];
     bb_successors := [2%positive; 3%positive] |};
  {| bb_name := 2%positive; bb_instructions := [10%positive];
     bb_successors := [4%positive] |};
  {| bb_name := 3%positive; bb_instructions := [11%positive];
     bb_successors := [4%positive] |};
  {| bb_name := 4%positive; bb_instructions := [12%positive];
     bb_successors := [] |} ].

Definition tree : DominatorTree :=
{| getRootNode := DomNode 1%positive
                    [DomNode 2%positive []; DomNode 3%positive [];
                     DomNode 4%positive []];
   frontier := fun BB => match BB with
                         | 2%positive | 3%positive => [4%positive]
                         | _ => []
                         end |}.

(** The analysis of the diamond: LiveOnEntry at 1, the Defs of the stores
  at 2 and 3, the Use of the load at 4, the phi of block 4 at 5. *)
Definition built : MemorySSA :=
match Builder.buildMemorySSA 10 0 oracle tree diamond with
| Ok s => s
| Fault _ => Builder.MemorySSA_init 0
end.

(** The height of the accesses of [built] above LiveOnEntry. *)
Definition height (l : addr) : nat :=
match l with
| 1%positive => 0
| 4%positive => 2
| _ => 1
end.

End Samples.

(** * Properties *)

(** C1. On a use [U], [U.setDefiningAccess(D, true)] returns for every
    [D] that is a def or a phi; it installs [D], records the id of [D] as
    the marker, and [U.isOptimized()] is true afterwards.  A use whose
    defining access carries an id other than the recorded marker is
    reported as not optimized. *)
Theorem isOptimized_tracks_marker (h : heap) (U : addr) :
  (forall u d a, h !! U = Some (MU u) -> h !! d = Some a -> isa_MemoryUse a = false ->
     exists h' u',
       setDefiningAccess h U (Some d) true = Ok h' /\
       h' !! U = Some (MU u') /\ use_Operand u' = Some d /\
       getID_at h (Some d) = Ok (OptimizedID u') /\
       isOptimized h' U = Ok true) /\
  (forall D h', setDefiningAccess h U D true = Ok h' -> isOptimized h' U = Ok true) /\
  (forall u d i, h !! U = Some (MU u) -> use_Operand u = Some d ->
                 getID_at h (Some d) = Ok i -> i <> OptimizedID u ->
                 isOptimized h U = Ok false).
Proof.
  assert (forall D h', setDefiningAccess h U D true = Ok h' ->
            isOptimized h' U = Ok true) as Hset.
  { intros D h' Hset. unfold setDefiningAccess in Hset. simpl in Hset.
    destruct (h !! U) as [a|] eqn:HU; simpl in Hset; [|discriminate].
    destruct a as [u| |]; simpl in Hset; try discriminate.
    unfold getID_at in Hset.
    destruct D as [d|]; simpl in Hset; [|discriminate].
    destruct (h !! d) as [ad|] eqn:Hd; simpl in Hset; [|discriminate].
    destruct (getID ad) as [i|] eqn:Hid; simpl in Hset; [|discriminate].
    injection Hset as <-.
    assert (d <> U) as Hne.
    { intros ->. rewrite HU in Hd. injection Hd as <-. discriminate. }
    unfold isOptimized. simpl. rewrite lookup_insert_eq. simpl.
    unfold getID_at. simpl. rewrite lookup_insert_ne by done.
    rewrite Hd. simpl. rewrite Hid. simpl. by rewrite N.eqb_refl. }
  split; [|split; [exact Hset|]].
  - intros u d a HU Hd Ha.
    assert (exists i, getID a = Ok i) as [i Hid]
      by (destruct a; [discriminate | by eexists | by eexists]).
    assert (setDefiningAccess h U (Some d) true
            = Ok (<[U := MU {| use_Block := use_Block u;
                               use_MemoryInst := use_MemoryInst u;
                               use_Operand := Some d; OptimizedID := i |}]> h)) as Hcall.
    { unfold setDefiningAccess, getID_at. simpl. rewrite HU. simpl. rewrite Hd. simpl.
      by rewrite Hid. }
    eexists _, _. split; [exact Hcall|]. split; [by rewrite lookup_insert_eq|].
    simpl. split; [done|]. split; [|by apply (Hset (Some d))].
    unfold getID_at. simpl. by rewrite Hd.
  - intros u d i HU Hop Hid Hne.
    unfold isOptimized. simpl. rewrite HU. simpl. rewrite Hop, Hid. simpl.
    f_equal. apply N.eqb_neq. congruence.
Qed.

(** ** Phi setters and appends *)

Lemma check_Ok (b : bool) : b = true -> check b = Ok tt.
Proof. by intros ->. Qed.

Lemma bind_Ok {A B} (m : result A) (k : A -> result B) (b : B) :
  m ≫= k = Ok b -> exists a, m = Ok a /\ k a = Ok b.
Proof. destruct m as [a|f]; simpl; [by exists a | discriminate]. Qed.

Lemma deref_Ok (h : heap) (p : ptr) (a : MemoryAccess) :
  deref h p = Ok a -> exists l, p = Some l /\ h !! l = Some a.
Proof.
  destruct p as [l|]; simpl; [|discriminate].
  destruct (h !! l) eqn:E; [|discriminate]. intros [= <-]. by exists l.
Qed.

Lemma check_Ok_inv (b : bool) (u : unit) : check b = Ok u -> b = true.
Proof. by destruct b. Qed.

Lemma wrap_small (n : N) : n < 2 ^ UINT_WIDTH -> wrap n = n.
Proof. intros H. unfold wrap. by apply N.mod_small. Qed.

Lemma uadd_small (a b : N) : a + b < 2 ^ UINT_WIDTH -> uadd a b = a + b.
Proof. intros H. unfold uadd. by apply wrap_small. Qed.

Lemma usub_succ (a : N) : a + 1 < 2 ^ UINT_WIDTH -> usub (a + 1) 1 = a.
Proof.
  intros H. unfold usub. rewrite (wrap_small 1) by (unfold UINT_WIDTH; lia).
  unfold wrap. replace (a + 1 + 2 ^ UINT_WIDTH - 1) with (a + 1 * 2 ^ UINT_WIDTH) by lia.
  rewrite N.Div0.mod_add. apply N.mod_small. lia.
Qed.

(** C8. Installing a null incoming value or a null incoming block trips the
    setter's assertion, so a slot written by a setter that returned holds a
    non-null value, respectively a non-null block. *)
Theorem phi_setters_reject_null (P : MemoryPhi) (I : N) :
  setIncomingValue P I None = Fault AssertionFailure /\
  setIncomingBlock P I None = Fault AssertionFailure /\
  (forall V P', setIncomingValue P I V = Ok P' ->
                is_Some V /\ getIncomingValue P' I = Ok V) /\
  (forall BB P', setIncomingBlock P I BB = Ok P' ->
                 is_Some BB /\ getIncomingBlock P' I = Ok BB).
Proof.
  repeat split.
  - destruct V as [v|]; [by eexists | discriminate].
  - unfold setIncomingValue, setOperand in H.
    destruct V as [v|]; [|discriminate]. simpl in H.
    destruct (I <? getNumOperands P) eqn:HI; simpl in H; [|discriminate].
    destruct (N.to_nat I <? length (OperandList P))%nat eqn:HL; [|discriminate].
    injection H as <-. unfold getIncomingValue, getOperand, getNumOperands in *.
    simpl. rewrite HI. simpl.
    apply Nat.ltb_lt in HL. by rewrite list_lookup_insert_eq.
  - destruct BB as [b|]; [by eexists | discriminate].
  - unfold setIncomingBlock in H.
    destruct BB as [b|]; [|discriminate]. simpl in H.
    destruct (N.to_nat I <? length (BlockList P))%nat eqn:HL; [|discriminate].
    injection H as <-. unfold getIncomingBlock. simpl.
    apply Nat.ltb_lt in HL. by rewrite list_lookup_insert_eq.
Qed.

Lemma grow_bounds (n : N) : n < N.max (n + n / 2) 2 /\ n / 2 <= n.
Proof.
  assert (n / 2 <= n) as Hhalf by (apply N.Div0.div_le_upper_bound; lia).
  split; [|done].
  destruct (N.le_gt_cases 2 n) as [H2|H2]; [|lia].
  assert (1 <= n / 2) by (apply N.div_le_lower_bound; lia). lia.
Qed.

Ltac word_lia :=
  change (2 ^ UINT_WIDTH) with 4294967296 in *;
  change (2 ^ NumUserOperandsBits) with 268435456 in *;
  lia.

Lemma addIncoming_unfold (P : MemoryPhi) (v : addr) (bb : BasicBlock) :
  wf_phi P ->
  getNumOperands P + 1 < 2 ^ NumUserOperandsBits ->
  addIncoming P (Some v) (Some bb) =
  Ok {| phi_Block := phi_Block P; phi_ID := phi_ID P;
        ReservedSpace := (if getNumOperands P =? ReservedSpace P
                          then N.max (getNumOperands P + getNumOperands P / 2) 2
                          else ReservedSpace P);
        NumUserOperands := getNumOperands P + 1;
        OperandList := <[N.to_nat (getNumOperands P) := Some v]>
                         (slots_for_append P (OperandList P));
        BlockList := <[N.to_nat (getNumOperands P) := Some bb]>
                       (slots_for_append P (BlockList P)) |}.
Proof.
  intros (Hlen & Hblk & Hle & Hres & Hbits) Hn.
  unfold getNumOperands in *. set (n := NumUserOperands P) in *.
  destruct (grow_bounds n) as [Hgrow Hhalf].
  unfold addIncoming, slots_for_append, getNumOperands. fold n.
  destruct (n =? ReservedSpace P) eqn:Hfull.
  - apply N.eqb_eq in Hfull.
    unfold growOperands, growHungoffUses, getNumOperands. simpl. fold n.
    rewrite uadd_small by word_lia.
    rewrite (check_Ok (n <? _)) by (by apply N.ltb_lt). simpl.
    unfold setNumHungOffUseOperands. simpl. fold n.
    rewrite uadd_small by word_lia.
    rewrite check_Ok by (apply N.ltb_lt; word_lia). simpl.
    unfold setIncomingValue, setOperand, getNumOperands. simpl.
    rewrite usub_succ by word_lia.
    rewrite check_Ok by (apply N.ltb_lt; word_lia). simpl.
    assert (forall A (l : list (option A)), N.of_nat (length l) = n ->
              (N.to_nat n <? length (take (N.to_nat n) l ++
                 replicate (N.to_nat (N.max (n + n / 2) 2) - N.to_nat n)%nat None))%nat
              = true) as Hfit.
    { intros A l Hl. apply Nat.ltb_lt.
      rewrite length_app, length_take, length_replicate. word_lia. }
    rewrite Hfit by word_lia.
    unfold setIncomingBlock. simpl.
    rewrite usub_succ by word_lia.
    rewrite Hfit by word_lia. done.
  - apply N.eqb_neq in Hfull. simpl.
    unfold setNumHungOffUseOperands. simpl. fold n.
    rewrite uadd_small by word_lia.
    rewrite check_Ok by (apply N.ltb_lt; word_lia). simpl.
    unfold setIncomingValue, setOperand, getNumOperands. simpl.
    rewrite usub_succ by word_lia.
    rewrite check_Ok by (apply N.ltb_lt; word_lia). simpl.
    assert ((N.to_nat n <? length (OperandList P))%nat = true) as ->
        by (apply Nat.ltb_lt; word_lia).
    unfold setIncomingBlock. simpl.
    rewrite usub_succ by word_lia.
    assert ((N.to_nat n <? length (BlockList P))%nat = true) as ->
        by (apply Nat.ltb_lt; word_lia).
    done.
Qed.

Lemma slots_for_append_lookup {A} (P : MemoryPhi) (l : list (option A)) (i : nat) :
  (i < N.to_nat (getNumOperands P))%nat -> (N.to_nat (getNumOperands P) <= length l)%nat ->
  slots_for_append P l !! i = l !! i.
Proof.
  intros Hi Hl. unfold slots_for_append.
  destruct (_ =? _); [|done].
  rewrite lookup_app_l by (rewrite length_take; word_lia).
  by rewrite lookup_take_lt.
Qed.

Lemma slots_for_append_length {A} (P : MemoryPhi) (l : list (option A)) :
  N.of_nat (length l) = ReservedSpace P -> getNumOperands P <= ReservedSpace P ->
  (N.to_nat (getNumOperands P) < length (slots_for_append P l))%nat \/
  (getNumOperands P <> ReservedSpace P /\ slots_for_append P l = l).
Proof.
  intros Hl Hle. unfold slots_for_append.
  destruct (_ =? _) eqn:E.
  - left. rewrite length_app, length_take, length_replicate.
    apply N.eqb_eq in E. pose proof (grow_bounds (getNumOperands P)). word_lia.
  - right. apply N.eqb_neq in E. done.
Qed.

(** Appending a non-null value and block below the operand limit. *)
Lemma addIncoming_nonnull (P : MemoryPhi) (v : addr) (bb : BasicBlock) :
  wf_phi P ->
  getNumIncomingValues P + 1 < 2 ^ NumUserOperandsBits ->
  exists P',
    addIncoming P (Some v) (Some bb) = Ok P' /\
    getNumIncomingValues P' = getNumIncomingValues P + 1 /\
    getIncomingValue P' (getNumIncomingValues P) = Ok (Some v) /\
    getIncomingBlock P' (getNumIncomingValues P) = Ok (Some bb) /\
    (forall I, I < getNumIncomingValues P ->
               getIncomingValue P' I = getIncomingValue P I /\
               getIncomingBlock P' I = getIncomingBlock P I) /\
    wf_phi P'.
Proof.
  intros Hwf Hn. eexists. split; [by apply addIncoming_unfold|].
  destruct Hwf as (Hlen & Hblk & Hle & Hres & Hbits).
  unfold getNumIncomingValues, getNumOperands in *. set (n := NumUserOperands P) in *.
  destruct (grow_bounds n) as [Hgrow Hhalf].
  assert (N.of_nat (length (BlockList P)) = ReservedSpace P) as Hlen' by word_lia.
  pose proof (slots_for_append_length P (OperandList P) Hlen Hle) as Hops.
  pose proof (slots_for_append_length P (BlockList P) Hlen' Hle) as Hbls.
  unfold getNumOperands in Hops, Hbls. fold n in Hops, Hbls.
  assert (N.to_nat n < length (slots_for_append P (OperandList P)))%nat as Hfit1.
  { destruct Hops as [?|[? ->]]; word_lia. }
  assert (N.to_nat n < length (slots_for_append P (BlockList P)))%nat as Hfit2.
  { destruct Hbls as [?|[? ->]]; word_lia. }
  repeat split; simpl.
  - unfold getIncomingValue, getOperand, getNumOperands. simpl.
    rewrite check_Ok by (apply N.ltb_lt; word_lia). simpl.
    by rewrite list_lookup_insert_eq.
  - unfold getIncomingBlock. simpl. by rewrite list_lookup_insert_eq.
  - unfold getIncomingValue, getOperand, getNumOperands. simpl. fold n.
    rewrite !check_Ok by (apply N.ltb_lt; word_lia). simpl.
    rewrite list_lookup_insert_ne by word_lia.
    rewrite slots_for_append_lookup; [done | | ]; unfold getNumOperands; word_lia.
  - unfold getIncomingBlock. simpl.
    rewrite list_lookup_insert_ne by word_lia.
    rewrite slots_for_append_lookup; [done | | ]; unfold getNumOperands; word_lia.
  - rewrite length_insert. unfold slots_for_append, getNumOperands. fold n.
    destruct (n =? ReservedSpace P) eqn:E; [|done].
    apply N.eqb_eq in E.
    rewrite length_app, length_take, length_replicate. word_lia.
  - rewrite !length_insert. unfold slots_for_append, getNumOperands. fold n.
    destruct (n =? ReservedSpace P) eqn:E; [|word_lia].
    rewrite !length_app, !length_take, !length_replicate. word_lia.
  - destruct (n =? ReservedSpace P) eqn:E; [word_lia|].
    apply N.eqb_neq in E. word_lia.
  - destruct (n =? ReservedSpace P) eqn:E; [word_lia|done].
  - word_lia.
Qed.

(** A call of [addIncoming] that returns was given a non-null value and a
    non-null block, and the new operand count fits its bit-field. *)
Lemma addIncoming_Ok_inv (P P' : MemoryPhi) (V : ptr) (BB : option BasicBlock) :
  wf_phi P -> addIncoming P V BB = Ok P' ->
  is_Some V /\ is_Some BB /\ getNumIncomingValues P + 1 < 2 ^ NumUserOperandsBits.
Proof.
  intros (Hlen & Hblk & Hle & Hres & Hbits) H.
  unfold getNumIncomingValues, getNumOperands. unfold addIncoming in H.
  apply bind_Ok in H as (P1 & H1 & H).
  apply bind_Ok in H as (P2 & H2 & H).
  apply bind_Ok in H as (P3 & H3 & H).
  assert (NumUserOperands P1 = NumUserOperands P) as Hn1.
  { destruct (_ =? _); [|by injection H1 as <-].
    unfold growOperands, growHungoffUses in H1.
    apply bind_Ok in H1 as (_ & _ & H1). by injection H1 as <-. }
  unfold setNumHungOffUseOperands, getNumOperands in H2.
  apply bind_Ok in H2 as (u & Hc & _). apply check_Ok_inv in Hc.
  rewrite Hn1 in Hc. rewrite uadd_small in Hc by word_lia. apply N.ltb_lt in Hc.
  unfold setIncomingValue in H3. apply bind_Ok in H3 as (u3 & HV & _).
  apply check_Ok_inv, bool_decide_eq_true in HV.
  unfold setIncomingBlock in H. apply bind_Ok in H as (u4 & HB & _).
  apply check_Ok_inv, bool_decide_eq_true in HB.
  done.
Qed.

(** C9. A call [addIncoming(V, BB)] that returns on a phi with [n] incoming
    entries leaves a phi with [n + 1] entries, the last one being
    [(V, BB)]; the entries at the indices below [n] read as before, whether
    or not the operand array had to grow.  The call returns when [V] and
    [BB] are not null and the operand count stays below its limit. *)
Theorem addIncoming_appends (P : MemoryPhi) (V : ptr) (BB : option BasicBlock) :
  wf_phi P ->
  (forall P', addIncoming P V BB = Ok P' ->
     getNumIncomingValues P' = getNumIncomingValues P + 1 /\
     getIncomingValue P' (getNumIncomingValues P) = Ok V /\
     getIncomingBlock P' (getNumIncomingValues P) = Ok BB /\
     (forall I, I < getNumIncomingValues P ->
                getIncomingValue P' I = getIncomingValue P I /\
                getIncomingBlock P' I = getIncomingBlock P I) /\
     wf_phi P') /\
  (is_Some V -> is_Some BB ->
   getNumIncomingValues P + 1 < 2 ^ NumUserOperandsBits ->
   is_Ok (addIncoming P V BB)).
Proof.
  intros Hwf. split.
  - intros P' H.
    destruct (addIncoming_Ok_inv P P' V BB Hwf H) as ([v ->] & [bb ->] & Hn).
    destruct (addIncoming_nonnull P v bb Hwf Hn) as (P'' & H' & Hprops).
    rewrite H in H'. injection H' as <-. exact Hprops.
  - intros [v ->] [bb ->] Hn.
    destruct (addIncoming_nonnull P v bb Hwf Hn) as (P'' & H' & _).
    by exists P''.
Qed.

(** ** The defining-edge iterators *)

Lemma take_as_seq {A} (d : A) (l : list A) (n : nat) :
  (n <= length l)%nat ->
  (fun i => default d (l !! i)) <$> seq 0 n = take n l.
Proof.
  revert n. induction l as [|x l IH]; intros [|n] Hn; simpl in *; try done; try lia.
  f_equal. rewrite <- fmap_S_seq, <- list_fmap_compose. apply IH. lia.
Qed.

Lemma zip_take_as_seq {A B C} (g : A -> B -> C) (dA : A) (dB : B)
  (l1 : list A) (l2 : list B) (n : nat) :
  (n <= length l1)%nat -> (n <= length l2)%nat ->
  (fun i => g (default dA (l1 !! i)) (default dB (l2 !! i))) <$> seq 0 n
  = zip_with g (take n l1) (take n l2).
Proof.
  intros H1 H2. rewrite <- (take_as_seq dA l1 n H1), <- (take_as_seq dB l2 n H2).
  rewrite zip_with_fmap_l, zip_with_fmap_r, zip_with_diag. done.
Qed.

Lemma def_range_at_end {A} (obs : heap -> memoryaccess_def_iterator -> result A)
  (fuel : nat) (h : heap) : def_range obs fuel h defs_end defs_end = Ok [].
Proof. by destruct fuel. Qed.

(** Walking the operands [k], [k + 1], ... of a phi up to the last. *)
Lemma def_range_phi {A} (obs : heap -> memoryaccess_def_iterator -> result A)
  (f : nat -> A) (h : heap) (a : addr) (P : MemoryPhi) :
  h !! a = Some (MP P) ->
  getNumIncomingValues P < 2 ^ UINT_WIDTH ->
  (forall i, (i < N.to_nat (getNumIncomingValues P))%nat ->
             obs h {| Access := Some a; ArgNo := N.of_nat i |} = Ok (f i)) ->
  forall m k fuel,
    (k + S m = N.to_nat (getNumIncomingValues P))%nat -> (S m <= fuel)%nat ->
    def_range obs fuel h {| Access := Some a; ArgNo := N.of_nat k |} defs_end
    = Ok (f <$> seq k (S m)).
Proof.
  intros Ha Hn Hobs. induction m as [|m IH]; intros k fuel Hk Hfuel.
  - destruct fuel as [|fuel]; [lia|]. simpl.
    rewrite Hobs by lia. simpl.
    unfold def_iterator_next. simpl. rewrite Ha. simpl.
    rewrite uadd_small by word_lia.
    destruct (N.leb_spec (getNumIncomingValues P) (N.of_nat k + 1)); [|lia].
    simpl. by rewrite def_range_at_end.
  - destruct fuel as [|fuel]; [lia|]. cbn [def_range]. simpl def_iterator_eq. cbv iota.
    rewrite Hobs by lia. simpl.
    unfold def_iterator_next. simpl. rewrite Ha. simpl.
    rewrite uadd_small by word_lia.
    destruct (N.leb_spec (getNumIncomingValues P) (N.of_nat k + 1)); [lia|].
    simpl. replace (N.of_nat k + 1) with (N.of_nat (S k)) by lia.
    rewrite (IH (S k) fuel) by lia. done.
Qed.

Lemma phi_operand_in_use (P : MemoryPhi) (i : nat) :
  wf_phi P -> (i < N.to_nat (getNumIncomingValues P))%nat ->
  getIncomingValue P (N.of_nat i) = Ok (default None (OperandList P !! i)) /\
  getIncomingBlock P (N.of_nat i) = Ok (default None (BlockList P !! i)).
Proof.
  intros (Hlen & Hblk & Hle & Hres & Hbits) Hi.
  unfold getNumIncomingValues, getNumOperands in Hi.
  unfold getIncomingValue, getOperand, getIncomingBlock, getNumOperands.
  rewrite check_Ok by (apply N.ltb_lt; lia). simpl. rewrite Nat2N.id.
  destruct (lookup_lt_is_Some_2 (OperandList P) i) as [v ->]; [lia|].
  destruct (lookup_lt_is_Some_2 (BlockList P) i) as [b ->]; [lia|]. done.
Qed.

(** C2, as far as it holds.  From [defs_begin()] to [defs_end()] a
    [MemoryUse] or [MemoryDef] yields its defining access and nothing else;
    a [MemoryPhi] with at least one incoming value yields its
    [getNumIncomingValues()] incoming accesses in index order, with
    [getPhiArgBlock] giving the incoming block of the same index. *)
Theorem defs_enumerates (h : heap) (A : addr) :
  (forall a D, h !! A = Some a -> getDefiningAccess a = Ok D ->
     forall fuel, (1 <= fuel)%nat ->
       defs fuel h A = Ok [D]) /\
  (forall P, h !! A = Some (MP P) -> wf_phi P -> 0 < getNumIncomingValues P ->
     forall fuel, (N.to_nat (getNumIncomingValues P) <= fuel)%nat ->
       defs fuel h A = Ok (take (N.to_nat (getNumIncomingValues P)) (OperandList P)) /\
       defs_with_blocks fuel h A
       = Ok (zip (take (N.to_nat (getNumIncomingValues P)) (OperandList P))
                 (take (N.to_nat (getNumIncomingValues P)) (BlockList P)))).
Proof.
  split.
  - intros a D Ha HD [|fuel] Hfuel; [lia|].
    unfold defs. simpl. unfold def_iterator_get, def_iterator_next. simpl.
    rewrite Ha. simpl.
    destruct a as [u|d|P]; simpl in *; try discriminate;
      injection HD as <-; simpl; by rewrite def_range_at_end.
  - intros P Ha Hwf Hpos fuel Hfuel.
    pose proof Hwf as (Hlen & Hblk & Hle & Hres & Hbits).
    set (n := N.to_nat (getNumIncomingValues P)) in *.
    assert (exists m, n = S m) as [m Hm] by (exists (pred n); lia).
    assert (getNumIncomingValues P < 2 ^ UINT_WIDTH) as Hn
        by (unfold getNumIncomingValues, getNumOperands; lia).
    unfold getNumIncomingValues, getNumOperands in *.
    split.
    + unfold defs, defs_begin. change 0 with (N.of_nat 0).
      rewrite (def_range_phi def_iterator_get
                 (fun i => default None (OperandList P !! i)) h A P Ha Hn) with (m := m);
        [ | | unfold getNumIncomingValues, getNumOperands; lia | lia ].
      * rewrite <- Hm. f_equal. apply take_as_seq. lia.
      * intros i Hi. unfold def_iterator_get. simpl. rewrite Ha. simpl.
        by apply phi_operand_in_use.
    + unfold defs_with_blocks, defs_begin. change 0 with (N.of_nat 0).
      rewrite (def_range_phi _
                 (fun i => (default None (OperandList P !! i),
                            default None (BlockList P !! i))) h A P Ha Hn) with (m := m);
        [ | | unfold getNumIncomingValues, getNumOperands; lia | lia ].
      * rewrite <- Hm. f_equal. apply (zip_take_as_seq pair); lia.
      * intros i Hi. unfold def_iterator_get, getPhiArgBlock. simpl. rewrite Ha. simpl.
        destruct (phi_operand_in_use P i Hwf Hi) as [-> ->]. done.
Qed.

(** A phi without incoming values: [defs_begin()] differs from [defs_end()],
    and the first dereference asks for operand 0 of an empty operand list. *)
Lemma defs_empty_phi_counterexample :
  Samples.fresh_phi_heap !! 5%positive = Some (MP Samples.fresh_phi) /\
  wf_phi Samples.fresh_phi /\
  getNumIncomingValues Samples.fresh_phi = 0 /\
  defs 1 Samples.fresh_phi_heap 5%positive = Fault AssertionFailure /\
  forall fuel, defs fuel Samples.fresh_phi_heap 5%positive <> Ok [].
Proof.
  split; [reflexivity|]. split; [by vm_compute|].
  split; [reflexivity|]. split; [reflexivity|].
  intros [|fuel]; vm_compute; congruence.
Qed.

Section UpwardDefsProperties.

Variable PHITranslateValue :
  positive -> BasicBlock -> option BasicBlock -> bool * option positive.

Abbreviation fill := (fillInCurrentPair PHITranslateValue).
Abbreviation carried := (carried_location PHITranslateValue).
Abbreviation upward_at := (upward_at PHITranslateValue).

Lemma fillInCurrentPair_phi (h : heap) (a : addr) (P : MemoryPhi)
  (L : MemoryLocation) (CurBB : BasicBlock) (c : MemoryAccessPair) (i : nat) :
  h !! a = Some (MP P) -> wf_phi P ->
  (is_Some (Ptr L) -> phi_Block P = Some CurBB) ->
  (i < N.to_nat (getNumIncomingValues P))%nat ->
  fill h {| CurrentPair := c;
            DefIterator := {| Access := Some a; ArgNo := N.of_nat i |};
            Location := L; OriginalAccess := Some a; WalkingPhi := true |}
  = Ok (upward_at a P L CurBB i).
Proof.
  intros Ha Hwf Hblock Hi.
  destruct (phi_operand_in_use P i Hwf Hi) as [Hv Hb].
  unfold fillInCurrentPair, def_iterator_get, getPhiArgBlock, upward_at,
    carried_location. simpl.
  rewrite Ha. simpl. rewrite Hv. simpl.
  destruct (Ptr L) as [p|] eqn:HL; [|done].
  rewrite Hblock by by eexists. rewrite Hb. simpl.
  destruct (PHITranslateValue p CurBB _) as [[|] Addr]; simpl; [done|].
  destruct (decide (Addr = Some p)) as [->|Hne].
  - by rewrite bool_decide_eq_true_2.
  - by rewrite bool_decide_eq_false_2.
Qed.

Lemma upward_range_phi (h : heap) (a : addr) (P : MemoryPhi)
  (L : MemoryLocation) (CurBB : BasicBlock) :
  h !! a = Some (MP P) -> wf_phi P ->
  (is_Some (Ptr L) -> phi_Block P = Some CurBB) ->
  forall m k fuel,
    (k + S m = N.to_nat (getNumIncomingValues P))%nat -> (S m <= fuel)%nat ->
    upward_range PHITranslateValue fuel h (upward_at a P L CurBB k) upward_defs_end
    = Ok ((fun i => CurrentPair (upward_at a P L CurBB i)) <$> seq k (S m)).
Proof.
  intros Ha Hwf Hblock.
  pose proof Hwf as (Hlen & Hblk & Hle & Hres & Hbits).
  assert (getNumIncomingValues P < 2 ^ UINT_WIDTH) as Hn
      by (unfold getNumIncomingValues, getNumOperands; lia).
  induction m as [|m IH]; intros k fuel Hk Hfuel.
  - destruct fuel as [|fuel]; [lia|]. simpl.
    unfold upward_iterator_next, def_iterator_next. simpl. rewrite Ha. simpl.
    rewrite uadd_small by word_lia.
    destruct (N.leb_spec (getNumIncomingValues P) (N.of_nat k + 1)); [|lia].
    simpl. by destruct fuel.
  - destruct fuel as [|fuel]; [lia|]. cbn [upward_range].
    change (upward_iterator_eq (upward_at a P L CurBB k) upward_defs_end) with false.
    cbv iota. simpl.
    unfold upward_iterator_next, def_iterator_next. simpl. rewrite Ha. simpl.
    rewrite uadd_small by word_lia.
    destruct (N.leb_spec (getNumIncomingValues P) (N.of_nat k + 1)); [lia|].
    simpl. replace (N.of_nat k + 1) with (N.of_nat (S k)) by lia.
    rewrite (fillInCurrentPair_phi h a P L CurBB) by (done || lia). simpl.
    rewrite (IH (S k) fuel) by lia. done.
Qed.

Lemma upward_defs_single (h : heap) (A : addr) (L : MemoryLocation)
  (a : MemoryAccess) (D : ptr) :
  h !! A = Some a -> getDefiningAccess a = Ok D ->
  forall fuel, (1 <= fuel)%nat ->
    upward_defs PHITranslateValue fuel h (Some A, L) = Ok [(D, L)].
Proof.
  intros Ha HD [|fuel] Hfuel; [lia|].
  unfold upward_defs, upward_defs_begin, fillInCurrentPair, def_iterator_get.
  simpl. rewrite Ha. simpl.
  destruct a as [u|d|P]; simpl in *; try discriminate;
    injection HD as <-; simpl;
    unfold upward_iterator_next, def_iterator_next; simpl; rewrite Ha; simpl;
    by destruct fuel.
Qed.


End UpwardDefsProperties.

(** ** Removal *)

Lemma definingEdges_replaceUsesIn (X : addr) (D : ptr) (a : MemoryAccess) :
  Mutation.definingEdges (Mutation.replaceUsesIn X D a)
  = (fun V => if decide (V = Some X) then D else V) <$> Mutation.definingEdges a.
Proof.
  destruct a as [u|d|P]; simpl; try done.
  unfold getNumIncomingValues, getNumOperands. simpl. by rewrite fmap_take.
Qed.

(** C6. Removing an access [X] whose defining access is [D]: every defining
    edge of another access that pointed to [X] now points to [D] and the
    other edges are as before; [X] is in neither its block's access list nor
    the instruction-to-access map; the walker was told to invalidate [X]. *)
Theorem removeMemoryAccess_rewires (s : MemorySSA) (X : addr) (a : MemoryAccess) (D : ptr) :
  Accesses s !! X = Some a ->
  getDefiningAccess a = Ok D ->
  exists s',
    Mutation.removeMemoryAccess X s = Ok s' /\
    (forall U u, U <> X -> Accesses s !! U = Some u ->
       exists u', Accesses s' !! U = Some u' /\
         length (Mutation.definingEdges u') = length (Mutation.definingEdges u) /\
         forall i V, Mutation.definingEdges u !! i = Some V ->
           Mutation.definingEdges u' !! i = Some (if decide (V = Some X) then D else V)) /\
    (forall BB, getBlock a = Some BB ->
       forall l, getBlockAccesses s' BB = Some l -> X ∉ l) /\
    (forall v, ValueToMemoryAccess s' !! v <> Some X) /\
    Accesses s' !! X = None /\
    X ∈ Invalidated (Walker s').
Proof.
  intros HX HD. eexists. split.
  { unfold Mutation.removeMemoryAccess. simpl. rewrite HX. simpl.
    assert (Mutation.replacementFor X (Accesses s) a = Ok D) as ->; [|done].
    destruct a; simpl in *; done. }
  repeat split.
  - intros U u HU Hu. exists (Mutation.replaceUsesIn X D u). simpl.
    rewrite lookup_delete_ne by done.
    unfold Mutation.replaceAllUsesWith. rewrite lookup_fmap, Hu. simpl.
    split; [done|]. rewrite definingEdges_replaceUsesIn. split.
    + by rewrite length_fmap.
    + intros i V Hi. by rewrite list_lookup_fmap, Hi.
  - intros BB HBB l Hl. simpl in Hl.
    unfold getBlockAccesses, getWritableBlockAccesses in Hl. simpl in Hl.
    rewrite HBB in Hl. unfold getWritableBlockAccesses in Hl. simpl in Hl.
    destruct (PerBlockAccesses s !! BB) as [[l0|]|] eqn:Hl0; simpl in Hl.
    + rewrite lookup_insert_eq in Hl. injection Hl as <-.
      intros Hin. apply list_elem_of_In, filter_In in Hin.
      destruct Hin as [_ Hin]. apply bool_decide_eq_true in Hin. done.
    + by rewrite Hl0 in Hl.
    + by rewrite Hl0 in Hl.
  - intros v Hv. simpl in Hv. apply map_lookup_filter_Some in Hv.
    destruct Hv as [_ Hv]. done.
  - simpl. apply lookup_delete_eq.
  - simpl. left.
Qed.

(** ** The clobber walker *)

Section WalkerProperties.

Variable PHITranslateValue :
  positive -> BasicBlock -> option BasicBlock -> bool * option positive.
Variable AA : AliasAnalysis.

Abbreviation walk := (ClobberWalker.walk PHITranslateValue AA).

(** What the walk returns is a Def or a Phi of the analysis. *)
Lemma walk_returns_def_or_phi (s : MemorySSA) (fuel : nat) :
  forall L Cur r, walk fuel s L Cur = Ok r ->
    exists l a, r = Some l /\ Accesses s !! l = Some a /\
                (isa_MemoryDef a = true \/ isa_MemoryPhi a = true).
Proof.
  induction fuel as [|fuel IH]; intros L Cur r Hw; [discriminate|].
  simpl in Hw.
  destruct Cur as [l|]; simpl in Hw; [|discriminate].
  destruct (Accesses s !! l) as [a|] eqn:Hl; simpl in Hw; [|discriminate].
  assert (forall r', (upward_defs PHITranslateValue 1 (Accesses s) (Some l, L)
              ≫= fun Pairs => match Pairs with
                              | [(D, L')] => walk fuel s L' D
                              | _ => Fault Unreachable
                              end) = Ok r' ->
          exists l' a', r' = Some l' /\ Accesses s !! l' = Some a' /\
                        (isa_MemoryDef a' = true \/ isa_MemoryPhi a' = true)) as Habove.
  { intros r' H.
    destruct (upward_defs _ _ _ _) as [[|[D L'] [|]]|]; simpl in H; try discriminate.
    by apply IH in H. }
  destruct a as [u|d|P].
  - by apply Habove.
  - destruct (isLiveOnEntryDef s (Some l)).
    { injection Hw as <-. exists l, (MD d). simpl. auto. }
    destruct (def_MemoryInst d) as [MI|]; [|discriminate].
    destruct (mayAliasLocation AA MI L).
    { injection Hw as <-. exists l, (MD d). simpl. auto. }
    by apply Habove.
  - injection Hw as <-. exists l, (MP P). simpl. auto.
Qed.

(** On an ascending chain the walk ends within [rank] hops. *)
Lemma walk_terminates (s : MemorySSA) (rank : addr -> nat) :
  ClobberWalker.ascends s rank ->
  forall fuel L l, is_Some (Accesses s !! l) -> (rank l < fuel)%nat ->
    is_Ok (walk fuel s L (Some l)).
Proof.
  intros Hasc. induction fuel as [|fuel IH]; intros L l [a Hl] Hfuel; [lia|].
  simpl. rewrite Hl. simpl.
  pose proof (Hasc l a Hl) as Ha.
  destruct a as [u|d|P].
  - destruct Ha as (l' & Hop & Hin & Hlt).
    rewrite (upward_defs_single PHITranslateValue _ l L (MU u) (Some l'));
      [ | done | by simpl; rewrite Hop | lia ].
    simpl. apply IH; [done | lia].
  - destruct (isLiveOnEntryDef s (Some l)) eqn:Hloe; [by eexists|].
    destruct Ha as [Ha|([MI HMI] & l' & Hop & Hin & Hlt)].
    { apply bool_decide_eq_false in Hloe. done. }
    rewrite HMI. destruct (mayAliasLocation AA MI L); [by eexists|].
    rewrite (upward_defs_single PHITranslateValue _ l L (MD d) (Some l'));
      [ | done | by simpl; rewrite Hop | lia ].
    simpl. apply IH; [done | lia].
  - by eexists.
Qed.

(** C5. The clobber the walker returns for a [MemoryUse] is never a
    [MemoryUse]: it is a [MemoryDef] (LiveOnEntry among them) or a
    [MemoryPhi] of the analysis; and on an ascending chain the walker does
    return. *)
Theorem clobber_of_use_is_not_a_use (s : MemorySSA) (U : addr) (u : MemoryUse) :
  Accesses s !! U = Some (MU u) ->
  (forall fuel r,
     ClobberWalker.getClobberingMemoryAccess PHITranslateValue AA fuel s U = Ok r ->
     exists l a, r = Some l /\ Accesses s !! l = Some a /\
                 isa_MemoryUse a = false /\
                 (isa_MemoryDef a = true \/ isa_MemoryPhi a = true)) /\
  (forall rank, ClobberWalker.ascends s rank -> is_Some (use_MemoryInst u) ->
     forall fuel, (rank U <= fuel)%nat ->
       is_Ok (ClobberWalker.getClobberingMemoryAccess PHITranslateValue AA fuel s U)).
Proof.
  intros HU. split.
  - intros fuel r Hr. unfold ClobberWalker.getClobberingMemoryAccess in Hr.
    simpl in Hr. rewrite HU in Hr. simpl in Hr.
    destruct (use_MemoryInst u) as [MI|]; [|discriminate].
    destruct (upward_defs _ _ _ _) as [[|[D L'] [|]]|]; simpl in Hr; try discriminate.
    apply walk_returns_def_or_phi in Hr as (l & a & -> & Hl & Ha).
    exists l, a. repeat split; try done.
    destruct a; simpl in *; destruct Ha; done.
  - intros rank Hasc [MI HMI] fuel Hfuel.
    unfold ClobberWalker.getClobberingMemoryAccess. simpl. rewrite HU. simpl.
    rewrite HMI.
    destruct (Hasc U _ HU) as (l' & Hop & Hin & Hlt).
    rewrite (upward_defs_single PHITranslateValue _ U _ (MU u) (Some l'));
      [ | done | by simpl; rewrite Hop | lia ].
    simpl. apply (walk_terminates s rank Hasc); [done | lia].
Qed.

End WalkerProperties.

(** ** What the operations do to the identity of the accesses *)

#[local] Arguments deref : simpl never.

Lemma same_stamps_refl (h : heap) : same_stamps h h.
Proof. by intros l. Qed.

Lemma same_stamps_trans (h1 h2 h3 : heap) :
  same_stamps h1 h2 -> same_stamps h2 h3 -> same_stamps h1 h3.
Proof. intros H1 H2 l. by rewrite H2, H1. Qed.

Lemma same_stamps_insert (h : heap) (l : addr) (a a' : MemoryAccess) :
  h !! l = Some a -> stamp a' = stamp a -> same_stamps h (<[l := a']> h).
Proof.
  intros Hl Hs l'. destruct (decide (l' = l)) as [->|Hne].
  - by rewrite lookup_insert_eq, Hl; simpl; rewrite Hs.
  - by rewrite lookup_insert_ne.
Qed.

Lemma stamp_setDefiningAccess (a a' : MemoryAccess) (D : ptr) :
  MemoryUseOrDef_setDefiningAccess a D = Ok a' -> stamp a' = stamp a.
Proof. destruct a; simpl; intros [= <-]; done. Qed.

Lemma same_stamps_setDefiningAccess (h h' : heap) (U : addr) (D : ptr) (o : bool) :
  setDefiningAccess h U D o = Ok h' -> same_stamps h h'.
Proof.
  unfold setDefiningAccess. intros H.
  apply bind_Ok in H as (a & Ha & H). apply deref_Ok in Ha as (l & [= <-] & Hl).
  apply bind_Ok in H as (u & Hu & H). destruct a; simpl in Hu; try discriminate.
  injection Hu as ->.
  apply bind_Ok in H as (oid & _ & [= <-]).
  by apply same_stamps_insert with (MU u).
Qed.

Lemma same_stamps_renameAccesses (l : list addr) :
  forall V h h' Out, Builder.renameAccesses l V h = Ok (h', Out) -> same_stamps h h'.
Proof.
  induction l as [|x l IH]; intros V h h' Out H; simpl in H.
  - injection H as <- _. apply same_stamps_refl.
  - apply bind_Ok in H as (a & Ha & H). apply deref_Ok in Ha as (? & [= <-] & Hx).
    destruct a as [u|d|P].
    + apply bind_Ok in H as (a' & Ha' & H).
      eapply same_stamps_trans; [|by eapply IH].
      eapply same_stamps_insert; [done|]. by eapply stamp_setDefiningAccess.
    + apply bind_Ok in H as (a' & Ha' & H).
      eapply same_stamps_trans; [|by eapply IH].
      eapply same_stamps_insert; [done|]. by eapply stamp_setDefiningAccess.
    + by eapply IH.
Qed.

(** The phi mutators leave [ID] alone. *)
Lemma phi_ID_setOperand (P P' : MemoryPhi) (I : N) (V : ptr) :
  setOperand P I V = Ok P' -> phi_ID P' = phi_ID P.
Proof.
  unfold setOperand. intros H. apply bind_Ok in H as (_ & _ & H).
  destruct (_ <? _)%nat; [|discriminate]. by injection H as <-.
Qed.

Lemma phi_ID_setIncomingValue (P P' : MemoryPhi) (I : N) (V : ptr) :
  setIncomingValue P I V = Ok P' -> phi_ID P' = phi_ID P.
Proof.
  unfold setIncomingValue. intros H. apply bind_Ok in H as (_ & _ & H).
  by eapply phi_ID_setOperand.
Qed.

Lemma phi_ID_setIncomingBlock (P P' : MemoryPhi) (I : N) (BB : option BasicBlock) :
  setIncomingBlock P I BB = Ok P' -> phi_ID P' = phi_ID P.
Proof.
  unfold setIncomingBlock. intros H. apply bind_Ok in H as (_ & _ & H).
  destruct (_ <? _)%nat; [|discriminate]. by injection H as <-.
Qed.

Lemma phi_ID_growOperands (P P' : MemoryPhi) :
  growOperands P = Ok P' -> phi_ID P' = phi_ID P.
Proof.
  unfold growOperands, growHungoffUses. intros H.
  apply bind_Ok in H as (_ & _ & H). by injection H as <-.
Qed.

Lemma phi_ID_addIncoming (P P' : MemoryPhi) (V : ptr) (BB : option BasicBlock) :
  addIncoming P V BB = Ok P' -> phi_ID P' = phi_ID P.
Proof.
  unfold addIncoming. intros H.
  apply bind_Ok in H as (P1 & H1 & H).
  apply bind_Ok in H as (P2 & H2 & H).
  apply bind_Ok in H as (P3 & H3 & H).
  apply phi_ID_setIncomingBlock in H. apply phi_ID_setIncomingValue in H3.
  unfold setNumHungOffUseOperands in H2. apply bind_Ok in H2 as (_ & _ & H2).
  injection H2 as <-. simpl in *.
  assert (phi_ID P1 = phi_ID P) as <-; [|congruence].
  destruct (_ =? _); [by apply phi_ID_growOperands | by injection H1 as <-].
Qed.

Lemma same_stamps_fillSuccessorPhi (Pred : BasicBlock) (V : ptr) (h h' : heap) (Succ : ptr) :
  Builder.fillSuccessorPhi Pred V h Succ = Ok h' -> same_stamps h h'.
Proof.
  destruct Succ as [l|]; simpl; [|intros [= <-]; apply same_stamps_refl].
  intros H. apply bind_Ok in H as (a & Ha & H).
  apply deref_Ok in Ha as (? & [= <-] & Hl).
  destruct a as [| |P]; try discriminate.
  apply bind_Ok in H as (P' & HP' & H). injection H as <-.
  apply same_stamps_insert with (MP P); [done|].
  unfold stamp. simpl. by rewrite (phi_ID_addIncoming _ _ _ _ HP').
Qed.

Lemma same_stamps_fillSuccessorPhis (s : MemorySSA) (Pred : BasicBlock) (V : ptr)
  (Succs : list BasicBlock) :
  forall h h', Builder.fillSuccessorPhis s Pred V Succs h = Ok h' -> same_stamps h h'.
Proof.
  induction Succs as [|S_ Rest IH]; intros h h' H; simpl in H.
  - injection H as <-. apply same_stamps_refl.
  - apply bind_Ok in H as (h1 & H1 & H).
    eapply same_stamps_trans; [by eapply same_stamps_fillSuccessorPhi | by eapply IH].
Qed.

Lemma same_stamps_forceLiveOnEntry (LoE : ptr) (l : list addr) :
  forall h h', Builder.forceLiveOnEntry LoE l h = Ok h' -> same_stamps h h'.
Proof.
  induction l as [|x l IH]; intros h h' H; simpl in H.
  - injection H as <-. apply same_stamps_refl.
  - apply bind_Ok in H as (a & Ha & H). apply deref_Ok in Ha as (? & [= <-] & Hx).
    destruct a as [u|d|P]; [ | | by eapply IH ];
      apply bind_Ok in H as (a' & Ha' & H);
      (eapply same_stamps_trans; [|by eapply IH]);
      (eapply same_stamps_insert; [done|]); by eapply stamp_setDefiningAccess.
Qed.

Lemma same_stamps_optimizeUsesIn (fuel : nat) (AA : AliasAnalysis) (s : MemorySSA)
  (l : list addr) :
  forall h h', Builder.optimizeUsesIn fuel AA s l h = Ok h' -> same_stamps h h'.
Proof.
  induction l as [|U l IH]; intros h h' H; simpl in H.
  - injection H as <-. apply same_stamps_refl.
  - apply bind_Ok in H as (h1 & H1 & H).
    eapply same_stamps_trans; [|by eapply IH].
    unfold Builder.optimizeUse in H1.
    apply bind_Ok in H1 as (a & Ha & H1).
    destruct a as [u| |]; try (injection H1 as <-; apply same_stamps_refl).
    destruct (use_MemoryInst u); [|discriminate].
    apply bind_Ok in H1 as (c & _ & H1).
    by eapply same_stamps_setDefiningAccess.
Qed.

(** A change of the store alone that keeps the stamps is an [evolve] step. *)
Lemma evolve_with_Accesses (s : MemorySSA) (h' : heap) :
  same_stamps (Accesses s) h' -> evolve s (with_Accesses h' s).
Proof. intros H. by apply ev_same. Qed.

Lemma evolve_createMemoryPhi (F : Function) (BB : BasicBlock) (s s' : MemorySSA) (l : addr) :
  Builder.createMemoryPhi F BB s = Ok (l, s') -> evolve s s'.
Proof.
  unfold Builder.createMemoryPhi. intros H.
  apply bind_Ok in H as (_ & _ & H). simpl in H. injection H as <- <-.
  set (l := fresh (dom (Accesses s))).
  assert (Accesses s !! l = None) as Hfresh
      by (apply not_elem_of_dom; apply is_fresh).
  eapply (ev_phi _ _ l); simpl; try done.
  - apply lookup_insert_eq.
  - intros l' Hne. by rewrite lookup_insert_ne.
  - done.
  - intros I. by rewrite lookup_insert_ne.
  - intros Hok BB' o. unfold lists_ok in *. simpl.
    destruct (decide (BB' = BB)) as [->|Hne].
    + rewrite lookup_insert_eq. intros [= <-]. by eexists _, _.
    + rewrite lookup_insert_ne by done. apply Hok.
Qed.

Lemma evolve_placeInFrontier (F : Function) (Frontier : list BasicBlock) :
  forall s s' New, Builder.placeInFrontier F Frontier s = Ok (s', New) ->
                   rtc evolve s s'.
Proof.
  induction Frontier as [|BB Rest IH]; intros s s' New H; simpl in H.
  - injection H as <- _. done.
  - destruct (Builder.getMemoryAccess_block s BB); [by eapply IH|].
    apply bind_Ok in H as ([l s1] & H1 & H).
    apply bind_Ok in H as ([s2 New'] & H2 & H). injection H as <- _.
    eapply rtc_l; [by eapply evolve_createMemoryPhi | by eapply IH].
Qed.

Lemma evolve_placePHINodes (F : Function) (DT : DominatorTree) (fuel : nat) :
  forall Work s s', Builder.placePHINodes fuel F DT Work s = Ok s' -> rtc evolve s s'.
Proof.
  induction fuel as [|fuel IH]; intros [|BB Rest] s s' H; simpl in H;
    try discriminate; try (by injection H as <-).
  apply bind_Ok in H as ([s1 New] & H1 & H).
  etrans; [by eapply evolve_placeInFrontier | by eapply IH].
Qed.

Lemma evolve_renameBlock (BB : BasicBlock) (V : ptr) (s s' : MemorySSA) (Out : ptr) :
  Builder.renameBlock BB V s = Ok (s', Out) -> evolve s s'.
Proof.
  unfold Builder.renameBlock. intros H.
  apply bind_Ok in H as ([h Out'] & H1 & H). injection H as <- _.
  apply evolve_with_Accesses. by eapply same_stamps_renameAccesses.
Qed.

Lemma evolve_renamePass (F : Function) (Root : DomTreeNode) :
  forall V st st', Builder.renamePass F Root V st = Ok st' -> rtc evolve st.1 st'.1.
Proof.
  induction Root as [BB Children IH] using DomTreeNode_forall_ind.
  intros V st st' H. simpl in H.
  destruct (decide (BB ∈ st.2)); [by injection H as <-|].
  apply bind_Ok in H as ([s1 Out] & H1 & H).
  apply bind_Ok in H as (h2 & H2 & H).
  eapply rtc_l; [by eapply evolve_renameBlock|].
  eapply rtc_l;
    [apply (evolve_with_Accesses s1 h2); by eapply same_stamps_fillSuccessorPhis|].
  change (with_Accesses h2 s1) with (with_Accesses h2 s1, {[BB]} ∪ st.2).1.
  revert H. generalize (with_Accesses h2 s1, {[BB]} ∪ st.2).
  induction IH as [|c cs Hc _ IHcs]; intros st0 H.
  - by injection H as <-.
  - apply bind_Ok in H as (st1 & Hst1 & H).
    etrans; [by eapply Hc | by eapply IHcs].
Qed.

Lemma evolve_markUnreachable (F : Function) (Visited : gset BasicBlock)
  (Blocks : list BasicBlock) :
  forall s s', Builder.markUnreachable F Visited Blocks s = Ok s' -> rtc evolve s s'.
Proof.
  induction Blocks as [|BB Rest IH]; intros s s' H; simpl in H.
  - by injection H as <-.
  - destruct (decide (BB ∈ Visited)); [by eapply IH|].
    apply bind_Ok in H as (s1 & H1 & H).
    eapply rtc_l; [|by eapply IH].
    unfold Builder.markUnreachableAsLiveOnEntry in H1.
    apply bind_Ok in H1 as (h1 & Hh1 & H1).
    apply bind_Ok in H1 as (h2 & Hh2 & H1). injection H1 as <-.
    apply evolve_with_Accesses.
    eapply same_stamps_trans;
      [by eapply same_stamps_forceLiveOnEntry | by eapply same_stamps_fillSuccessorPhis].
Qed.

Lemma evolve_optimizeUses (fuel : nat) (AA : AliasAnalysis) (F : Function)
  (s s' : MemorySSA) :
  Builder.optimizeUses fuel AA F s = Ok s' -> evolve s s'.
Proof.
  unfold Builder.optimizeUses. intros H.
  apply bind_Ok in H as (h & Hh & H). injection H as <-.
  apply evolve_with_Accesses. by eapply same_stamps_optimizeUsesIn.
Qed.

(** The builder is the scan followed by [evolve] steps. *)
Lemma buildMemorySSA_evolves (fuel : nat) (ReservedID : N) (AA : AliasAnalysis)
  (DT : DominatorTree) (F : Function) (s : MemorySSA) :
  Builder.buildMemorySSA fuel ReservedID AA DT F = Ok s ->
  rtc evolve (Builder.scan AA F (Builder.MemorySSA_init ReservedID)) s.
Proof.
  unfold Builder.buildMemorySSA. intros H.
  apply bind_Ok in H as (s2 & H2 & H).
  apply bind_Ok in H as ([s3 Visited] & H3 & H).
  apply bind_Ok in H as (s4 & H4 & H).
  etrans; [by eapply evolve_placePHINodes|].
  etrans; [by apply (evolve_renamePass _ _ _ _ _ H3)|].
  etrans; [by eapply evolve_markUnreachable|].
  apply rtc_once. by eapply evolve_optimizeUses.
Qed.

(** ** Coverage of the instructions by the builder *)

Lemma view_evolve (s s' : MemorySSA) :
  evolve s s' ->
  (forall l, view s' l = view s l) /\
  (forall I, ValueToMemoryAccess s' !! VInstruction I
             = ValueToMemoryAccess s !! VInstruction I).
Proof.
  assert (forall (o o' : option MemoryAccess),
            stamp <$> o' = stamp <$> o -> o' ≫= instKind = o ≫= instKind) as Hst.
  { intros [a|] [a'|]; simpl; try discriminate; try done. by intros [= -> _]. }
  intros [Hs _ _ Hv _ | l P Hl Hl' Hs _ _ _ Hv _]; (split; [|done]); intros l';
    unfold view.
  - apply Hst, Hs.
  - destruct (decide (l' = l)) as [->|Hne]; [by rewrite Hl, Hl'|]. by apply Hst, Hs.
Qed.

Lemma covers_evolve (AA : AliasAnalysis) (done : list Instruction) (s s' : MemorySSA) :
  rtc evolve s s' -> covers AA s done -> covers AA s' done.
Proof.
  induction 1 as [|s s1 s' Hstep _ IH]; [done|]. intros Hc. apply IH.
  destruct (view_evolve _ _ Hstep) as [Hview Hmap].
  destruct Hc as (Ha & Hb & Hc). repeat split.
  - rewrite Hview in H. by apply Ha in H as (? & ? & ?).
  - rewrite Hview in H. rewrite Hmap. by apply Ha in H as (? & ? & ?).
  - rewrite Hview in H. by apply Ha in H as (? & ? & ?).
  - intros I HI Hk. destruct (Hb I HI Hk) as (l & k & H1 & H2).
    exists l, k. by rewrite Hmap, Hview.
  - intros I l H. rewrite Hmap in H. destruct (Hc I l H) as [k Hk].
    exists k. by rewrite Hview.
Qed.

Lemma covers_init (AA : AliasAnalysis) (ReservedID : N) :
  covers AA (Builder.MemorySSA_init ReservedID) [].
Proof.
  repeat split.
  - unfold view in H. simpl in H.
    destruct (decide (l = fresh (dom (∅ : heap)))) as [->|Hne].
    + rewrite lookup_insert_eq in H. discriminate.
    + rewrite lookup_insert_ne, lookup_empty in H by done. discriminate.
  - unfold view in H. simpl in H.
    destruct (decide (l = fresh (dom (∅ : heap)))) as [->|Hne].
    + rewrite lookup_insert_eq in H. discriminate.
    + rewrite lookup_insert_ne, lookup_empty in H by done. discriminate.
  - unfold view in H. simpl in H.
    destruct (decide (l = fresh (dom (∅ : heap)))) as [->|Hne].
    + rewrite lookup_insert_eq in H. discriminate.
    + rewrite lookup_insert_ne, lookup_empty in H by done. discriminate.
  - intros I HI. by apply elem_of_nil in HI.
  - intros I l H. simpl in H. by rewrite lookup_empty in H.
Qed.

(** What scanning one instruction does to the store and to the map. *)
Lemma scanInstruction_effect (AA : AliasAnalysis) (BB : BasicBlock) (s : MemorySSA)
  (I : Instruction) :
  match Builder.classify AA I with
  | Builder.Skip => Builder.scanInstruction AA BB s I = s
  | k =>
      exists a, instKind a = Some (match k with Builder.AsDef => true | _ => false end, I) /\
        Accesses (Builder.scanInstruction AA BB s I)
        = <[fresh (dom (Accesses s)) := a]> (Accesses s) /\
        ValueToMemoryAccess (Builder.scanInstruction AA BB s I)
        = <[VInstruction I := fresh (dom (Accesses s))]> (ValueToMemoryAccess s)
  end.
Proof.
  unfold Builder.scanInstruction, Builder.createNewAccess, Builder.createDefinedAccess.
  destruct (Builder.classify AA I); simpl; [done | |]; eexists; (split; [|done]); done.
Qed.

Lemma covers_scanInstruction (AA : AliasAnalysis) (BB : BasicBlock) (s : MemorySSA)
  (done : list Instruction) (I : Instruction) :
  covers AA s done -> I ∉ done ->
  covers AA (Builder.scanInstruction AA BB s I) (done ++ [I]).
Proof.
  intros (Ha & Hb & Hc) Hnew.
  pose proof (scanInstruction_effect AA BB s I) as Heff.
  destruct (Builder.classify AA I) eqn:Hk.
  - rewrite Heff. repeat split.
    + apply Ha in H as (? & _). apply elem_of_app. by left.
    + by apply Ha in H as (? & ? & ?).
    + by apply Ha in H as (? & ? & ?).
    + intros I' HI' Hk'. apply Hb; [|done].
      apply elem_of_app in HI' as [?|HI']; [done|].
      apply list_elem_of_singleton in HI' as ->. congruence.
    + done.
  - destruct Heff as (a & Hka & Hh & Hv).
    set (s' := Builder.scanInstruction AA BB s I) in *.
    set (l0 := fresh (dom (Accesses s))) in *.
    assert (Accesses s !! l0 = None) as Hfresh
        by (apply not_elem_of_dom; apply is_fresh).
    assert (forall l, view s' l = if decide (l = l0) then Some (false, I) else view s l)
      as Hview.
    { intros l. unfold view. rewrite Hh.
      destruct (decide (l = l0)) as [->|Hne].
      - rewrite lookup_insert_eq. simpl. by rewrite Hka.
      - by rewrite lookup_insert_ne. }
    assert (view s l0 = None) as Hv0 by (unfold view; by rewrite Hfresh).
    repeat split.
    + rewrite Hview in H. destruct (decide (l = l0)).
      * injection H as <- <-. apply elem_of_app. right. by apply list_elem_of_singleton.
      * apply Ha in H as (? & _). apply elem_of_app. by left.
    + rewrite Hview in H. rewrite Hv. destruct (decide (l = l0)) as [->|Hne].
      * injection H as <- <-. apply lookup_insert_eq.
      * apply Ha in H as (HI0 & Hm & _).
        rewrite lookup_insert_ne; [done|]. intros [= ->]. done.
    + rewrite Hview in H. destruct (decide (l = l0)).
      * injection H as <- <-. done.
      * by apply Ha in H as (? & ? & ?).
    + intros I' HI' Hk'. rewrite Hv.
      apply elem_of_app in HI' as [HI'|HI'].
      * destruct (Hb I' HI' Hk') as (l & k & Hm & Hl).
        exists l, k. rewrite lookup_insert_ne by (intros [= ->]; done).
        split; [done|]. rewrite Hview.
        destruct (decide (l = l0)) as [->|]; [congruence|done].
      * apply list_elem_of_singleton in HI' as ->.
        exists l0, false. rewrite lookup_insert_eq, Hview.
        by rewrite decide_True.
    + intros I' l Hm. rewrite Hv in Hm. rewrite Hview.
      destruct (decide (I' = I)) as [->|Hne].
      * rewrite lookup_insert_eq in Hm. injection Hm as <-.
        exists false. by rewrite decide_True.
      * rewrite lookup_insert_ne in Hm by congruence.
        destruct (Hc I' l Hm) as [k Hl]. exists k.
        destruct (decide (l = l0)) as [->|]; [congruence|done].
  - destruct Heff as (a & Hka & Hh & Hv).
    set (s' := Builder.scanInstruction AA BB s I) in *.
    set (l0 := fresh (dom (Accesses s))) in *.
    assert (Accesses s !! l0 = None) as Hfresh
        by (apply not_elem_of_dom; apply is_fresh).
    assert (forall l, view s' l = if decide (l = l0) then Some (true, I) else view s l)
      as Hview.
    { intros l. unfold view. rewrite Hh.
      destruct (decide (l = l0)) as [->|Hne].
      - rewrite lookup_insert_eq. simpl. by rewrite Hka.
      - by rewrite lookup_insert_ne. }
    assert (view s l0 = None) as Hv0 by (unfold view; by rewrite Hfresh).
    repeat split.
    + rewrite Hview in H. destruct (decide (l = l0)).
      * injection H as <- <-. apply elem_of_app. right. by apply list_elem_of_singleton.
      * apply Ha in H as (? & _). apply elem_of_app. by left.
    + rewrite Hview in H. rewrite Hv. destruct (decide (l = l0)) as [->|Hne].
      * injection H as <- <-. apply lookup_insert_eq.
      * apply Ha in H as (HI0 & Hm & _).
        rewrite lookup_insert_ne; [done|]. intros [= ->]. done.
    + rewrite Hview in H. destruct (decide (l = l0)).
      * injection H as <- <-. done.
      * by apply Ha in H as (? & ? & ?).
    + intros I' HI' Hk'. rewrite Hv.
      apply elem_of_app in HI' as [HI'|HI'].
      * destruct (Hb I' HI' Hk') as (l & k & Hm & Hl).
        exists l, k. rewrite lookup_insert_ne by (intros [= ->]; done).
        split; [done|]. rewrite Hview.
        destruct (decide (l = l0)) as [->|]; [congruence|done].
      * apply list_elem_of_singleton in HI' as ->.
        exists l0, true. rewrite lookup_insert_eq, Hview.
        by rewrite decide_True.
    + intros I' l Hm. rewrite Hv in Hm. rewrite Hview.
      destruct (decide (I' = I)) as [->|Hne].
      * rewrite lookup_insert_eq in Hm. injection Hm as <-.
        exists true. by rewrite decide_True.
      * rewrite lookup_insert_ne in Hm by congruence.
        destruct (Hc I' l Hm) as [k Hl]. exists k.
        destruct (decide (l = l0)) as [->|]; [congruence|done].
Qed.

Lemma covers_scanBlock (AA : AliasAnalysis) (BB : BasicBlock) (insts : list Instruction) :
  forall s done, covers AA s done -> NoDup (done ++ insts) ->
    covers AA (fold_left (Builder.scanInstruction AA BB) insts s) (done ++ insts).
Proof.
  induction insts as [|I insts IH]; intros s done Hc Hnd; simpl.
  - by rewrite app_nil_r.
  - replace (done ++ I :: insts) with ((done ++ [I]) ++ insts) in *
      by (by rewrite <- app_assoc).
    apply IH; [|done]. apply covers_scanInstruction; [done|].
    apply NoDup_app in Hnd as (Hnd & _ & _).
    apply NoDup_app in Hnd as (_ & Hnd & _).
    intros HI. apply (Hnd I HI). by apply list_elem_of_singleton.
Qed.

Lemma covers_scan (AA : AliasAnalysis) (F : Function) :
  forall s done, covers AA s done -> NoDup (done ++ instructions F) ->
    covers AA (Builder.scan AA F s) (done ++ instructions F).
Proof.
  unfold Builder.scan, instructions.
  induction F as [|B F IH]; intros s done Hc Hnd; simpl.
  - by rewrite app_nil_r.
  - simpl in Hnd. rewrite app_assoc in *.
    apply IH; [|done]. apply covers_scanBlock; [done|].
    by apply NoDup_app in Hnd as (Hnd & _ & _).
Qed.

Lemma represents_view (s : MemorySSA) (l : addr) (I : Instruction) :
  represents s l I <-> exists k, view s l = Some (k, I).
Proof.
  unfold represents, view. split.
  - intros (a & -> & Ha). destruct a as [u|d|P]; simpl in *; try discriminate;
      injection Ha as ->; by eexists.
  - intros (k & Hk). destruct (Accesses s !! l) as [a|]; [|discriminate].
    exists a. split; [done|]. simpl in Hk.
    destruct a as [u|d|P]; simpl in *; try discriminate.
    + destruct (use_MemoryInst u); simpl in Hk; [|discriminate]. by injection Hk as _ ->.
    + destruct (def_MemoryInst d); simpl in Hk; [|discriminate]. by injection Hk as _ ->.
Qed.

(** Read instruction by instruction, [covers] gives each instruction the
    accesses of its class. *)
Lemma covers_classified (AA : AliasAnalysis) (s : MemorySSA) (done : list Instruction)
  (I : Instruction) :
  covers AA s done -> I ∈ done ->
  match getModRefInfo AA I with
  | MRI_NoModRef =>
      Builder.getMemoryAccess s I = None /\ forall l, ~ represents s l I
  | MRI_Ref =>
      exists l u, Builder.getMemoryAccess s I = Some l /\
                  Accesses s !! l = Some (MU u) /\ use_MemoryInst u = Some I /\
                  forall l', represents s l' I -> l' = l
  | MRI_Mod | MRI_ModRef =>
      exists l d, Builder.getMemoryAccess s I = Some l /\
                  Accesses s !! l = Some (MD d) /\ def_MemoryInst d = Some I /\
                  forall l', represents s l' I -> l' = l
  end.
Proof.
  intros (Ha & Hb & Hc) HI.
  assert (forall l l', represents s l I -> represents s l' I -> l' = l) as Huniq.
  { intros l l' [k Hl]%represents_view [k' Hl']%represents_view.
    apply Ha in Hl as (_ & Hl & _). apply Ha in Hl' as (_ & Hl' & _). congruence. }
  assert (forall k, Builder.classify AA I = k -> k <> Builder.Skip ->
            exists l a, Builder.getMemoryAccess s I = Some l /\
                        Accesses s !! l = Some a /\
                        instKind a = Some (match k with Builder.AsDef => true
                                                   | _ => false end, I) /\
                        forall l', represents s l' I -> l' = l) as Hsome.
  { intros k Hk Hne. destruct (Hb I HI) as (l & k' & Hm & Hl); [congruence|].
    pose proof (Ha _ _ _ Hl) as (_ & _ & Hk').
    unfold view in Hl. destruct (Accesses s !! l) as [a|] eqn:Hal; [|discriminate].
    exists l, a. repeat split; try done.
    - simpl in Hl. rewrite Hl. rewrite Hk' in Hk. subst k. by destruct k'.
    - intros l' Hl'. apply (Huniq l l'); [|done].
      apply represents_view. exists k'. unfold view. by rewrite Hal. }
  unfold Builder.classify in *.
  destruct (getModRefInfo AA I) eqn:Hmri.
  - split.
    + unfold Builder.getMemoryAccess.
      destruct (ValueToMemoryAccess s !! VInstruction I) as [l|] eqn:Hm; [|done].
      destruct (Hc I l Hm) as [k Hl]. apply Ha in Hl as (_ & _ & Hk).
      rewrite Hmri in Hk. by destruct k.
    + intros l [k Hl]%represents_view. apply Ha in Hl as (_ & _ & Hk).
      rewrite Hmri in Hk. by destruct k.
  - destruct (Hsome _ eq_refl) as (l & a & Hm & Hl & Hk & Hu); [done|].
    destruct a as [u|d|P]; simpl in Hk; try discriminate.
    + exists l, u. repeat split; try done.
      destruct (use_MemoryInst u); simpl in Hk; [|discriminate]. by injection Hk as ->.
    + destruct (def_MemoryInst d); discriminate.
  - destruct (Hsome _ eq_refl) as (l & a & Hm & Hl & Hk & Hu); [done|].
    destruct a as [u|d|P]; simpl in Hk; try discriminate.
    + destruct (use_MemoryInst u); discriminate.
    + exists l, d. repeat split; try done.
      destruct (def_MemoryInst d); simpl in Hk; [|discriminate]. by injection Hk as ->.
  - destruct (Hsome _ eq_refl) as (l & a & Hm & Hl & Hk & Hu); [done|].
    destruct a as [u|d|P]; simpl in Hk; try discriminate.
    + destruct (use_MemoryInst u); discriminate.
    + exists l, d. repeat split; try done.
      destruct (def_MemoryInst d); simpl in Hk; [|discriminate]. by injection Hk as ->.
Qed.

(** ** Ids *)

Lemma getID_idOf (a : MemoryAccess) (i : N) : getID a = Ok i <-> idOf a = Some i.
Proof. destruct a; simpl; split; intros [= <-] || intros [=]; done. Qed.

Lemma stamp_lookup (o o' : option MemoryAccess) (a' : MemoryAccess) :
  stamp <$> o' = stamp <$> o -> o' = Some a' ->
  exists a, o = Some a /\ stamp a = stamp a'.
Proof.
  intros H ->. destruct o as [a|]; [|discriminate].
  exists a. split; [done|]. simpl in H. congruence.
Qed.

Lemma stamp_idOf (a a' : MemoryAccess) : stamp a = stamp a' -> idOf a = idOf a'.
Proof. by intros [= _ ->]. Qed.

Lemma stamp_getID (a a' : MemoryAccess) : stamp a = stamp a' -> getID a = getID a'.
Proof. destruct a, a'; simpl; intros [= ]; congruence. Qed.

Lemma effect_evolve (s s' : MemorySSA) : evolve s s' -> effect s s'.
Proof.
  intros [? ? ? _ _ | l P Hl Hl' Hs Hid Hn HL _ _]; [by apply eff_same|].
  apply (eff_alloc _ _ l (MP P)); try done.
  - simpl. intros i [= <-]. done.
  - lia.
Qed.

Lemma ids_ok_effect (s s' : MemorySSA) : effect s s' -> ids_ok s -> ids_ok s'.
Proof.
  intros Heff (Hpos & Hbound & Huniq). unfold ids_ok.
  destruct Heff as [Hs Hn HL | l a Hl Hl' Hs Hid Hn HL | l Hl' Hs Hn HL].
  - rewrite Hn, HL. split; [done|]. split.
    + intros l a i Ha Hloe Hi.
      destruct (stamp_lookup _ _ _ (Hs l) Ha) as (a0 & Ha0 & Hst).
      apply (Hbound l a0 i); try done. by rewrite (stamp_idOf _ _ Hst).
    + intros l1 l2 a1 a2 i H1 H2 Hl1 Hl2 Hi1 Hi2.
      destruct (stamp_lookup _ _ _ (Hs l1) H1) as (b1 & Hb1 & Hst1).
      destruct (stamp_lookup _ _ _ (Hs l2) H2) as (b2 & Hb2 & Hst2).
      apply (Huniq l1 l2 b1 b2 i); try done.
      * by rewrite (stamp_idOf _ _ Hst1).
      * by rewrite (stamp_idOf _ _ Hst2).
  - rewrite HL.
    assert (forall l' a' i, Accesses s' !! l' = Some a' -> Some l' <> LiveOnEntryDef s ->
              idOf a' = Some i ->
              (l' = l /\ i = NextID s /\ NextID s' = NextID s + 1) \/
              (l' <> l /\ 0 < i < NextID s)) as Hcase.
    { intros l' a' i Ha' Hloe Hi. destruct (decide (l' = l)) as [->|Hne].
      - left. rewrite Hl' in Ha'. injection Ha' as <-.
        destruct (Hid i Hi). done.
      - right. split; [done|].
        destruct (stamp_lookup _ _ _ (Hs l' Hne) Ha') as (a0 & Ha0 & Hst).
        apply (Hbound l' a0 i); try done. by rewrite (stamp_idOf _ _ Hst). }
    split; [lia|]. split.
    + intros l0 a0 i Ha0 Hloe Hi.
      destruct (Hcase _ _ _ Ha0 Hloe Hi) as [(_ & -> & ->)|(_ & ?)]; lia.
    + intros l1 l2 a1 a2 i H1 H2 Hl1 Hl2 Hi1 Hi2.
      destruct (Hcase _ _ _ H1 Hl1 Hi1) as [(-> & Hi & _)|(Hne1 & Hb1)];
        destruct (Hcase _ _ _ H2 Hl2 Hi2) as [(-> & Hi' & _)|(Hne2 & Hb2)];
        try done; try lia.
      destruct (stamp_lookup _ _ _ (Hs l1 Hne1) H1) as (b1 & Hb1' & Hst1).
      destruct (stamp_lookup _ _ _ (Hs l2 Hne2) H2) as (b2 & Hb2' & Hst2).
      apply (Huniq l1 l2 b1 b2 i); try done.
      * by rewrite (stamp_idOf _ _ Hst1).
      * by rewrite (stamp_idOf _ _ Hst2).
  - rewrite Hn, HL.
    assert (forall l' a', Accesses s' !! l' = Some a' ->
              exists a0, Accesses s !! l' = Some a0 /\ idOf a0 = idOf a') as Hold.
    { intros l' a' Ha'. destruct (decide (l' = l)) as [->|Hne]; [congruence|].
      destruct (stamp_lookup _ _ _ (Hs l' Hne) Ha') as (a0 & Ha0 & Hst).
      exists a0. split; [done|]. by apply stamp_idOf. }
    split; [done|]. split.
    + intros l0 a i Ha Hloe Hi. destruct (Hold _ _ Ha) as (a0 & Ha0 & Hid0).
      apply (Hbound l0 a0 i); try done. congruence.
    + intros l1 l2 a1 a2 i H1 H2 Hl1 Hl2 Hi1 Hi2.
      destruct (Hold _ _ H1) as (b1 & Hb1 & Hid1).
      destruct (Hold _ _ H2) as (b2 & Hb2 & Hid2).
      apply (Huniq l1 l2 b1 b2 i); try done; congruence.
Qed.

Lemma stable_effect (s s' : MemorySSA) (l : addr) (a a' : MemoryAccess) :
  effect s s' -> Accesses s !! l = Some a -> Accesses s' !! l = Some a' ->
  getID a' = getID a.
Proof.
  intros [Hs _ _ | l0 a0 Hl Hl' Hs _ _ _ | l0 Hl' Hs _ _] Ha Ha'.
  - destruct (stamp_lookup _ _ _ (Hs l) Ha') as (b & Hb & Hst).
    rewrite Ha in Hb. injection Hb as <-. symmetry. by apply stamp_getID.
  - destruct (decide (l = l0)) as [->|Hne]; [congruence|].
    destruct (stamp_lookup _ _ _ (Hs l Hne) Ha') as (b & Hb & Hst).
    rewrite Ha in Hb. injection Hb as <-. symmetry. by apply stamp_getID.
  - destruct (decide (l = l0)) as [->|Hne]; [congruence|].
    destruct (stamp_lookup _ _ _ (Hs l Hne) Ha') as (b & Hb & Hst).
    rewrite Ha in Hb. injection Hb as <-. symmetry. by apply stamp_getID.
Qed.

Lemma effect_ext (s s1 s2 : MemorySSA) :
  effect s s1 -> Accesses s2 = Accesses s1 -> NextID s2 = NextID s1 ->
  LiveOnEntryDef s2 = LiveOnEntryDef s1 -> effect s s2.
Proof.
  intros [Hs Hn HL | l a Hl Hl' Hs Hid Hn HL | l Hl' Hs Hn HL] Ha Hn2 HL2.
  - apply eff_same; congruence.
  - apply (eff_alloc _ _ l a); rewrite ?Ha, ?Hn2, ?HL2; done.
  - apply (eff_free _ _ l); rewrite ?Ha, ?Hn2, ?HL2; done.
Qed.

Lemma effect_createDefinedAccess (AA : AliasAnalysis) (I : Instruction)
  (BB : BasicBlock) (D : ptr) (s s1 : MemorySSA) (o : option addr) :
  Builder.createDefinedAccess AA I BB D s = (o, s1) -> effect s s1.
Proof.
  unfold Builder.createDefinedAccess.
  assert (Accesses s !! fresh (dom (Accesses s)) = None) as Hfresh
      by (apply not_elem_of_dom; apply is_fresh).
  destruct (Builder.classify AA I); simpl; intros [= <- <-].
  - apply eff_same; [apply same_stamps_refl | done | done].
  - eapply (eff_alloc _ _ (fresh (dom (Accesses s)))); simpl;
      [ exact Hfresh | apply lookup_insert_eq
      | intros l' Hne; by rewrite lookup_insert_ne
      | simpl; intros i [=] | lia | done ].
  - eapply (eff_alloc _ _ (fresh (dom (Accesses s)))); simpl;
      [ exact Hfresh | apply lookup_insert_eq
      | intros l' Hne; by rewrite lookup_insert_ne
      | simpl; by intros i [= <-] | lia | done ].
Qed.

Lemma effect_scanInstruction (AA : AliasAnalysis) (BB : BasicBlock) (s : MemorySSA)
  (I : Instruction) : effect s (Builder.scanInstruction AA BB s I).
Proof.
  unfold Builder.scanInstruction, Builder.createNewAccess.
  destruct (Builder.createDefinedAccess AA I BB None s) as [[l|] s1] eqn:E;
    apply effect_createDefinedAccess in E; [|done].
  by eapply effect_ext.
Qed.

Lemma effects_scan (AA : AliasAnalysis) (F : Function) :
  forall s, rtc effect s (Builder.scan AA F s).
Proof.
  unfold Builder.scan. induction F as [|B F IH]; intros s; simpl; [done|].
  etrans; [|apply IH]. unfold Builder.scanBlock.
  generalize (bb_instructions B). clear. intros insts. revert s.
  induction insts as [|I insts IH]; intros s; simpl; [done|].
  eapply rtc_l; [apply effect_scanInstruction | apply IH].
Qed.

Lemma stamp_replaceUsesIn (X : addr) (D : ptr) (a : MemoryAccess) :
  stamp (Mutation.replaceUsesIn X D a) = stamp a.
Proof. by destruct a. Qed.

Lemma effect_removeMemoryAccess (X : addr) (s s' : MemorySSA) :
  Mutation.removeMemoryAccess X s = Ok s' -> effect s s'.
Proof.
  unfold Mutation.removeMemoryAccess. intros H.
  apply bind_Ok in H as (a & Ha & H). apply bind_Ok in H as (D & _ & H).
  injection H as <-. apply (eff_free _ _ X); simpl; try done.
  - apply lookup_delete_eq.
  - intros l Hne. rewrite lookup_delete_ne by done.
    unfold Mutation.replaceAllUsesWith. rewrite lookup_fmap.
    destruct (Accesses s !! l) as [b|]; simpl; [|done].
    by rewrite stamp_replaceUsesIn.
Qed.

Lemma effect_update (s : MemorySSA) (l : addr) (a a' : MemoryAccess) :
  Accesses s !! l = Some a -> stamp a' = stamp a ->
  effect s (with_Accesses (<[l := a']> (Accesses s)) s).
Proof. intros Hl Hs. apply eff_same; try done. by eapply same_stamps_insert. Qed.

Lemma effect_step (s s' : MemorySSA) : step s s' -> effect s s'.
Proof.
  intros [AA I D BB Point l s1 H | After AA I D InsertPt l s1 H | F BB l s1 H
         | X s1 H | U D o h' H | l a a' D Hl H | U h' H
         | l P I V P' Hl H | l P I BB P' Hl H | l P V BB P' Hl H].
  - unfold Mutation.createMemoryAccessInBB in H.
    destruct (Builder.createDefinedAccess AA I BB D s) as [[l'|] s2] eqn:E;
      [|discriminate].
    injection H as _ <-. apply effect_createDefinedAccess in E.
    by eapply effect_ext.
  - unfold Mutation.createMemoryAccessNextTo in H.
    apply bind_Ok in H as (a & _ & H).
    destruct (getBlock a) as [BB|]; [|discriminate].
    destruct (Builder.createDefinedAccess AA I BB D s) as [[l'|] s2] eqn:E;
      [|discriminate].
    destruct (Mutation.spliceAt _ _ _ _); [|discriminate].
    injection H as _ <-. apply effect_createDefinedAccess in E.
    by eapply effect_ext.
  - apply effect_evolve. by eapply evolve_createMemoryPhi.
  - by eapply effect_removeMemoryAccess.
  - apply eff_same; try done. by eapply same_stamps_setDefiningAccess.
  - eapply effect_update; [done|]. by eapply stamp_setDefiningAccess.
  - apply eff_same; try done. simpl.
    unfold resetOptimized in H.
    apply bind_Ok in H as (a & Ha & H). apply deref_Ok in Ha as (l & [= <-] & Hl).
    apply bind_Ok in H as (u & Hu & H). destruct a; try discriminate.
    injection Hu as ->. injection H as <-.
    by apply same_stamps_insert with (MU u).
  - eapply effect_update; [done|]. unfold stamp. simpl.
    by rewrite (phi_ID_setIncomingValue _ _ _ _ H).
  - eapply effect_update; [done|]. unfold stamp. simpl.
    by rewrite (phi_ID_setIncomingBlock _ _ _ _ H).
  - eapply effect_update; [done|]. unfold stamp. simpl.
    by rewrite (phi_ID_addIncoming _ _ _ _ H).
Qed.

Lemma ids_ok_init (ReservedID : N) : ids_ok (Builder.MemorySSA_init ReservedID).
Proof.
  unfold ids_ok. simpl. split; [done|].
  assert (forall l a, (<[fresh (dom (∅ : heap)) := Builder.LiveOnEntry ReservedID]> ∅
                       : heap) !! l
                      = Some a ->
                      Some l <> Some (fresh (dom (∅ : heap))) -> False) as Hnone.
  { intros l a Hl Hne. destruct (decide (l = fresh (dom (∅ : heap)))) as [->|Hn]; [done|].
    by rewrite lookup_insert_ne, lookup_empty in Hl. }
  split.
  - intros l a i Hl Hne. by destruct (Hnone l a).
  - intros l1 l2 a1 a2 i Hl Hl2 Hne. by destruct (Hnone l1 a1).
Qed.

Lemma ids_ok_effects (s s' : MemorySSA) : rtc effect s s' -> ids_ok s -> ids_ok s'.
Proof. induction 1; [done|]. intros. eauto using ids_ok_effect. Qed.

Lemma ids_ok_reachable (s : MemorySSA) : reachable s -> ids_ok s.
Proof.
  induction 1 as [ID|fuel ID AA DT F s Hbuild|s s' _ IH Hstep].
  - apply ids_ok_init.
  - apply buildMemorySSA_evolves in Hbuild.
    assert (rtc effect (Builder.scan AA F (Builder.MemorySSA_init ID)) s) as Hrest.
    { clear -Hbuild. induction Hbuild; [done|].
      eapply rtc_l; [by apply effect_evolve | done]. }
    eapply ids_ok_effects; [exact Hrest|].
    eapply ids_ok_effects; [apply effects_scan | apply ids_ok_init].
  - eapply ids_ok_effect; [by apply effect_step | done].
Qed.


(** ** The builder returns *)

(** *** Chains of defining accesses *)

Lemma wfchain_mono (loe : ptr) (h : heap) (n m : nat) (W : ptr) :
  (n <= m)%nat -> wfchain n loe h W -> wfchain m loe h W.
Proof.
  revert m W. induction n as [|n IH]; intros [|m] W Hle; simpl; try done; try lia.
  destruct W as [c|]; [|done]. destruct (h !! c) as [[u|d|P]|]; try done.
  intros [?|[? ?]]; [by left|right]. split; [done|]. apply IH; [lia|done].
Qed.

(** A change of the store keeps the chains when it keeps the phis phis and
    changes only Defs that no chain passes: those without a defining
    access. *)
Lemma wfchain_stable (loe : ptr) (h h' : heap) :
  (forall c a, h !! c = Some a ->
     match a with
     | MP _ => exists P', h' !! c = Some (MP P')
     | MD d => h' !! c = Some (MD d) \/ (def_Operand d = None /\ Some c <> loe)
     | MU _ => True
     end) ->
  forall n W, wfchain n loe h W -> wfchain n loe h' W.
Proof.
  intros Hkeep. induction n as [|n IH]; intros W; simpl; [done|].
  destruct W as [c|]; [|done].
  destruct (h !! c) as [[u|d|P]|] eqn:Hc; try done.
  - destruct (Hkeep c _ Hc) as [Hsame|[Hnone Hne]].
    + rewrite Hsame. intros [?|[? ?]]; [by left|right]. split; [done|]. by apply IH.
    + intros [?|[_ Hch]]; [done|]. rewrite Hnone in Hch. by destruct n.
  - destruct (Hkeep c _ Hc) as [P' ->]. done.
Qed.

Lemma wfchain_is_Some (n : nat) (loe : ptr) (h : heap) (W : ptr) :
  wfchain n loe h W -> exists c a, W = Some c /\ h !! c = Some a /\ isa_MemoryUse a = false.
Proof.
  destruct n; simpl; [done|]. destruct W as [c|]; [|done].
  destruct (h !! c) as [[u|d|P]|] eqn:Hc; try done; intros _; by eexists c, _.
Qed.

(** *** Allocation, the scan and the phi placement *)

Lemma accessList_lookup (s : MemorySSA) (BB : BasicBlock) (x : addr) :
  x ∈ Builder.accessList s BB -> is_Some (PerBlockAccesses s !! BB).
Proof.
  unfold Builder.accessList, getWritableBlockAccesses.
  destruct (PerBlockAccesses s !! BB) as [o|]; [by eexists|]. simpl.
  by intros ?%elem_of_nil.
Qed.

Lemma accessList_insert (s s' : MemorySSA) (BB BB' : BasicBlock) (l : list addr) :
  PerBlockAccesses s' = <[BB := Some l]> (PerBlockAccesses s) ->
  Builder.accessList s' BB' = if decide (BB' = BB) then l else Builder.accessList s BB'.
Proof.
  intros H. unfold Builder.accessList, getWritableBlockAccesses. rewrite H.
  destruct (decide (BB' = BB)) as [->|Hne].
  - by rewrite lookup_insert_eq.
  - by rewrite lookup_insert_ne.
Qed.

(** A new object at a fresh address, put into the list of its block. *)
Lemma blocks_ok_alloc (s s' : MemorySSA) (a : MemoryAccess) (BB : BasicBlock)
  (New : list addr) :
  let l := fresh (dom (Accesses s)) in
  blocks_ok s -> getBlock a = Some BB ->
  New ≡ₚ (l :: Builder.accessList s BB) ->
  Accesses s' = <[l := a]> (Accesses s) ->
  PerBlockAccesses s' = <[BB := Some New]> (PerBlockAccesses s) ->
  blocks_ok s'.
Proof.
  intros l (Hlists & Hnd & Hlisted & Hcomplete) Hblock HNew Hh Hp.
  assert (Accesses s !! l = None) as Hfresh by (apply not_elem_of_dom, is_fresh).
  assert (forall BB', l ∉ Builder.accessList s BB') as Hnotin.
  { intros BB' Hin. apply Hlisted in Hin as (? & Hin & _). congruence. }
  assert (forall BB', Builder.accessList s' BB'
                      = if decide (BB' = BB) then New else Builder.accessList s BB')
    as Hlist by (intros BB'; by apply accessList_insert).
  split; [|split; [|split]].
  - intros BB' o. rewrite Hp. destruct (decide (BB' = BB)) as [->|Hne].
    + rewrite lookup_insert_eq. intros [= <-].
      destruct New as [|x New]; [|by eexists _, _].
      by apply Permutation_nil_cons in HNew.
    + rewrite lookup_insert_ne by done. apply Hlists.
  - intros BB'. rewrite Hlist. destruct (decide (BB' = BB)) as [->|Hne]; [|apply Hnd].
    rewrite HNew. apply NoDup_cons. split; [apply Hnotin | apply Hnd].
  - intros BB' x. rewrite Hlist, Hh. destruct (decide (BB' = BB)) as [->|Hne].
    + rewrite HNew. intros [->|Hin]%elem_of_cons.
      * exists a. by rewrite lookup_insert_eq.
      * destruct (Hlisted _ _ Hin) as (a' & Ha' & Hb'). exists a'.
        rewrite lookup_insert_ne by congruence. done.
    + intros Hin. destruct (Hlisted _ _ Hin) as (a' & Ha' & Hb'). exists a'.
      rewrite lookup_insert_ne by congruence. done.
  - intros x a' BB'. rewrite Hh, Hlist. destruct (decide (x = l)) as [->|Hne].
    + rewrite lookup_insert_eq. intros [= <-] Hb. rewrite Hblock in Hb.
      injection Hb as <-. rewrite decide_True by done. rewrite HNew. by left.
    + rewrite lookup_insert_ne by done. intros Ha' Hb'.
      pose proof (Hcomplete _ _ _ Ha' Hb') as Hin.
      destruct (decide (BB' = BB)) as [->|?]; [|done]. rewrite HNew. by right.
Qed.

(** The same for the state of the builder. *)
Lemma build_inv_alloc (F : Function) (R : gset addr) (c : N) (k : nat)
  (s s' : MemorySSA) (a : MemoryAccess) (BB : BasicBlock) (New : list addr) :
  let l := fresh (dom (Accesses s)) in
  build_inv F R c k s -> l ∉ R ->
  BB ∈ (bb_name <$> F) -> getBlock a = Some BB ->
  (isa_MemoryUseOrDef a = true -> is_Some (instOf a) /\ operandOf a = None) ->
  (forall P, a = MP P -> wf_phi P /\ getNumIncomingValues P <= c) ->
  New ≡ₚ (l :: Builder.accessList s BB) ->
  Accesses s' = <[l := a]> (Accesses s) ->
  PerBlockAccesses s' = <[BB := Some New]> (PerBlockAccesses s) ->
  LiveOnEntryDef s' = LiveOnEntryDef s ->
  (forall BB' l', Builder.getMemoryAccess_block s' BB' = Some l' ->
     (l' = l /\ isa_MemoryPhi a = true) \/ Builder.getMemoryAccess_block s BB' = Some l') ->
  build_inv F R c k s'.
Proof.
  intros l [Hblocks Hloe Hnames Hphimap Hphis Hud]
    HR HBB Hblock Hnew Hphi HNew Hh Hp Hl Hm.
  assert (Accesses s !! l = None) as Hfresh by (apply not_elem_of_dom, is_fresh).
  split.
  - by apply (blocks_ok_alloc s s' a BB New).
  - destruct Hloe as (loe & d & Hloe & Hd & Hb). exists loe, d.
    rewrite Hl, Hh. split; [done|]. split; [|done].
    rewrite lookup_insert_ne by congruence. done.
  - intros BB'. rewrite Hp. destruct (decide (BB' = BB)) as [->|Hne]; [done|].
    rewrite lookup_insert_ne by done. apply Hnames.
  - intros BB' l' Hl'. rewrite Hh. destruct (Hm _ _ Hl') as [[-> Ha]|Hold].
    + rewrite lookup_insert_eq. destruct a; try discriminate. by eexists.
    + destruct (Hphimap _ _ Hold) as [P HP]. exists P.
      rewrite lookup_insert_ne by congruence. done.
  - intros l' P. rewrite Hh. destruct (decide (l' = l)) as [->|Hne].
    + rewrite lookup_insert_eq. intros [= ->]. by apply Hphi.
    + rewrite lookup_insert_ne by done. apply Hphis.
  - rewrite Hh, Hl.
    assert (forall n W, wfchain n (LiveOnEntryDef s) (Accesses s) W ->
                        wfchain n (LiveOnEntryDef s) (<[l := a]> (Accesses s)) W) as Hchain.
    { apply wfchain_stable. intros x a' Ha'.
      rewrite lookup_insert_ne by congruence. destruct a'; eauto. }
    intros x a'. destruct (decide (x = l)) as [->|Hne].
    + rewrite lookup_insert_eq. intros [= <-] Hk _.
      destruct (Hnew Hk) as (Hi & Ho). exists BB.
      split; [done|]. split; [done|]. by rewrite decide_False.
    + rewrite lookup_insert_ne by done. intros Ha' Hk Hx.
      destruct (Hud _ _ Ha' Hk Hx) as (BB' & Hb' & Hi' & Hop). exists BB'.
      split; [done|]. split; [done|].
      destruct (decide (x ∈ R)); [|done]. by apply Hchain.
Qed.

Lemma build_inv_init (F : Function) (c : N) (k : nat) (ReservedID : N) :
  build_inv F ∅ c k (Builder.MemorySSA_init ReservedID).
Proof.
  split; simpl.
  - split; [|split; [|split]].
    + intros BB o. simpl. by rewrite lookup_empty.
    + intros BB. unfold Builder.accessList, getWritableBlockAccesses. simpl.
      rewrite lookup_empty. constructor.
    + intros BB x. unfold Builder.accessList, getWritableBlockAccesses. simpl.
      rewrite lookup_empty. by intros ?%elem_of_nil.
    + intros x a BB. simpl. intros [[<- <-] | [_ Ha]]%lookup_insert_Some; [done|].
      by rewrite lookup_empty in Ha.
  - eexists _, _. split; [done|]. split; [apply lookup_insert_eq|done].
  - intros BB [? H]. by rewrite lookup_empty in H.
  - intros BB l. unfold Builder.getMemoryAccess_block. simpl. by rewrite lookup_empty.
  - intros l P [[_ Ha] | [_ Ha]]%lookup_insert_Some; [done|].
    by rewrite lookup_empty in Ha.
  - intros x a [[<- <-] | [_ Ha]]%lookup_insert_Some; [done|].
    by rewrite lookup_empty in Ha.
Qed.

Lemma build_inv_scanInstruction (F : Function) (c : N) (k : nat) (AA : AliasAnalysis)
  (BB : BasicBlock) (s : MemorySSA) (I : Instruction) :
  BB ∈ (bb_name <$> F) -> build_inv F ∅ c k s ->
  build_inv F ∅ c k (Builder.scanInstruction AA BB s I).
Proof.
  intros HBB Hinv.
  unfold Builder.scanInstruction, Builder.createNewAccess, Builder.createDefinedAccess.
  destruct (Builder.classify AA I); simpl; [done| |].
  - refine (build_inv_alloc F ∅ c k s _ (MU _) BB
              (Builder.accessList s BB ++ [fresh (dom (Accesses s))])
              Hinv _ HBB _ _ _ _ _ _ _ _); simpl; try done.
    + reflexivity.
    + intros _. split; [by eexists|done].
    + by symmetry; apply Permutation_cons_append.
    + intros BB' l'. unfold Builder.getMemoryAccess_block. simpl.
      rewrite lookup_insert_ne by done. by right.
  - refine (build_inv_alloc F ∅ c k s _ (MD _) BB
              (Builder.accessList s BB ++ [fresh (dom (Accesses s))])
              Hinv _ HBB _ _ _ _ _ _ _ _); simpl; try done.
    + reflexivity.
    + intros _. split; [by eexists|done].
    + by symmetry; apply Permutation_cons_append.
    + intros BB' l'. unfold Builder.getMemoryAccess_block. simpl.
      rewrite lookup_insert_ne by done. by right.
Qed.

Lemma build_inv_scan (F : Function) (c : N) (k : nat) (AA : AliasAnalysis)
  (ReservedID : N) :
  build_inv F ∅ c k (Builder.scan AA F (Builder.MemorySSA_init ReservedID)).
Proof.
  assert (forall F' s, (forall B, B ∈ F' -> bb_name B ∈ (bb_name <$> F)) ->
            build_inv F ∅ c k s -> build_inv F ∅ c k (Builder.scan AA F' s)) as Hscan.
  { unfold Builder.scan. induction F' as [|B F' IH]; intros s HF Hinv; simpl; [done|].
    apply IH; [intros B' HB'; apply HF; by right|].
    unfold Builder.scanBlock.
    assert (bb_name B ∈ (bb_name <$> F)) as HB by (apply HF; by left).
    revert s Hinv. induction (bb_instructions B) as [|I insts IHi]; intros s Hinv; simpl;
      [done|].
    apply IHi. by apply build_inv_scanInstruction. }
  apply Hscan; [|apply build_inv_init].
  intros B HB. by apply list_elem_of_fmap_2.
Qed.

(** [createMemoryPhi] on a block of the function that has no phi. *)
Lemma build_inv_createMemoryPhi (F : Function) (c : N) (k : nat) (BB : BasicBlock)
  (s : MemorySSA) :
  BB ∈ (bb_name <$> F) -> N.of_nat (length F) < 2 ^ UINT_WIDTH ->
  Builder.getMemoryAccess_block s BB = None ->
  build_inv F ∅ c k s ->
  exists l s', Builder.createMemoryPhi F BB s = Ok (l, s') /\ build_inv F ∅ c k s' /\
    (forall BB', Builder.getMemoryAccess_block s' BB'
                 = if decide (BB' = BB) then Some l
                   else Builder.getMemoryAccess_block s BB').
Proof.
  intros HBB HF Hnone Hinv. unfold Builder.createMemoryPhi.
  rewrite Hnone. simpl. eexists _, _. split; [done|]. split.
  - refine (build_inv_alloc F ∅ c k s _ (MP _) BB
              (fresh (dom (Accesses s)) :: Builder.accessList s BB)
              Hinv _ HBB _ _ _ _ _ _ _ _); simpl; try done.
    + reflexivity.
    + intros P [= <-]. split; [|unfold getNumIncomingValues; simpl; lia].
      unfold wf_phi. simpl. rewrite !length_replicate.
      assert (length (predecessors F BB) <= length F)%nat.
      { unfold predecessors. rewrite length_fmap. apply List.filter_length_le. }
      word_lia.
    + intros BB' l'. unfold Builder.getMemoryAccess_block. simpl.
      destruct (decide (BB' = BB)) as [->|Hne].
      * rewrite lookup_insert_eq. intros [= <-]. by left.
      * rewrite lookup_insert_ne by congruence. by right.
  - intros BB'. unfold Builder.getMemoryAccess_block. simpl.
    destruct (decide (BB' = BB)) as [->|Hne].
    + by rewrite lookup_insert_eq.
    + by rewrite lookup_insert_ne by congruence.
Qed.

Lemma filter_length_drop {A} (P Q : A -> bool) (l : list A) (x : A) :
  NoDup l -> x ∈ l -> P x = true -> Q x = false ->
  (forall y, y <> x -> Q y = P y) ->
  S (length (List.filter Q l)) = length (List.filter P l).
Proof.
  intros Hnd Hin HP HQ Hsame. induction Hnd as [|y l Hy Hnd IH]; [by apply elem_of_nil in Hin|].
  simpl. apply elem_of_cons in Hin as [<-|Hin].
  - rewrite HP, HQ. simpl. f_equal. f_equal.
    apply List.filter_ext_in. intros y Hy'%list_elem_of_In. apply Hsame. by intros ->.
  - rewrite (Hsame y) by (by intros ->). destruct (P y); simpl; [f_equal|]; by apply IH.
Qed.

Section Placement.

Variables (F : Function) (DT : DominatorTree) (c : N) (k : nat).
Hypothesis Hnames : NoDup (bb_name <$> F).
Hypothesis Hsize : N.of_nat (length F) < 2 ^ UINT_WIDTH.
Hypothesis Hfrontier : forall BB BB', BB' ∈ frontier DT BB -> BB' ∈ (bb_name <$> F).

Lemma placeInFrontier_total (Frontier : list BasicBlock) (s : MemorySSA) :
  (forall BB, BB ∈ Frontier -> BB ∈ (bb_name <$> F)) ->
  build_inv F ∅ c k s ->
  exists s' New, Builder.placeInFrontier F Frontier s = Ok (s', New) /\
    build_inv F ∅ c k s' /\
    (length New + blocks_without_phi F s' <= blocks_without_phi F s)%nat.
Proof.
  revert s. induction Frontier as [|BB Rest IH]; intros s Hin Hinv; simpl.
  - exists s, []. split; [done|]. split; [done|]. simpl. lia.
  - assert (forall BB', BB' ∈ Rest -> BB' ∈ (bb_name <$> F)) as Hrest
      by (intros BB' ?; apply Hin; by right).
    destruct (Builder.getMemoryAccess_block s BB) as [phi|] eqn:Hphi; [by apply IH|].
    destruct (build_inv_createMemoryPhi F c k BB s) as (l & s1 & -> & Hinv1 & Hmap);
      [apply Hin; by left|done..|].
    simpl. destruct (IH s1 Hrest Hinv1) as (s2 & New & -> & Hinv2 & Hle).
    simpl. exists s2, (BB :: New). split; [done|]. split; [done|].
    assert (S (blocks_without_phi F s1) = blocks_without_phi F s) as <-.
    { unfold blocks_without_phi. apply (filter_length_drop _ _ _ BB); [done|..].
      - apply Hin. by left.
      - by apply bool_decide_eq_true.
      - apply bool_decide_eq_false. rewrite Hmap, decide_True by done. done.
      - intros y Hy. rewrite Hmap, decide_False by done. done. }
    simpl. lia.
Qed.

Lemma placePHINodes_total (fuel : nat) (Work : list BasicBlock) (s : MemorySSA) :
  (length Work + blocks_without_phi F s <= fuel)%nat ->
  build_inv F ∅ c k s ->
  exists s', Builder.placePHINodes fuel F DT Work s = Ok s' /\ build_inv F ∅ c k s'.
Proof.
  revert Work s. induction fuel as [|fuel IH]; intros [|BB Rest] s Hfuel Hinv; simpl in *;
    try (by exists s); [lia|].
  destruct (placeInFrontier_total (frontier DT BB) s) as (s1 & New & -> & Hinv1 & Hle);
    [apply Hfrontier|done|].
  simpl. apply IH; [|done]. rewrite length_app. lia.
Qed.

End Placement.

Lemma placePHINodes_mono (F : Function) (DT : DominatorTree) (fuel fuel' : nat)
  (Work : list BasicBlock) (s s' : MemorySSA) :
  (fuel <= fuel')%nat ->
  Builder.placePHINodes fuel F DT Work s = Ok s' ->
  Builder.placePHINodes fuel' F DT Work s = Ok s'.
Proof.
  revert fuel' Work s. induction fuel as [|fuel IH]; intros fuel' [|BB Rest] s Hle H;
    simpl in *; try done.
  - by destruct fuel'.
  - by destruct fuel'.
  - destruct fuel' as [|fuel']; [lia|]. simpl.
    apply bind_Ok in H as ([s1 New] & -> & H). simpl. apply (IH fuel'); [lia|done].
Qed.

(** *** Changes of the store *)

Lemma with_Accesses_self (s : MemorySSA) : with_Accesses (Accesses s) s = s.
Proof. by destruct s. Qed.

Lemma blocks_ok_update (s : MemorySSA) (h' : heap) :
  same_blocks (Accesses s) h' -> blocks_ok s -> blocks_ok (with_Accesses h' s).
Proof.
  intros Hsame (Hlists & Hnd & Hlisted & Hcomplete).
  split; [done|]. split; [done|]. split.
  - intros BB x Hin. destruct (Hlisted BB x Hin) as (a & Ha & Hb).
    specialize (Hsame x). simpl. rewrite Ha in Hsame. simpl in Hsame.
    destruct (h' !! x) as [a'|]; [|done]. exists a'. split; [done|].
    injection Hsame as ->. done.
  - intros x a' BB. simpl. intros Ha' Hb'. specialize (Hsame x). rewrite Ha' in Hsame.
    simpl in Hsame. destruct (Accesses s !! x) as [a|] eqn:Ha; [|done].
    injection Hsame as Hsame. apply (Hcomplete x a BB); [done|congruence].
Qed.

Lemma same_blocks_insert (h : heap) (x : addr) (a a' : MemoryAccess) :
  h !! x = Some a -> getBlock a' = getBlock a -> same_blocks h (<[x := a']> h).
Proof.
  intros Ha Hb y. destruct (decide (y = x)) as [->|Hne].
  - rewrite lookup_insert_eq, Ha. simpl. by rewrite Hb.
  - by rewrite lookup_insert_ne.
Qed.

Lemma build_inv_mono (F : Function) (R : gset addr) (c c' : N) (k k' : nat)
  (s : MemorySSA) :
  c <= c' -> (k <= k')%nat -> build_inv F R c k s -> build_inv F R c' k' s.
Proof.
  intros Hc Hk [Hb Hloe Hnames Hphimap Hphis Hud]. split; try done.
  - intros l P HP. destruct (Hphis l P HP). split; [done|lia].
  - intros x a Ha Hk' Hx. destruct (Hud x a Ha Hk' Hx) as (BB & ? & ? & Hop).
    exists BB. split; [done|]. split; [done|].
    destruct (decide (x ∈ R)); [|done]. by eapply wfchain_mono.
Qed.

Lemma elem_of_add_ne (x y : addr) (R : gset addr) :
  y <> x -> y ∈ {[x]} ∪ R <-> y ∈ R.
Proof.
  intros Hne. rewrite elem_of_union, elem_of_singleton. split; [|by right].
  by intros [?|?].
Qed.

Lemma elem_of_add_eq (x : addr) (R : gset addr) : x ∈ {[x]} ∪ R.
Proof. apply elem_of_union. left. by apply elem_of_singleton. Qed.

(** The live-on-entry definition is not in the list of a block. *)
Lemma listed_not_loe (F : Function) (R : gset addr) (c : N) (k : nat) (s : MemorySSA)
  (BB : BasicBlock) (x : addr) :
  build_inv F R c k s -> x ∈ Builder.accessList s BB ->
  Some x <> LiveOnEntryDef s /\
  exists a, Accesses s !! x = Some a /\ getBlock a = Some BB.
Proof.
  intros [(_ & _ & Hlisted & _) (loe & d & Hloe & Hd & Hb) _ _ _ _] Hin.
  destruct (Hlisted BB x Hin) as (a & Ha & Hblock). split; [|by exists a].
  rewrite Hloe. intros [= ->]. rewrite Ha in Hd. injection Hd as ->. simpl in Hblock.
  congruence.
Qed.

(** A phi is replaced by a phi of the same block. *)
Lemma build_inv_phi (F : Function) (R : gset addr) (c c' : N) (k : nat) (s : MemorySSA)
  (x : addr) (P P' : MemoryPhi) :
  build_inv F R c k s -> Accesses s !! x = Some (MP P) ->
  wf_phi P' -> getNumIncomingValues P' <= c' -> c <= c' -> phi_Block P' = phi_Block P ->
  build_inv F R c' k (with_Accesses (<[x := MP P']> (Accesses s)) s) /\
  (forall n W, wfchain n (LiveOnEntryDef s) (Accesses s) W ->
               wfchain n (LiveOnEntryDef s) (<[x := MP P']> (Accesses s)) W).
Proof.
  intros [Hb Hloe Hnames Hphimap Hphis Hud] Hx Hwf Hc' Hc Hblock.
  assert (forall n W, wfchain n (LiveOnEntryDef s) (Accesses s) W ->
               wfchain n (LiveOnEntryDef s) (<[x := MP P']> (Accesses s)) W) as Hchain.
  { apply wfchain_stable. intros y a Ha. destruct (decide (y = x)) as [->|Hne].
    - rewrite lookup_insert_eq. rewrite Hx in Ha. injection Ha as <-. by eexists.
    - rewrite lookup_insert_ne by done. destruct a; eauto. }
  split; [|done]. split; simpl.
  - apply blocks_ok_update; [|done]. by apply (same_blocks_insert _ _ (MP P)).
  - destruct Hloe as (loe & d & Hloe & Hd & Hbd). exists loe, d.
    split; [done|]. split; [|done]. rewrite lookup_insert_ne by congruence. done.
  - done.
  - intros BB l Hl. destruct (Hphimap BB l Hl) as [Q HQ].
    destruct (decide (l = x)) as [->|Hne].
    + rewrite lookup_insert_eq. by eexists.
    + rewrite lookup_insert_ne by done. by eexists.
  - intros l Q. destruct (decide (l = x)) as [->|Hne].
    + rewrite lookup_insert_eq. by intros [= <-].
    + rewrite lookup_insert_ne by done. intros HQ. destruct (Hphis l Q HQ).
      split; [done|lia].
  - intros y a. destruct (decide (y = x)) as [->|Hne].
    + rewrite lookup_insert_eq. by intros [= <-].
    + rewrite lookup_insert_ne by done. intros Ha Hk Hy.
      destruct (Hud y a Ha Hk Hy) as (BB & ? & ? & Hop). exists BB.
      split; [done|]. split; [done|]. destruct (decide (y ∈ R)); [|done]. by apply Hchain.
Qed.

(** A Use or a Def gets its defining access: one that was not renamed, or
    a Use. *)
Lemma build_inv_set (F : Function) (R : gset addr) (c : N) (k : nat) (s : MemorySSA)
  (x : addr) (a a' : MemoryAccess) :
  build_inv F R c k s -> Accesses s !! x = Some a ->
  isa_MemoryUseOrDef a = true -> Some x <> LiveOnEntryDef s ->
  x ∉ R \/ isa_MemoryUse a = true ->
  isa_MemoryUse a' = isa_MemoryUse a -> isa_MemoryUseOrDef a' = true ->
  getBlock a' = getBlock a -> instOf a' = instOf a ->
  wfchain k (LiveOnEntryDef s) (Accesses s) (operandOf a') ->
  build_inv F ({[x]} ∪ R) c k (with_Accesses (<[x := a']> (Accesses s)) s) /\
  (forall n W, wfchain n (LiveOnEntryDef s) (Accesses s) W ->
               wfchain n (LiveOnEntryDef s) (<[x := a']> (Accesses s)) W).
Proof.
  intros [Hb Hloe Hnames Hphimap Hphis Hud] Hx Hkind Hnloe HR Hcls Hkind' Hblock Hinst Hop.
  assert (forall n W, wfchain n (LiveOnEntryDef s) (Accesses s) W ->
               wfchain n (LiveOnEntryDef s) (<[x := a']> (Accesses s)) W) as Hchain.
  { apply wfchain_stable. intros y b Hy. destruct (decide (y = x)) as [->|Hne].
    - rewrite Hx in Hy. injection Hy as <-. destruct a as [u|d|P]; [done| |done].
      right. split; [|done]. destruct HR as [HR|?]; [|done].
      destruct (Hud x (MD d) Hx Hkind Hnloe) as (BB & _ & _ & Hnone).
      by rewrite decide_False in Hnone.
    - rewrite lookup_insert_ne by done. destruct b; eauto. }
  split; [|done]. split; simpl.
  - apply blocks_ok_update; [|done]. by apply (same_blocks_insert _ _ a).
  - destruct Hloe as (loe & d & Hloe & Hd & Hbd). exists loe, d.
    split; [done|]. split; [|done]. rewrite lookup_insert_ne by congruence. done.
  - done.
  - intros BB l Hl. destruct (Hphimap BB l Hl) as [Q HQ].
    destruct (decide (l = x)) as [->|Hne].
    + rewrite Hx in HQ. injection HQ as ->. done.
    + rewrite lookup_insert_ne by done. by eexists.
  - intros l Q. destruct (decide (l = x)) as [->|Hne].
    + rewrite lookup_insert_eq. intros [= ->]. done.
    + rewrite lookup_insert_ne by done. apply Hphis.
  - intros y b. destruct (decide (y = x)) as [->|Hne].
    + rewrite lookup_insert_eq. intros [= <-] _ _.
      destruct (Hud x a Hx Hkind Hnloe) as (BB & ? & ? & _). exists BB.
      split; [congruence|]. split; [congruence|].
      rewrite decide_True by apply elem_of_add_eq. by apply Hchain.
    + rewrite lookup_insert_ne by done. intros Hy Hk Hyl.
      destruct (Hud y b Hy Hk Hyl) as (BB & ? & ? & Hopy). exists BB.
      split; [done|]. split; [done|].
      destruct (decide (y ∈ R)).
      * rewrite decide_True by (by apply elem_of_add_ne). by apply Hchain.
      * rewrite decide_False by (by rewrite elem_of_add_ne). done.
Qed.

(** A phi counts as renamed. *)
Lemma build_inv_skip (F : Function) (R : gset addr) (c : N) (k : nat) (s : MemorySSA)
  (x : addr) (P : MemoryPhi) :
  build_inv F R c k s -> Accesses s !! x = Some (MP P) -> build_inv F ({[x]} ∪ R) c k s.
Proof.
  intros [Hb Hloe Hnames Hphimap Hphis Hud] Hx. split; try done.
  intros y a Hy Hk Hyl. destruct (Hud y a Hy Hk Hyl) as (BB & ? & ? & Hop). exists BB.
  split; [done|]. split; [done|].
  assert (y <> x) by (intros ->; rewrite Hx in Hy; by injection Hy as <-).
  destruct (decide (y ∈ R)).
  - by rewrite decide_True by (by apply elem_of_add_ne).
  - by rewrite decide_False by (by rewrite elem_of_add_ne).
Qed.

Lemma same_blocks_refl (h : heap) : same_blocks h h.
Proof. by intros l. Qed.

Lemma same_blocks_trans (h1 h2 h3 : heap) :
  same_blocks h1 h2 -> same_blocks h2 h3 -> same_blocks h1 h3.
Proof. intros H1 H2 l. by rewrite H2, H1. Qed.

Lemma getBlock_setDefiningAccess (a a' : MemoryAccess) (D : ptr) :
  MemoryUseOrDef_setDefiningAccess a D = Ok a' -> getBlock a' = getBlock a.
Proof. destruct a; simpl; intros [= <-]; done. Qed.

Lemma same_blocks_setDefiningAccess (h h' : heap) (U : addr) (D : ptr) (o : bool) :
  setDefiningAccess h U D o = Ok h' -> same_blocks h h'.
Proof.
  unfold setDefiningAccess. intros H.
  apply bind_Ok in H as (a & Ha & H). apply deref_Ok in Ha as (l & [= <-] & Hl).
  apply bind_Ok in H as (u & Hu & H). destruct a; simpl in Hu; try discriminate.
  injection Hu as ->.
  apply bind_Ok in H as (oid & _ & [= <-]).
  by apply same_blocks_insert with (MU u).
Qed.

Lemma same_blocks_renameAccesses (l : list addr) :
  forall V h h' Out, Builder.renameAccesses l V h = Ok (h', Out) -> same_blocks h h'.
Proof.
  induction l as [|x l IH]; intros V h h' Out H; simpl in H.
  - injection H as <- _. apply same_blocks_refl.
  - apply bind_Ok in H as (a & Ha & H). apply deref_Ok in Ha as (? & [= <-] & Hx).
    destruct a as [u|d|P].
    + apply bind_Ok in H as (a' & Ha' & H).
      eapply same_blocks_trans; [|by eapply IH].
      eapply same_blocks_insert; [done|]. by eapply getBlock_setDefiningAccess.
    + apply bind_Ok in H as (a' & Ha' & H).
      eapply same_blocks_trans; [|by eapply IH].
      eapply same_blocks_insert; [done|]. by eapply getBlock_setDefiningAccess.
    + by eapply IH.
Qed.

(** The phi mutators leave the block alone. *)
Lemma phi_Block_setOperand (P P' : MemoryPhi) (I : N) (V : ptr) :
  setOperand P I V = Ok P' -> phi_Block P' = phi_Block P.
Proof.
  unfold setOperand. intros H. apply bind_Ok in H as (_ & _ & H).
  destruct (_ <? _)%nat; [|discriminate]. by injection H as <-.
Qed.

Lemma phi_Block_setIncomingValue (P P' : MemoryPhi) (I : N) (V : ptr) :
  setIncomingValue P I V = Ok P' -> phi_Block P' = phi_Block P.
Proof.
  unfold setIncomingValue. intros H. apply bind_Ok in H as (_ & _ & H).
  by eapply phi_Block_setOperand.
Qed.

Lemma phi_Block_setIncomingBlock (P P' : MemoryPhi) (I : N) (BB : option BasicBlock) :
  setIncomingBlock P I BB = Ok P' -> phi_Block P' = phi_Block P.
Proof.
  unfold setIncomingBlock. intros H. apply bind_Ok in H as (_ & _ & H).
  destruct (_ <? _)%nat; [|discriminate]. by injection H as <-.
Qed.

Lemma phi_Block_growOperands (P P' : MemoryPhi) :
  growOperands P = Ok P' -> phi_Block P' = phi_Block P.
Proof.
  unfold growOperands, growHungoffUses. intros H.
  apply bind_Ok in H as (_ & _ & H). by injection H as <-.
Qed.

Lemma phi_Block_addIncoming (P P' : MemoryPhi) (V : ptr) (BB : option BasicBlock) :
  addIncoming P V BB = Ok P' -> phi_Block P' = phi_Block P.
Proof.
  unfold addIncoming. intros H.
  apply bind_Ok in H as (P1 & H1 & H).
  apply bind_Ok in H as (P2 & H2 & H).
  apply bind_Ok in H as (P3 & H3 & H).
  apply phi_Block_setIncomingBlock in H. apply phi_Block_setIncomingValue in H3.
  unfold setNumHungOffUseOperands in H2. apply bind_Ok in H2 as (_ & _ & H2).
  injection H2 as <-. simpl in *.
  assert (phi_Block P1 = phi_Block P) as <-; [|congruence].
  destruct (_ =? _); [by apply phi_Block_growOperands | by injection H1 as <-].
Qed.

Lemma same_blocks_fillSuccessorPhi (Pred : BasicBlock) (V : ptr) (h h' : heap) (Succ : ptr) :
  Builder.fillSuccessorPhi Pred V h Succ = Ok h' -> same_blocks h h'.
Proof.
  destruct Succ as [l|]; simpl; [|intros [= <-]; apply same_blocks_refl].
  intros H. apply bind_Ok in H as (a & Ha & H).
  apply deref_Ok in Ha as (? & [= <-] & Hl).
  destruct a as [| |P]; try discriminate.
  apply bind_Ok in H as (P' & HP' & H). injection H as <-.
  apply same_blocks_insert with (MP P); [done|].
  simpl. by apply (phi_Block_addIncoming _ _ _ _ HP').
Qed.

Lemma same_blocks_fillSuccessorPhis (s : MemorySSA) (Pred : BasicBlock) (V : ptr)
  (Succs : list BasicBlock) :
  forall h h', Builder.fillSuccessorPhis s Pred V Succs h = Ok h' -> same_blocks h h'.
Proof.
  induction Succs as [|S_ Rest IH]; intros h h' H; simpl in H.
  - injection H as <-. apply same_blocks_refl.
  - apply bind_Ok in H as (h1 & H1 & H).
    eapply same_blocks_trans; [by eapply same_blocks_fillSuccessorPhi | by eapply IH].
Qed.

Lemma same_blocks_forceLiveOnEntry (LoE : ptr) (l : list addr) :
  forall h h', Builder.forceLiveOnEntry LoE l h = Ok h' -> same_blocks h h'.
Proof.
  induction l as [|x l IH]; intros h h' H; simpl in H.
  - injection H as <-. apply same_blocks_refl.
  - apply bind_Ok in H as (a & Ha & H). apply deref_Ok in Ha as (? & [= <-] & Hx).
    destruct a as [u|d|P]; [ | | by eapply IH ];
      apply bind_Ok in H as (a' & Ha' & H);
      (eapply same_blocks_trans; [|by eapply IH]);
      (eapply same_blocks_insert; [done|]); by eapply getBlock_setDefiningAccess.
Qed.

Lemma same_blocks_optimizeUsesIn (fuel : nat) (AA : AliasAnalysis) (s : MemorySSA)
  (l : list addr) :
  forall h h', Builder.optimizeUsesIn fuel AA s l h = Ok h' -> same_blocks h h'.
Proof.
  induction l as [|U l IH]; intros h h' H; simpl in H.
  - injection H as <-. apply same_blocks_refl.
  - apply bind_Ok in H as (h1 & H1 & H).
    eapply same_blocks_trans; [|by eapply IH].
    unfold Builder.optimizeUse in H1.
    apply bind_Ok in H1 as (a & Ha & H1).
    destruct a as [u| |]; try (injection H1 as <-; apply same_blocks_refl).
    destruct (use_MemoryInst u); [|discriminate].
    apply bind_Ok in H1 as (c & _ & H1).
    by eapply same_blocks_setDefiningAccess.
Qed.

(** *** Renaming, unreachable blocks and the use optimizer *)

Lemma renamed_cons (x : addr) (l : list addr) (R : gset addr) :
  list_to_set (x :: l) ∪ R = list_to_set l ∪ ({[x]} ∪ R).
Proof.
  simpl. rewrite (comm_L (∪) {[x]} (list_to_set l)). by rewrite <-(assoc_L (∪)).
Qed.

Section Renaming.

Variables (F : Function) (s : MemorySSA).

Lemma renameAccesses_total (l : list addr) :
  forall (R : gset addr) (c : N) (k : nat) (h : heap) (V : ptr),
  build_inv F R c k (with_Accesses h s) ->
  NoDup l ->
  (forall x, x ∈ l -> (x ∉ R) /\ Some x <> LiveOnEntryDef s /\ is_Some (h !! x)) ->
  wfchain k (LiveOnEntryDef s) h V ->
  exists h' Out,
    Builder.renameAccesses l V h = Ok (h', Out) /\
    build_inv F (list_to_set l ∪ R) c (k + length l) (with_Accesses h' s) /\
    wfchain (k + length l) (LiveOnEntryDef s) h' Out /\
    (forall n W, wfchain n (LiveOnEntryDef s) h W -> wfchain n (LiveOnEntryDef s) h' W).
Proof.
  induction l as [|x l IH]; intros R c k h V Hinv Hnd Hl HV;
    [simpl|rewrite renamed_cons; simpl].
  - exists h, V. rewrite Nat.add_0_r, (left_id_L ∅ (∪)). done.
  - apply NoDup_cons in Hnd as [Hx Hnd].
    destruct (Hl x) as (HxR & Hxl & [a Ha]); [by left|].
    assert (forall a', h !! x = Some a ->
              forall y, y ∈ l ->
                (y ∉ {[x]} ∪ R) /\ Some y <> LiveOnEntryDef s /\ is_Some (<[x := a']> h !! y))
      as Hrest.
    { intros a' _ y Hy. destruct (Hl y) as (? & ? & ?); [by right|].
      assert (y <> x) by (by intros ->).
      split; [by rewrite elem_of_add_ne|]. split; [done|].
      by rewrite lookup_insert_ne. }
    unfold deref. rewrite Ha. simpl.
    destruct a as [u|d|P]; simpl.
    + destruct (build_inv_set F R c k (with_Accesses h s) x (MU u)
                  (MU {| use_Block := use_Block u; use_MemoryInst := use_MemoryInst u;
                         use_Operand := V; OptimizedID := OptimizedID u |}))
        as [Hinv1 Hkeep1]; try done; [by left|].
      simpl in Hinv1, Hkeep1.
      destruct (IH _ c k _ V Hinv1 Hnd (Hrest _ Ha) (Hkeep1 _ _ HV))
        as (h' & Out & -> & Hinv' & HOut & Hkeep').
      exists h', Out. split; [done|].
      split; [eapply build_inv_mono; [| |exact Hinv']; lia|].
      split; [eapply wfchain_mono; [|exact HOut]; lia|]. auto.
    + destruct (build_inv_set F R c k (with_Accesses h s) x (MD d)
                  (MD {| def_Block := def_Block d; def_MemoryInst := def_MemoryInst d;
                         def_Operand := V; def_ID := def_ID d |}))
        as [Hinv1 Hkeep1]; try done; [by left|].
      simpl in Hinv1, Hkeep1.
      assert (wfchain (S k) (LiveOnEntryDef s)
                (<[x := MD {| def_Block := def_Block d; def_MemoryInst := def_MemoryInst d;
                              def_Operand := V; def_ID := def_ID d |}]> h) (Some x)) as Hx'.
      { simpl. rewrite lookup_insert_eq. right. simpl. split; [|by apply Hkeep1].
        destruct (inv_usedef _ _ _ _ _ Hinv x (MD d) Ha eq_refl Hxl) as (? & _ & ? & _).
        done. }
      apply (build_inv_mono F _ c c k (S k)) in Hinv1; [|lia..].
      destruct (IH _ c (S k) _ (Some x) Hinv1 Hnd (Hrest _ Ha) Hx')
        as (h' & Out & -> & Hinv' & HOut & Hkeep').
      exists h', Out. split; [done|]. rewrite Nat.add_succ_r. auto.
    + pose proof (build_inv_skip F R c k (with_Accesses h s) x P Hinv Ha) as Hinv1.
      assert (forall y, y ∈ l ->
                (y ∉ {[x]} ∪ R) /\ Some y <> LiveOnEntryDef s /\ is_Some (h !! y)) as Hrest'.
      { intros y Hy. destruct (Hl y) as (? & ? & ?); [by right|].
        assert (y <> x) by (by intros ->). by rewrite elem_of_add_ne. }
      destruct (IH _ c k h V Hinv1 Hnd Hrest' HV) as (h' & Out & -> & Hinv' & HOut & Hkeep').
      exists h', Out. split; [done|].
      split; [eapply build_inv_mono; [| |exact Hinv']; lia|].
      split; [eapply wfchain_mono; [|exact HOut]; lia|]. auto.
Qed.

Lemma forceLiveOnEntry_total (l : list addr) :
  forall (R : gset addr) (c : N) (k : nat) (h : heap),
  build_inv F R c k (with_Accesses h s) -> (1 <= k)%nat ->
  NoDup l ->
  (forall x, x ∈ l -> (x ∉ R) /\ Some x <> LiveOnEntryDef s /\ is_Some (h !! x)) ->
  exists h',
    Builder.forceLiveOnEntry (LiveOnEntryDef s) l h = Ok h' /\
    build_inv F (list_to_set l ∪ R) c k (with_Accesses h' s) /\
    (forall n W, wfchain n (LiveOnEntryDef s) h W -> wfchain n (LiveOnEntryDef s) h' W).
Proof.
  induction l as [|x l IH]; intros R c k h Hinv Hk Hnd Hl;
    [simpl|rewrite renamed_cons; simpl].
  - exists h. rewrite (left_id_L ∅ (∪)). done.
  - apply NoDup_cons in Hnd as [Hx Hnd].
    destruct (Hl x) as (HxR & Hxl & [a Ha]); [by left|].
    assert (wfchain k (LiveOnEntryDef s) h (LiveOnEntryDef s)) as Hloe.
    { destruct (inv_loe _ _ _ _ _ Hinv) as (loe & d & Hloe & Hd & _). simpl in *.
      rewrite Hloe. destruct k; [lia|]. simpl. rewrite Hd. by left. }
    assert (forall a', h !! x = Some a ->
              forall y, y ∈ l ->
                (y ∉ {[x]} ∪ R) /\ Some y <> LiveOnEntryDef s /\ is_Some (<[x := a']> h !! y))
      as Hrest.
    { intros a' _ y Hy. destruct (Hl y) as (? & ? & ?); [by right|].
      assert (y <> x) by (by intros ->).
      split; [by rewrite elem_of_add_ne|]. split; [done|].
      by rewrite lookup_insert_ne. }
    unfold deref. rewrite Ha. simpl.
    destruct a as [u|d|P]; simpl.
    + destruct (build_inv_set F R c k (with_Accesses h s) x (MU u)
                  (MU {| use_Block := use_Block u; use_MemoryInst := use_MemoryInst u;
                         use_Operand := LiveOnEntryDef s; OptimizedID := OptimizedID u |}))
        as [Hinv1 Hkeep1]; try done; [by left|].
      simpl in Hinv1, Hkeep1.
      destruct (IH _ c k _ Hinv1 Hk Hnd (Hrest _ Ha)) as (h' & -> & Hinv' & Hkeep').
      exists h'. auto.
    + destruct (build_inv_set F R c k (with_Accesses h s) x (MD d)
                  (MD {| def_Block := def_Block d; def_MemoryInst := def_MemoryInst d;
                         def_Operand := LiveOnEntryDef s; def_ID := def_ID d |}))
        as [Hinv1 Hkeep1]; try done; [by left|].
      simpl in Hinv1, Hkeep1.
      destruct (IH _ c k _ Hinv1 Hk Hnd (Hrest _ Ha)) as (h' & -> & Hinv' & Hkeep').
      exists h'. auto.
    + pose proof (build_inv_skip F R c k (with_Accesses h s) x P Hinv Ha) as Hinv1.
      assert (forall y, y ∈ l ->
                (y ∉ {[x]} ∪ R) /\ Some y <> LiveOnEntryDef s /\ is_Some (h !! y)) as Hrest'.
      { intros y Hy. destruct (Hl y) as (? & ? & ?); [by right|].
        assert (y <> x) by (by intros ->). by rewrite elem_of_add_ne. }
      destruct (IH _ c k h Hinv1 Hk Hnd Hrest') as (h' & -> & Hinv' & Hkeep').
      exists h'. auto.
Qed.

Lemma fillSuccessorPhis_total (s0 : MemorySSA) (Pred : BasicBlock) (v : addr)
  (Succs : list BasicBlock) :
  ValueToMemoryAccess s0 = ValueToMemoryAccess s ->
  forall (R : gset addr) (c : N) (k : nat) (h : heap),
  build_inv F R c k (with_Accesses h s) ->
  c + N.of_nat (length Succs) < 2 ^ NumUserOperandsBits ->
  exists h',
    Builder.fillSuccessorPhis s0 Pred (Some v) Succs h = Ok h' /\
    build_inv F R (c + N.of_nat (length Succs)) k (with_Accesses h' s) /\
    (forall n W, wfchain n (LiveOnEntryDef s) h W -> wfchain n (LiveOnEntryDef s) h' W).
Proof.
  intros Hmap. induction Succs as [|S_ Rest IH]; intros R c k h Hinv Hc; simpl.
  - exists h. rewrite N.add_0_r. done.
  - simpl length in Hc. unfold Builder.fillSuccessorPhi.
    destruct (Builder.getMemoryAccess_block s0 S_) as [l|] eqn:Hphi; simpl.
    + assert (Builder.getMemoryAccess_block (with_Accesses h s) S_ = Some l) as Hphi'
        by (unfold Builder.getMemoryAccess_block in *; simpl; by rewrite <-Hmap).
      destruct (inv_phimap _ _ _ _ _ Hinv _ _ Hphi') as [P HP]. simpl in HP.
      destruct (inv_phis _ _ _ _ _ Hinv _ _ HP) as [Hwf Hn].
      destruct (addIncoming_nonnull P v Pred Hwf) as (P' & HP' & Hn' & _ & _ & _ & Hwf');
        [lia|].
      unfold deref. rewrite HP. simpl. rewrite HP'. simpl.
      pose proof (phi_Block_addIncoming P P' _ _ HP') as Hblock.
      destruct (build_inv_phi F R c (c + 1) k (with_Accesses h s) l P P' Hinv HP Hwf')
        as [Hinv1 Hkeep1]; [lia|lia|done|].
      simpl in Hinv1, Hkeep1.
      destruct (IH R (c + 1) k _ Hinv1) as (h' & -> & Hinv' & Hkeep'); [lia|].
      exists h'. split; [done|].
      split; [eapply build_inv_mono; [| |exact Hinv']; lia|]. auto.
    + destruct (IH R c k h Hinv) as (h' & -> & Hinv' & Hkeep'); [lia|].
      exists h'. split; [done|].
      split; [eapply build_inv_mono; [| |exact Hinv']; lia|]. auto.
Qed.

End Renaming.

Section Passes.

Variables (F : Function) (s : MemorySSA).

(** The accesses of a block that has not been visited are not renamed. *)
Lemma unvisited_not_renamed (R : gset addr) (Vis : gset BasicBlock) (c : N) (k : nat)
  (h : heap) (BB : BasicBlock) :
  build_inv F R c k (with_Accesses h s) ->
  (forall x, x ∈ R <-> exists BB', BB' ∈ Vis /\ x ∈ Builder.accessList s BB') ->
  BB ∉ Vis ->
  NoDup (Builder.accessList s BB) /\
  forall x, x ∈ Builder.accessList s BB ->
    (x ∉ R) /\ Some x <> LiveOnEntryDef s /\ is_Some (h !! x).
Proof.
  intros Hinv Hlink HBB.
  pose proof (inv_blocks _ _ _ _ _ Hinv) as (_ & Hnd & Hlisted & _).
  split; [apply Hnd|]. intros x Hx.
  destruct (listed_not_loe F R c k (with_Accesses h s) BB x Hinv Hx) as (Hl & a & Ha & Hb).
  split; [|split; [done|by exists a]].
  intros (BB' & HBB' & Hx')%Hlink.
  destruct (Hlisted BB' x Hx') as (a' & Ha' & Hb'). simpl in Ha, Ha'. congruence.
Qed.

Lemma renamed_block (R : gset addr) (Vis : gset BasicBlock) (BB : BasicBlock) :
  (forall x, x ∈ R <-> exists BB', BB' ∈ Vis /\ x ∈ Builder.accessList s BB') ->
  forall x, x ∈ list_to_set (Builder.accessList s BB) ∪ R <->
            exists BB', BB' ∈ {[BB]} ∪ Vis /\ x ∈ Builder.accessList s BB'.
Proof.
  intros Hlink x. rewrite elem_of_union, elem_of_list_to_set, Hlink. split.
  - intros [Hx|(BB' & ? & ?)].
    + exists BB. split; [|done]. apply elem_of_union. left. by apply elem_of_singleton.
    + exists BB'. split; [|done]. apply elem_of_union. by right.
  - intros (BB' & [->%elem_of_singleton|?]%elem_of_union & ?); [by left|].
    right. by exists BB'.
Qed.

Lemma renamePass_total (Root : DomTreeNode) :
  forall (V : ptr) (h : heap) (Vis : gset BasicBlock) (R : gset addr) (c : N) (k : nat),
  build_inv F R c k (with_Accesses h s) -> (1 <= k)%nat ->
  (forall x, x ∈ R <-> exists BB, BB ∈ Vis /\ x ∈ Builder.accessList s BB) ->
  wfchain k (LiveOnEntryDef s) h V ->
  c + N.of_nat (tree_edges F Root) < 2 ^ NumUserOperandsBits ->
  exists h' Vis' R' k',
    Builder.renamePass F Root V (with_Accesses h s, Vis) = Ok (with_Accesses h' s, Vis') /\
    build_inv F R' (c + N.of_nat (tree_edges F Root)) k' (with_Accesses h' s) /\
    (k <= k')%nat /\
    (forall x, x ∈ R' <-> exists BB, BB ∈ Vis' /\ x ∈ Builder.accessList s BB) /\
    (forall n W, wfchain n (LiveOnEntryDef s) h W -> wfchain n (LiveOnEntryDef s) h' W).
Proof.
  induction Root as [BB Children IH] using DomTreeNode_forall_ind.
  intros V h Vis R c k Hinv Hk Hlink HV Hc. simpl.
  destruct (decide (BB ∈ Vis)) as [Hvis|Hvis].
  { exists h, Vis, R, k. split; [done|].
    split; [eapply build_inv_mono; [| |exact Hinv]; lia|]. done. }
  simpl in Hc.
  set (edges := (fix sum (cs : list DomTreeNode) : nat :=
                   match cs with [] => 0%nat | c :: cs' => (tree_edges F c + sum cs')%nat end))
    in *.
  unfold Builder.renameBlock.
  destruct (unvisited_not_renamed R Vis c k h BB Hinv Hlink Hvis) as [Hnd Hlist].
  set (Entry := match Builder.getMemoryAccess_block (with_Accesses h s) BB with
                | Some phi => Some phi
                | None => V
                end).
  assert (wfchain k (LiveOnEntryDef s) h Entry) as HEntry.
  { unfold Entry. destruct (Builder.getMemoryAccess_block _ BB) as [phi|] eqn:Hphi; [|done].
    destruct (inv_phimap _ _ _ _ _ Hinv _ _ Hphi) as [P HP]. simpl in HP.
    destruct k; [lia|]. simpl. by rewrite HP. }
  change (Builder.accessList (with_Accesses h s) BB) with (Builder.accessList s BB).
  change (Accesses (with_Accesses h s)) with h.
  destruct (renameAccesses_total F s _ R c k h Entry Hinv Hnd Hlist HEntry)
    as (h1 & Out & -> & Hinv1 & HOut & Hkeep1).
  simpl.
  destruct (wfchain_is_Some _ _ _ _ HOut) as (v & _ & -> & _).
  destruct (fillSuccessorPhis_total F s (with_Accesses h1 (with_Accesses h s)) BB v
              (successors F BB) eq_refl _ c _ h1 Hinv1) as (h2 & -> & Hinv2 & Hkeep2); [lia|].
  simpl.
  change (with_Accesses h2 (with_Accesses h1 (with_Accesses h s)))
    with (with_Accesses h2 s).
  pose proof (renamed_block R Vis BB Hlink) as Hlink2.
  apply Hkeep2 in HOut.
  assert (forall n W, wfchain n (LiveOnEntryDef s) h W -> wfchain n (LiveOnEntryDef s) h2 W)
    as Hkeep by auto.
  assert (1 <= k + length (Builder.accessList s BB))%nat as Hk2 by lia.
  assert (k <= k + length (Builder.accessList s BB))%nat as Hkk by lia.
  revert Hinv2 Hlink2 HOut Hkeep Hk2 Hkk Hc.
  generalize (k + length (Builder.accessList s BB))%nat as k2.
  generalize (list_to_set (Builder.accessList s BB) ∪ R) as R2.
  generalize ({[BB]} ∪ Vis) as Vis2.
  generalize h2 as h3.
  replace (c + N.of_nat (length (successors F BB) + edges Children))
    with (c + N.of_nat (length (successors F BB)) + N.of_nat (edges Children)) by lia.
  generalize (c + N.of_nat (length (successors F BB))) as c2.
  clear Hinv1 Hkeep1 Hkeep2 Hinv Hlink HV HEntry Hnd Hlist Hvis. clear Entry h1 h2.
  induction IH as [|ch cs Hch _ IHcs];
    intros c2 h3 Vis2 R2 k2 Hinv Hlink HOut Hkeep Hk2 Hkk Hc; simpl in *.
  - exists h3, Vis2, R2, k2. rewrite N.add_0_r. done.
  - destruct (Hch (Some v) h3 Vis2 R2 c2 k2 Hinv Hk2 Hlink HOut)
      as (h4 & Vis4 & R4 & k4 & -> & Hinv4 & Hk4 & Hlink4 & Hkeep4); [lia|].
    simpl.
    destruct (IHcs (c2 + N.of_nat (tree_edges F ch)) h4 Vis4 R4 k4 Hinv4 Hlink4)
      as (h5 & Vis5 & R5 & k5 & -> & Hinv5 & Hk5 & Hlink5 & Hkeep5);
      [eapply wfchain_mono; [|apply Hkeep4, HOut]; lia|auto|lia|lia|lia|].
    exists h5, Vis5, R5, k5. split; [done|].
    split; [eapply build_inv_mono; [| |exact Hinv5]; lia|].
    split; [lia|]. done.
Qed.

End Passes.

Section Unreachable.

Variables (F : Function) (s : MemorySSA) (Visited : gset BasicBlock).

Lemma markUnreachable_total (Blocks : list BasicBlock) :
  forall (h : heap) (Vis : gset BasicBlock) (R : gset addr) (c : N) (k : nat),
  build_inv F R c k (with_Accesses h s) -> (1 <= k)%nat ->
  (forall x, x ∈ R <-> exists BB, BB ∈ Vis /\ x ∈ Builder.accessList s BB) ->
  Visited ⊆ Vis -> NoDup Blocks ->
  (forall BB, BB ∈ Blocks -> BB ∉ Visited -> BB ∉ Vis) ->
  c + N.of_nat (block_edges F Blocks) < 2 ^ NumUserOperandsBits ->
  exists h' R',
    Builder.markUnreachable F Visited Blocks (with_Accesses h s) = Ok (with_Accesses h' s) /\
    build_inv F R' (c + N.of_nat (block_edges F Blocks)) k (with_Accesses h' s) /\
    (forall x, x ∈ R' <->
               exists BB, (BB ∈ Blocks \/ BB ∈ Vis) /\ x ∈ Builder.accessList s BB) /\
    (forall n W, wfchain n (LiveOnEntryDef s) h W -> wfchain n (LiveOnEntryDef s) h' W).
Proof.
  induction Blocks as [|BB Rest IH]; intros h Vis R c k Hinv Hk Hlink Hsub Hnd Hnew Hc.
  - exists h, R. simpl. unfold block_edges. simpl. rewrite N.add_0_r.
    split; [done|]. split; [done|]. split; [|done].
    intros x. rewrite Hlink. split; intros (BB & HBB & Hx); exists BB; (split; [|done]).
    + by right.
    + destruct HBB as [?%elem_of_nil|?]; done.
  - apply NoDup_cons in Hnd as [HBB Hnd].
    assert (block_edges F (BB :: Rest)
            = (length (successors F BB) + block_edges F Rest)%nat) as Hedges
      by (unfold block_edges; simpl; by rewrite length_app).
    rewrite Hedges in *. simpl.
    assert (forall BB', (BB' ∈ Rest \/ BB' ∈ {[BB]} ∪ Vis) <-> (BB' ∈ BB :: Rest \/ BB' ∈ Vis))
      as Hsets.
    { intros BB'. rewrite elem_of_cons, elem_of_union, elem_of_singleton. tauto. }
    assert (forall R' : gset addr,
              (forall x, x ∈ R' <-> exists BB', (BB' ∈ Rest \/ BB' ∈ {[BB]} ∪ Vis)
                                      /\ x ∈ Builder.accessList s BB') ->
              forall x, x ∈ R' <-> exists BB', (BB' ∈ BB :: Rest \/ BB' ∈ Vis)
                                      /\ x ∈ Builder.accessList s BB') as Hlinks.
    { intros R' HR' x. rewrite HR'.
      split; intros (BB' & HBB' & Hx); exists BB'; (split; [by apply Hsets|done]). }
    destruct (decide (BB ∈ Visited)) as [Hvis|Hvis].
    + destruct (IH h ({[BB]} ∪ Vis) R c k Hinv Hk) as (h' & R' & -> & Hinv' & Hlink' & Hkeep').
      * intros x. rewrite Hlink. split; intros (BB' & HBB' & Hx); exists BB'; (split; [|done]).
        -- apply elem_of_union. by right.
        -- apply elem_of_union in HBB' as [->%elem_of_singleton|?]; [by apply Hsub|done].
      * intros B HB. apply elem_of_union. right. by apply Hsub.
      * done.
      * intros B HB HBv [->%elem_of_singleton|HBV]%elem_of_union; [done|].
        revert HBV. apply Hnew; [by right|done].
      * lia.
      * exists h', R'. split; [done|].
        split; [eapply build_inv_mono; [| |exact Hinv']; lia|].
        split; [|done]. by apply Hlinks.
    + unfold Builder.markUnreachableAsLiveOnEntry.
      change (LiveOnEntryDef (with_Accesses h s)) with (LiveOnEntryDef s).
      change (Accesses (with_Accesses h s)) with h.
      change (Builder.accessList (with_Accesses h s) BB) with (Builder.accessList s BB).
      assert (BB ∉ Vis) as HBBV by (apply Hnew; [by left|done]).
      destruct (unvisited_not_renamed F s R Vis c k h BB Hinv Hlink HBBV) as [Hndl Hlist].
      destruct (forceLiveOnEntry_total F s _ R c k h Hinv Hk Hndl Hlist)
        as (h1 & -> & Hinv1 & Hkeep1).
      simpl.
      destruct (inv_loe _ _ _ _ _ Hinv) as (loe & d & Hloe & _). simpl in Hloe.
      rewrite Hloe.
      destruct (fillSuccessorPhis_total F s (with_Accesses h s) BB loe
                  (successors F BB) eq_refl _ c _ h1 Hinv1) as (h2 & -> & Hinv2 & Hkeep2);
        [lia|].
      simpl. change (with_Accesses h2 (with_Accesses h s)) with (with_Accesses h2 s).
      destruct (IH h2 ({[BB]} ∪ Vis) _ _ k Hinv2 Hk)
        as (h' & R' & -> & Hinv' & Hlink' & Hkeep').
      * by apply renamed_block.
      * intros B HB. apply elem_of_union. right. by apply Hsub.
      * done.
      * intros B HB HBv [->%elem_of_singleton|HBV]%elem_of_union; [done|].
        revert HBV. apply Hnew; [by right|done].
      * lia.
      * exists h', R'. split; [done|].
        split; [eapply build_inv_mono; [| |exact Hinv']; lia|].
        split; [by apply Hlinks|].
        rewrite <-Hloe. intros n W HW. by apply Hkeep', Hkeep2, Hkeep1.
Qed.

End Unreachable.

Section Optimizer.

Variables (F : Function) (AA : AliasAnalysis) (s s0 : MemorySSA).
Hypothesis Hloe0 : LiveOnEntryDef s0 = LiveOnEntryDef s.

Lemma nearestClobber_total (h : heap) (L : MemoryLocation) (n : nat) :
  forall (fuel : nat) (Cur : ptr),
  (n <= fuel)%nat -> wfchain n (LiveOnEntryDef s) h Cur ->
  exists r a, Builder.nearestClobber fuel AA s0 h L Cur = Ok (Some r) /\
              wfchain n (LiveOnEntryDef s) h (Some r) /\
              h !! r = Some a /\ isa_MemoryUse a = false.
Proof.
  induction n as [|n IH]; intros [|fuel] Cur Hle Hch; simpl in *; try done; try lia.
  destruct Cur as [x|]; [|done]. unfold deref.
  destruct (h !! x) as [[u|d|P]|] eqn:Hx; try done; simpl.
  - unfold isLiveOnEntryDef. rewrite Hloe0.
    destruct (bool_decide_reflect (Some x = LiveOnEntryDef s)) as [Hl|Hl].
    + exists x, (MD d). rewrite Hx. split; [done|]. split; [by left|done].
    + destruct Hch as [?|[[MI HMI] Hch]]; [done|]. rewrite HMI.
      destruct (mayAliasLocation AA MI L).
      * exists x, (MD d). rewrite Hx. split; [done|]. split; [|done].
        right. split; [by exists MI|done].
      * destruct (IH fuel (def_Operand d)) as (r & a & -> & Hr & Ha & Hu); [lia|done|].
        exists r, a. split; [done|]. split; [|done].
        change (wfchain (S n) (LiveOnEntryDef s) h (Some r)).
        apply (wfchain_mono _ _ n (S n)); [lia|done].
  - exists x, (MP P). rewrite Hx. done.
Qed.

Lemma optimizeUsesIn_total (fuel : nat) (R : gset addr) (c : N) (k : nat)
  (l : list addr) :
  (k <= fuel)%nat ->
  forall h : heap,
  build_inv F R c k (with_Accesses h s) ->
  (forall x, x ∈ l -> x ∈ R /\ Some x <> LiveOnEntryDef s /\ is_Some (h !! x)) ->
  exists h', Builder.optimizeUsesIn fuel AA s0 l h = Ok h' /\
             build_inv F R c k (with_Accesses h' s).
Proof.
  intros Hfuel. induction l as [|x l IH]; intros h Hinv Hl; simpl; [by exists h|].
  destruct (Hl x) as (HxR & Hxl & [a Ha]); [by left|].
  unfold Builder.optimizeUse, deref. rewrite Ha. simpl.
  assert (forall a', forall y, y ∈ l ->
            y ∈ R /\ Some y <> LiveOnEntryDef s /\ is_Some (<[x := a']> h !! y)) as Hrest.
  { intros a' y Hy. destruct (Hl y) as (? & ? & ?); [by right|].
    split; [done|]. split; [done|]. destruct (decide (y = x)) as [->|?].
    - rewrite lookup_insert_eq. by eexists.
    - by rewrite lookup_insert_ne. }
  destruct a as [u|d|P]; [|apply IH; [done|]; intros y Hy; apply Hl; by right..].
  destruct (inv_usedef _ _ _ _ _ Hinv x (MU u) Ha eq_refl Hxl) as (BB & _ & [MI HMI] & Hop).
  simpl in HMI, Hop. rewrite decide_True in Hop by done. rewrite HMI.
  destruct (nearestClobber_total h (locationOf AA MI) k fuel (use_Operand u) Hfuel Hop)
    as (r & a & -> & Hr & Ha' & Hu).
  simpl. unfold setDefiningAccess, getID_at, deref. rewrite Ha, Ha'. simpl.
  assert (exists i, getID a = Ok i) as [i ->] by (destruct a; [done|by eexists..]).
  simpl.
  destruct (build_inv_set F R c k (with_Accesses h s) x (MU u)
              (MU {| use_Block := use_Block u; use_MemoryInst := use_MemoryInst u;
                     use_Operand := Some r; OptimizedID := i |}))
    as [Hinv1 _]; try done; [by right|].
  simpl in Hinv1.
  replace ({[x]} ∪ R) with R in Hinv1.
  - apply IH; [done|apply Hrest].
  - symmetry. apply subseteq_union_1_L. by apply singleton_subseteq_l.
Qed.

End Optimizer.

(** On a well-formed input the builder returns once its fuel covers the
    phi placement and the longest chain of defining accesses. *)
Lemma buildMemorySSA_total (ReservedID : N) (AA : AliasAnalysis) (DT : DominatorTree)
  (F : Function) :
  well_formed F DT ->
  exists fuel0, forall fuel, (fuel0 <= fuel)%nat ->
    exists s, Builder.buildMemorySSA fuel ReservedID AA DT F = Ok s.
Proof.
  intros (Hnames & Hfrontier & Hsize & Hedges).
  set (s1 := Builder.scan AA F (Builder.MemorySSA_init ReservedID)).
  pose proof (build_inv_scan F 0 1 AA ReservedID) as Hinv1. fold s1 in Hinv1.
  set (fuel1 := (length (Builder.definingBlocks F s1) + blocks_without_phi F s1)%nat).
  destruct (placePHINodes_total F DT 0 1 Hnames Hsize Hfrontier fuel1
              (Builder.definingBlocks F s1) s1) as (s2 & Hs2 & Hinv2); [done|done|].
  rewrite <-(with_Accesses_self s2) in Hinv2.
  assert (wfchain 1 (LiveOnEntryDef s2) (Accesses s2) (LiveOnEntryDef s2)) as Hloe.
  { destruct (inv_loe _ _ _ _ _ Hinv2) as (loe & d & Hloe & Hd & _). simpl in *.
    rewrite Hloe. simpl. rewrite Hd. by left. }
  destruct (renamePass_total F s2 (getRootNode DT) (LiveOnEntryDef s2) (Accesses s2) ∅ ∅
              0 1 Hinv2) as (h3 & Vis & R3 & k3 & Hs3 & Hinv3 & Hk3 & Hlink3 & _);
    [done| |done|lia|].
  { intros x. split; [by intros ?%elem_of_empty|].
    by intros (BB & ?%elem_of_empty & _). }
  rewrite with_Accesses_self in Hs3.
  destruct (markUnreachable_total F s2 Vis (bb_name <$> F) h3 Vis R3 _ k3 Hinv3)
    as (h4 & R4 & Hs4 & Hinv4 & Hlink4 & _); [lia|done|done|done|done|lia|].
  exists (Nat.max fuel1 k3). intros fuel Hfuel.
  unfold Builder.buildMemorySSA. fold s1.
  rewrite (placePHINodes_mono F DT fuel1 fuel _ _ _ ltac:(lia) Hs2). simpl.
  rewrite Hs3. simpl. rewrite Hs4. simpl.
  unfold Builder.optimizeUses.
  change (Accesses (with_Accesses h4 s2)) with h4.
  destruct (optimizeUsesIn_total F AA s2 (with_Accesses h4 s2) eq_refl fuel R4 _ k3
              (concat ((fun B => Builder.accessList (with_Accesses h4 s2) (bb_name B)) <$> F))
              ltac:(lia) h4 Hinv4) as (h5 & -> & _).
  - intros x (l & Hl & Hx)%list_elem_of_In%in_concat.
    apply list_elem_of_In in Hl, Hx.
    apply list_elem_of_fmap in Hl as (B & -> & HB).
    change (Builder.accessList (with_Accesses h4 s2) (bb_name B))
      with (Builder.accessList s2 (bb_name B)) in Hx.
    destruct (listed_not_loe F R4 _ k3 (with_Accesses h4 s2) (bb_name B) x Hinv4 Hx)
      as (Hne & a & Ha & _).
    split; [|split; [done|by exists a]].
    apply Hlink4. exists (bb_name B). split; [|done]. left. by apply list_elem_of_fmap_2.
  - simpl. by eexists.
Qed.

(** ** The lists of the blocks through the phases of the builder *)

Lemma blocks_ok_scan (AA : AliasAnalysis) (F : Function) (ReservedID : N) :
  blocks_ok (Builder.scan AA F (Builder.MemorySSA_init ReservedID)).
Proof. exact (inv_blocks _ _ _ _ _ (build_inv_scan F 0 0 AA ReservedID)). Qed.

Lemma blocks_ok_createMemoryPhi (F : Function) (BB : BasicBlock) (s s' : MemorySSA)
  (l : addr) :
  Builder.createMemoryPhi F BB s = Ok (l, s') -> blocks_ok s -> blocks_ok s'.
Proof.
  unfold Builder.createMemoryPhi. intros H Hok.
  apply bind_Ok in H as (_ & _ & H). simpl in H. injection H as <- <-.
  by apply (blocks_ok_alloc s _
              (MP (MemoryPhi_new (Some BB) (NextID s) (N.of_nat (length (predecessors F BB)))))
              BB (fresh (dom (Accesses s)) :: Builder.accessList s BB)).
Qed.

Lemma blocks_ok_placeInFrontier (F : Function) (Frontier : list BasicBlock) :
  forall s s' New, Builder.placeInFrontier F Frontier s = Ok (s', New) ->
                   blocks_ok s -> blocks_ok s'.
Proof.
  induction Frontier as [|BB Rest IH]; intros s s' New H; simpl in H.
  - by injection H as <- _.
  - destruct (Builder.getMemoryAccess_block s BB); [by eapply IH|].
    apply bind_Ok in H as ([l s1] & H1 & H).
    apply bind_Ok in H as ([s2 New'] & H2 & H). injection H as <- _.
    intros Hok. eapply IH; [done|]. by eapply blocks_ok_createMemoryPhi.
Qed.

Lemma blocks_ok_placePHINodes (F : Function) (DT : DominatorTree) (fuel : nat) :
  forall Work s s', Builder.placePHINodes fuel F DT Work s = Ok s' ->
                    blocks_ok s -> blocks_ok s'.
Proof.
  induction fuel as [|fuel IH]; intros [|BB Rest] s s' H; simpl in H;
    try discriminate; try (by injection H as <-).
  apply bind_Ok in H as ([s1 New] & H1 & H).
  intros Hok. eapply IH; [done|]. by eapply blocks_ok_placeInFrontier.
Qed.

Lemma blocks_ok_renameBlock (BB : BasicBlock) (V : ptr) (s s' : MemorySSA) (Out : ptr) :
  Builder.renameBlock BB V s = Ok (s', Out) -> blocks_ok s -> blocks_ok s'.
Proof.
  unfold Builder.renameBlock. intros H.
  apply bind_Ok in H as ([h Out'] & H1 & H). injection H as <- _.
  apply blocks_ok_update. by eapply same_blocks_renameAccesses.
Qed.

Lemma blocks_ok_renamePass (F : Function) (Root : DomTreeNode) :
  forall V st st', Builder.renamePass F Root V st = Ok st' ->
                   blocks_ok st.1 -> blocks_ok st'.1.
Proof.
  induction Root as [BB Children IH] using DomTreeNode_forall_ind.
  intros V st st' H. simpl in H.
  destruct (decide (BB ∈ st.2)); [by injection H as <-|].
  apply bind_Ok in H as ([s1 Out] & H1 & H).
  apply bind_Ok in H as (h2 & H2 & H).
  intros Hok. apply (blocks_ok_renameBlock _ _ _ _ _ H1) in Hok.
  apply (blocks_ok_update s1 h2) in Hok; [|by eapply same_blocks_fillSuccessorPhis].
  change (with_Accesses h2 s1) with (with_Accesses h2 s1, {[BB]} ∪ st.2).1 in Hok.
  revert H Hok. generalize (with_Accesses h2 s1, {[BB]} ∪ st.2).
  induction IH as [|c cs Hc _ IHcs]; intros st0 H Hok.
  - by injection H as <-.
  - apply bind_Ok in H as (st1 & Hst1 & H).
    eapply IHcs; [done|]. by eapply Hc.
Qed.

Lemma blocks_ok_markUnreachable (F : Function) (Visited : gset BasicBlock)
  (Blocks : list BasicBlock) :
  forall s s', Builder.markUnreachable F Visited Blocks s = Ok s' ->
               blocks_ok s -> blocks_ok s'.
Proof.
  induction Blocks as [|BB Rest IH]; intros s s' H; simpl in H.
  - by injection H as <-.
  - destruct (decide (BB ∈ Visited)); [by eapply IH|].
    apply bind_Ok in H as (s1 & H1 & H).
    intros Hok. eapply IH; [done|].
    unfold Builder.markUnreachableAsLiveOnEntry in H1.
    apply bind_Ok in H1 as (h1 & Hh1 & H1).
    apply bind_Ok in H1 as (h2 & Hh2 & H1). injection H1 as <-.
    apply blocks_ok_update; [|done].
    eapply same_blocks_trans;
      [by eapply same_blocks_forceLiveOnEntry | by eapply same_blocks_fillSuccessorPhis].
Qed.

Lemma blocks_ok_optimizeUses (fuel : nat) (AA : AliasAnalysis) (F : Function)
  (s s' : MemorySSA) :
  Builder.optimizeUses fuel AA F s = Ok s' -> blocks_ok s -> blocks_ok s'.
Proof.
  unfold Builder.optimizeUses. intros H.
  apply bind_Ok in H as (h & Hh & H). injection H as <-.
  apply blocks_ok_update. by eapply same_blocks_optimizeUsesIn.
Qed.

(** In an analysis as built, every block with an entry owns a list without
    repetition, and the list of a block holds the accesses of the block. *)
Lemma blocks_ok_buildMemorySSA (fuel : nat) (ReservedID : N) (AA : AliasAnalysis)
  (DT : DominatorTree) (F : Function) (s : MemorySSA) :
  Builder.buildMemorySSA fuel ReservedID AA DT F = Ok s -> blocks_ok s.
Proof.
  unfold Builder.buildMemorySSA. intros H.
  apply bind_Ok in H as (s2 & H2 & H).
  apply bind_Ok in H as ([s3 Visited] & H3 & H).
  apply bind_Ok in H as (s4 & H4 & H).
  eapply blocks_ok_optimizeUses; [done|].
  eapply blocks_ok_markUnreachable; [done|].
  apply (blocks_ok_renamePass _ _ _ _ _ H3). simpl.
  eapply blocks_ok_placePHINodes; [done|]. apply blocks_ok_scan.
Qed.

(** ** Coverage of the instructions by the builder, continued *)

(** C7. On a well-formed function and dominator tree the build returns
    once it is given enough fuel.  After a build that returned, an
    instruction of the function that the oracle classifies as Ref has
    exactly one access, a [MemoryUse]; one classified as Mod or ModRef has
    exactly one access, a [MemoryDef]; one classified as NoModRef has
    none. *)
Theorem build_covers_instructions (ReservedID : N) (AA : AliasAnalysis)
  (DT : DominatorTree) (F : Function) :
  NoDup (instructions F) ->
  (well_formed F DT ->
   exists fuel0, forall fuel, (fuel0 <= fuel)%nat ->
     exists s, Builder.buildMemorySSA fuel ReservedID AA DT F = Ok s) /\
  (forall fuel s, Builder.buildMemorySSA fuel ReservedID AA DT F = Ok s ->
   forall I, I ∈ instructions F ->
     match getModRefInfo AA I with
     | MRI_NoModRef =>
         Builder.getMemoryAccess s I = None /\ forall l, ~ represents s l I
     | MRI_Ref =>
         exists l u, Builder.getMemoryAccess s I = Some l /\
                     Accesses s !! l = Some (MU u) /\ use_MemoryInst u = Some I /\
                     forall l', represents s l' I -> l' = l
     | MRI_Mod | MRI_ModRef =>
         exists l d, Builder.getMemoryAccess s I = Some l /\
                     Accesses s !! l = Some (MD d) /\ def_MemoryInst d = Some I /\
                     forall l', represents s l' I -> l' = l
     end).
Proof.
  intros Hnd. split; [apply buildMemorySSA_total|].
  intros fuel s Hbuild I HI. apply covers_classified with (instructions F); [|done].
  eapply covers_evolve; [by eapply buildMemorySSA_evolves|].
  apply (covers_scan AA F _ []); [apply covers_init | done].
Qed.

(** ** Block access lists *)


(** * Further properties of the header's code *)

(** ** The optimized marker of a use *)

Lemma eqb_bool_decide (a b : N) : (a =? b) = bool_decide (b = a).
Proof.
  destruct (N.eqb_spec a b) as [->|Hn].
  - by rewrite bool_decide_eq_true_2.
  - by rewrite bool_decide_eq_false_2.
Qed.

(** [isOptimized] on the use [u] at [U]. *)
Lemma isOptimized_at (h : heap) (U : addr) (u : MemoryUse) :
  h !! U = Some (MU u) ->
  isOptimized h U = match use_Operand u with
                    | None => Ok false
                    | Some d => i ← getID_at h (Some d); Ok (bool_decide (i = OptimizedID u))
                    end.
Proof.
  intros HU. unfold isOptimized, deref. simpl. rewrite HU. simpl.
  destruct (use_Operand u) as [d|]; [|done].
  destruct (getID_at h (Some d)) as [i|f]; simpl; [|done]. by rewrite eqb_bool_decide.
Qed.

(** Replacing a use by a use changes no id: a use has none. *)
Lemma getID_at_insert_use (h : heap) (U : addr) (u u' : MemoryUse) (p : ptr) :
  h !! U = Some (MU u) -> getID_at (<[U := MU u']> h) p = getID_at h p.
Proof.
  intros HU. destruct p as [d|]; [|done]. unfold getID_at, deref. simpl.
  destruct (decide (d = U)) as [->|Hne].
  - by rewrite lookup_insert_eq, HU.
  - by rewrite lookup_insert_ne.
Qed.

(** X1. [resetOptimized] leaves the use with its block, instruction and
    defining access and touches no other object; afterwards [isOptimized]
    is false, except when the defining access carries the id
    [INVALID_MEMORYACCESS_ID], which the cleared marker equals. *)
Theorem resetOptimized_forgets_marker (h : heap) (U : addr) (u : MemoryUse) :
  h !! U = Some (MU u) ->
  exists h' u',
    resetOptimized h U = Ok h' /\ h' !! U = Some (MU u') /\
    use_Block u' = use_Block u /\ use_MemoryInst u' = use_MemoryInst u /\
    use_Operand u' = use_Operand u /\
    (forall l, l <> U -> h' !! l = h !! l) /\
    (use_Operand u = None -> isOptimized h' U = Ok false) /\
    (forall d i, use_Operand u = Some d -> getID_at h (Some d) = Ok i ->
       isOptimized h' U = Ok (bool_decide (i = INVALID_MEMORYACCESS_ID))).
Proof.
  intros HU. eexists _, _. split.
  { unfold resetOptimized, deref. simpl. rewrite HU. simpl. reflexivity. }
  split; [by rewrite lookup_insert_eq|]. simpl.
  split; [done|]. split; [done|]. split; [done|].
  split; [by intros l Hl; rewrite lookup_insert_ne|].
  split.
  - intros HD. erewrite isOptimized_at by by rewrite lookup_insert_eq. simpl. by rewrite HD.
  - intros d i HD Hid. erewrite isOptimized_at by by rewrite lookup_insert_eq. simpl.
    rewrite HD. rewrite (getID_at_insert_use h U u) by done. by rewrite Hid.
Qed.

(** X2. A use constructed at a fresh address has the defining access it was
    given and the marker [0]: it is not optimized, except when its defining
    access carries the id [INVALID_MEMORYACCESS_ID]. *)
Theorem MemoryUse_new_not_optimized (h : heap) (U : addr) (DMA : ptr)
  (MI : option Instruction) (BB : option BasicBlock) :
  h !! U = None ->
  (a ← deref (<[U := MU (MemoryUse_new DMA MI BB)]> h) (Some U); getDefiningAccess a)
  = Ok DMA /\
  (DMA = None -> isOptimized (<[U := MU (MemoryUse_new DMA MI BB)]> h) U = Ok false) /\
  (forall i, getID_at h DMA = Ok i ->
     isOptimized (<[U := MU (MemoryUse_new DMA MI BB)]> h) U
     = Ok (bool_decide (i = INVALID_MEMORYACCESS_ID))).
Proof.
  intros HU. split; [|split].
  - unfold deref. simpl. by rewrite lookup_insert_eq.
  - intros ->. erewrite isOptimized_at by by rewrite lookup_insert_eq. done.
  - intros i Hid. erewrite isOptimized_at by by rewrite lookup_insert_eq. simpl.
    destruct DMA as [d|]; [|discriminate]. unfold getID_at, deref in *. simpl in *.
    destruct (decide (d = U)) as [->|Hne]; [by rewrite HU in Hid|].
    rewrite lookup_insert_ne by done.
    destruct (h !! d) as [a|]; simpl in *; [|discriminate]. by rewrite Hid.
Qed.

(** X3. [setDefiningAccess(DMA)] with [Optimized] false returns for every
    [DMA], null included, installs it and keeps the marker: afterwards
    [isOptimized] is true exactly when [DMA] carries the id recorded
    earlier. *)
Theorem setDefiningAccess_plain_keeps_marker (h : heap) (U : addr) (u : MemoryUse)
  (DMA : ptr) :
  h !! U = Some (MU u) ->
  exists h' u',
    setDefiningAccess h U DMA false = Ok h' /\ h' !! U = Some (MU u') /\
    use_Operand u' = DMA /\ OptimizedID u' = OptimizedID u /\
    (forall l, l <> U -> h' !! l = h !! l) /\
    (DMA = None -> isOptimized h' U = Ok false) /\
    (forall i, getID_at h DMA = Ok i ->
       isOptimized h' U = Ok (bool_decide (i = OptimizedID u))).
Proof.
  intros HU. eexists _, _. split.
  { unfold setDefiningAccess, deref. simpl. rewrite HU. simpl. reflexivity. }
  split; [by rewrite lookup_insert_eq|]. simpl.
  split; [done|]. split; [done|].
  split; [by intros l Hl; rewrite lookup_insert_ne|].
  split.
  - intros ->. erewrite isOptimized_at by by rewrite lookup_insert_eq. done.
  - intros i Hid. erewrite isOptimized_at by by rewrite lookup_insert_eq. simpl.
    destruct DMA as [d|]; [|discriminate].
    rewrite (getID_at_insert_use h U u) by done. by rewrite Hid.
Qed.

(** X4. A [MemoryUse] has no id.  Recording an optimization needs the id of
    the new defining access, so [setDefiningAccess(DMA, true)] dereferences
    a null [DMA], reaches [llvm_unreachable] when [DMA] is a use, and
    returns when it is a def or a phi; [isOptimized] reaches
    [llvm_unreachable] on a use whose defining access is a use. *)
Theorem optimized_marker_needs_an_id (h : heap) (U : addr) (u : MemoryUse) :
  h !! U = Some (MU u) ->
  setDefiningAccess h U None true = Fault NullDereference /\
  (forall d a, h !! d = Some a ->
     if isa_MemoryUse a
     then setDefiningAccess h U (Some d) true = Fault Unreachable
     else is_Ok (setDefiningAccess h U (Some d) true)) /\
  (forall d u', use_Operand u = Some d -> h !! d = Some (MU u') ->
     isOptimized h U = Fault Unreachable).
Proof.
  intros HU. split; [|split].
  - unfold setDefiningAccess, deref. simpl. by rewrite HU.
  - intros d a Hd. unfold setDefiningAccess, getID_at, deref. simpl. rewrite HU. simpl.
    rewrite Hd. simpl. destruct a; simpl; by eauto using mk_is_Some || by eexists.
  - intros d u' HD Hd. unfold isOptimized, getID_at, deref. simpl. rewrite HU. simpl.
    rewrite HD. simpl. by rewrite Hd.
Qed.

(** ** Looking an incoming block up *)

Lemma first_index_Some {A} `{EqDecision A} (x : A) (l : list A) (I i : N) :
  first_index x l I = Some i <->
  exists k, i = I + N.of_nat k /\ l !! k = Some x /\
            forall j, (j < k)%nat -> l !! j <> Some x.
Proof.
  revert I. induction l as [|y l IH]; intros I; simpl.
  - split; [discriminate|]. by intros (k & _ & Hk & _).
  - destruct (decide (y = x)) as [->|Hne].
    + split.
      * intros [= <-]. exists 0%nat. split; [lia|]. split; [done|]. lia.
      * intros (k & -> & Hk & Hfirst). destruct k as [|k]; [f_equal; lia|].
        by destruct (Hfirst 0%nat ltac:(lia)).
    + rewrite IH. split.
      * intros (k & -> & Hk & Hfirst). exists (S k). split; [lia|]. split; [done|].
        intros [|j] Hj; simpl; [congruence|]. apply Hfirst. lia.
      * intros (k & -> & Hk & Hfirst). destruct k as [|k]; [simpl in Hk; congruence|].
        exists k. split; [lia|]. split; [done|].
        intros j Hj. apply (Hfirst (S j)). lia.
Qed.

Lemma first_index_None {A} `{EqDecision A} (x : A) (l : list A) (I : N) :
  first_index x l I = None <-> x ∉ l.
Proof.
  revert I. induction l as [|y l IH]; intros I; simpl.
  - split; [intros _; apply not_elem_of_nil | done].
  - rewrite not_elem_of_cons. destruct (decide (y = x)) as [->|Hne].
    + split; [discriminate | by intros [? _]].
    + rewrite IH. split; [intros ?; split; [congruence|done] | by intros [_ ?]].
Qed.

Lemma first_index_app {A} `{EqDecision A} (x : A) (l l' : list A) (I : N) :
  first_index x (l ++ l') I
  = match first_index x l I with
    | Some i => Some i
    | None => first_index x l' (I + N.of_nat (length l))
    end.
Proof.
  revert I. induction l as [|y l IH]; intros I; simpl.
  - f_equal. lia.
  - destruct (decide (y = x)); [done|]. rewrite IH.
    destruct (first_index x l (I + 1)); [done|]. f_equal. lia.
Qed.

(** The loop of [getBasicBlockIndex] over the slots [I], ..., [I + n - 1]. *)
Lemma getBasicBlockIndex_from_first_index (P : MemoryPhi) (BB : option BasicBlock) :
  forall n I, (N.to_nat I + n <= length (BlockList P))%nat ->
    getBasicBlockIndex_from P BB I n
    = Ok (first_index BB (take n (drop (N.to_nat I) (BlockList P))) I).
Proof.
  induction n as [|n IH]; intros I Hn; simpl; [done|].
  unfold getIncomingBlock.
  destruct (lookup_lt_is_Some_2 (BlockList P) (N.to_nat I)) as [b Hb]; [lia|].
  rewrite Hb. simpl. rewrite (drop_S _ _ _ Hb). simpl.
  destruct (decide (b = BB)); [done|].
  rewrite IH by lia. by replace (N.to_nat (I + 1)) with (S (N.to_nat I)) by lia.
Qed.

Lemma getBasicBlockIndex_first_index (P : MemoryPhi) (BB : option BasicBlock) :
  wf_phi P -> getBasicBlockIndex P BB = Ok (first_index BB (incoming_blocks P) 0).
Proof.
  intros (Hlen & Hblk & Hle & Hres & Hbits). unfold getBasicBlockIndex.
  rewrite getBasicBlockIndex_from_first_index by (unfold getNumOperands; simpl; lia).
  done.
Qed.

Lemma incoming_blocks_lookup (P : MemoryPhi) (I : N) (b : option BasicBlock) :
  wf_phi P -> I < getNumIncomingValues P ->
  getIncomingBlock P I = Ok b <-> incoming_blocks P !! N.to_nat I = Some b.
Proof.
  intros (Hlen & Hblk & Hle & Hres & Hbits) HI.
  unfold getNumIncomingValues in HI. unfold getIncomingBlock, incoming_blocks.
  rewrite lookup_take_lt by lia.
  destruct (BlockList P !! N.to_nat I); split; congruence.
Qed.

Lemma incoming_values_lookup (P : MemoryPhi) (I : N) :
  wf_phi P -> I < getNumIncomingValues P ->
  exists v, getIncomingValue P I = Ok v /\ incoming_values P !! N.to_nat I = Some v.
Proof.
  intros (Hlen & Hblk & Hle & Hres & Hbits) HI.
  unfold getNumIncomingValues in HI.
  unfold getIncomingValue, getOperand, incoming_values.
  rewrite check_Ok by by apply N.ltb_lt. simpl.
  rewrite lookup_take_lt by lia.
  destruct (lookup_lt_is_Some_2 (OperandList P) (N.to_nat I)) as [v ->];
    [unfold getNumOperands in *; lia|]. by exists v.
Qed.

Lemma length_incoming_blocks (P : MemoryPhi) :
  wf_phi P -> length (incoming_blocks P) = N.to_nat (getNumIncomingValues P).
Proof.
  intros (Hlen & Hblk & Hle & Hres & Hbits). unfold incoming_blocks.
  rewrite length_take. unfold getNumIncomingValues, getNumOperands. lia.
Qed.

Lemma length_incoming_values (P : MemoryPhi) :
  wf_phi P -> length (incoming_values P) = N.to_nat (getNumIncomingValues P).
Proof.
  intros (Hlen & Hblk & Hle & Hres & Hbits). unfold incoming_values.
  rewrite length_take. unfold getNumIncomingValues, getNumOperands. lia.
Qed.

(** X5. [getBasicBlockIndex(BB)] returns the least index among the incoming
    entries whose block is [BB], and -1 when no incoming entry has that
    block; it reads no slot outside the entries in use. *)
Theorem getBasicBlockIndex_first_match (P : MemoryPhi) (BB : option BasicBlock) :
  wf_phi P ->
  exists r,
    getBasicBlockIndex P BB = Ok r /\
    match r with
    | Some i =>
        i < getNumIncomingValues P /\ getIncomingBlock P i = Ok BB /\
        forall j, j < i -> getIncomingBlock P j <> Ok BB
    | None =>
        forall j, j < getNumIncomingValues P -> getIncomingBlock P j <> Ok BB
    end.
Proof.
  intros Hwf. eexists. split; [by apply getBasicBlockIndex_first_index|].
  pose proof (length_incoming_blocks P Hwf) as Hlen.
  destruct (first_index BB (incoming_blocks P) 0) as [i|] eqn:E.
  - apply first_index_Some in E as (k & -> & Hk & Hfirst).
    pose proof (lookup_lt_Some _ _ _ Hk) as Hlt.
    assert (0 + N.of_nat k < getNumIncomingValues P) as Hi by lia.
    split; [done|]. split.
    + apply incoming_blocks_lookup; [done..|].
      by replace (N.to_nat (0 + N.of_nat k)) with k by lia.
    + intros j Hj Hb. apply incoming_blocks_lookup in Hb; [|done|lia].
      apply (Hfirst (N.to_nat j)); [lia|done].
  - apply first_index_None in E. intros j Hj Hb.
    apply incoming_blocks_lookup in Hb; [|done..].
    apply E. by eapply list_elem_of_lookup_2.
Qed.

(** X6. [getIncomingValueForBlock(BB)] is the incoming value paired with the
    first incoming entry whose block is [BB]; a later entry of the same
    block is never returned, and a block that is not incoming trips the
    assertion. *)
Theorem getIncomingValueForBlock_first_match (P : MemoryPhi) (BB : option BasicBlock) :
  wf_phi P ->
  (forall i, i < getNumIncomingValues P -> getIncomingBlock P i = Ok BB ->
     (forall j, j < i -> getIncomingBlock P j <> Ok BB) ->
     getIncomingValueForBlock P BB = getIncomingValue P i /\
     is_Ok (getIncomingValue P i)) /\
  ((forall j, j < getNumIncomingValues P -> getIncomingBlock P j <> Ok BB) ->
   getIncomingValueForBlock P BB = Fault AssertionFailure).
Proof.
  intros Hwf. pose proof (length_incoming_blocks P Hwf) as Hlen.
  unfold getIncomingValueForBlock. rewrite getBasicBlockIndex_first_index by done.
  simpl. split.
  - intros i Hi Hb Hfirst.
    assert (first_index BB (incoming_blocks P) 0 = Some i) as ->.
    { apply first_index_Some. exists (N.to_nat i). split; [lia|]. split.
      - by apply incoming_blocks_lookup.
      - intros j Hj Hbj. apply (Hfirst (N.of_nat j)); [lia|].
        apply incoming_blocks_lookup; [done|lia|]. by rewrite Nat2N.id. }
    split; [done|]. destruct (incoming_values_lookup P i Hwf Hi) as (v & -> & _).
    by exists v.
  - intros Hnone.
    assert (first_index BB (incoming_blocks P) 0 = None) as ->; [|done].
    apply first_index_None. intros Hin.
    apply list_elem_of_lookup_1 in Hin as (k & Hk).
    pose proof (lookup_lt_Some _ _ _ Hk) as Hlt.
    apply (Hnone (N.of_nat k)); [lia|].
    apply incoming_blocks_lookup; [done|lia|]. by rewrite Nat2N.id.
Qed.

(** ** Appending and looking up *)

(** What a call of [addIncoming] that returns does to the two ranges. *)
Lemma addIncoming_lists (P P' : MemoryPhi) (V : ptr) (BB : option BasicBlock) :
  wf_phi P -> addIncoming P V BB = Ok P' ->
  incoming_values P' = incoming_values P ++ [V] /\
  incoming_blocks P' = incoming_blocks P ++ [BB] /\
  phi_ID P' = phi_ID P /\ phi_Block P' = phi_Block P /\
  ReservedSpace P' = (if getNumOperands P =? ReservedSpace P
                      then N.max (getNumOperands P + getNumOperands P / 2) 2
                      else ReservedSpace P) /\
  wf_phi P'.
Proof.
  intros Hwf H.
  destruct (addIncoming_Ok_inv P P' V BB Hwf H) as ([v ->] & [bb ->] & Hn).
  destruct (addIncoming_nonnull P v bb Hwf Hn) as (P'' & H' & _ & _ & _ & _ & Hwf').
  rewrite H in H'. injection H' as <-.
  rewrite (addIncoming_unfold P v bb Hwf Hn) in H. injection H as <-.
  destruct Hwf as (Hlen & Hblk & Hle & Hres & Hbits).
  unfold getNumIncomingValues in Hn.
  assert (forall A (l : list (option A)) (x : option A),
            N.of_nat (length l) = ReservedSpace P ->
            take (N.to_nat (getNumOperands P + 1))
                 (<[N.to_nat (getNumOperands P) := x]> (slots_for_append P l))
            = take (N.to_nat (getNumOperands P)) l ++ [x]) as Happend.
  { intros A l x Hl.
    assert (N.to_nat (getNumOperands P) < length (slots_for_append P l))%nat as Hfit.
    { destruct (slots_for_append_length P l Hl Hle) as [?|[? ->]];
        unfold getNumOperands in *; lia. }
    replace (N.to_nat (getNumOperands P + 1)) with (S (N.to_nat (getNumOperands P)))
      by lia.
    rewrite (take_S_r _ _ x) by by rewrite list_lookup_insert_eq.
    rewrite take_insert_ge by lia. f_equal.
    unfold slots_for_append. destruct (_ =? _); [|done].
    rewrite take_app_le by (rewrite length_take; unfold getNumOperands in *; lia).
    by rewrite take_take, Nat.min_id. }
  unfold incoming_values, incoming_blocks. simpl.
  rewrite !Happend by (unfold getNumOperands in *; lia). done.
Qed.

(** X7. After [addIncoming(V, BB)]: a block other than [BB] is found where
    it was; [BB] is found at its earlier index when the phi already had an
    entry for it, which keeps answering [getIncomingValueForBlock], and at
    the new last index, with [V] as its value, when it had none. *)
Theorem addIncoming_then_lookup (P P' : MemoryPhi) (V : ptr) (BB : option BasicBlock) :
  wf_phi P -> addIncoming P V BB = Ok P' ->
  (forall B, B <> BB -> getBasicBlockIndex P' B = getBasicBlockIndex P B) /\
  (forall i, getBasicBlockIndex P BB = Ok (Some i) ->
     getBasicBlockIndex P' BB = Ok (Some i) /\
     getIncomingValueForBlock P' BB = getIncomingValueForBlock P BB) /\
  (getBasicBlockIndex P BB = Ok None ->
     getBasicBlockIndex P' BB = Ok (Some (getNumIncomingValues P)) /\
     getIncomingValueForBlock P' BB = Ok V).
Proof.
  intros Hwf H.
  destruct (addIncoming_lists P P' V BB Hwf H) as (Hvs & Hbs & _ & _ & _ & Hwf').
  pose proof (length_incoming_blocks P Hwf) as Hlen.
  pose proof (length_incoming_values P Hwf) as Hlenv.
  assert (forall i, i < getNumIncomingValues P ->
            getIncomingValue P' i = getIncomingValue P i) as Hold.
  { intros i Hi.
    assert (i < getNumIncomingValues P') as Hi'.
    { pose proof (length_incoming_values P' Hwf') as Hl'.
      rewrite Hvs, length_app in Hl'. simpl in Hl'. lia. }
    destruct (incoming_values_lookup P i Hwf Hi) as (v & -> & Hv).
    destruct (incoming_values_lookup P' i Hwf' Hi') as (v' & -> & Hv').
    rewrite Hvs, lookup_app_l in Hv' by lia. congruence. }
  assert (forall B, getBasicBlockIndex P' B
                    = Ok match first_index B (incoming_blocks P) 0 with
                         | Some i => Some i
                         | None => if decide (BB = B)
                                   then Some (getNumIncomingValues P) else None
                         end) as Hfind.
  { intros B. rewrite getBasicBlockIndex_first_index, Hbs, first_index_app by done.
    simpl. replace (0 + N.of_nat (length (incoming_blocks P)))
             with (getNumIncomingValues P) by lia. done. }
  split; [|split].
  - intros B HB. rewrite Hfind, getBasicBlockIndex_first_index by done.
    destruct (first_index B (incoming_blocks P) 0); [done|].
    by rewrite decide_False.
  - intros i Hi. rewrite getBasicBlockIndex_first_index in Hi by done.
    injection Hi as Hi.
    unfold getIncomingValueForBlock.
    rewrite Hfind, getBasicBlockIndex_first_index, Hi by done. simpl.
    split; [done|].
    apply first_index_Some in Hi as (k & -> & Hk & _).
    apply lookup_lt_Some in Hk. apply Hold. lia.
  - intros Hnone. rewrite getBasicBlockIndex_first_index in Hnone by done.
    injection Hnone as Hnone.
    unfold getIncomingValueForBlock.
    rewrite Hfind, Hnone, decide_True by done. simpl.
    split; [done|].
    assert (getNumIncomingValues P < getNumIncomingValues P') as Hi'.
    { pose proof (length_incoming_values P' Hwf') as Hl'.
      rewrite Hvs, length_app in Hl'. simpl in Hl'. lia. }
    destruct (incoming_values_lookup P' _ Hwf' Hi') as (v' & -> & Hv').
    rewrite Hvs, lookup_app_r in Hv' by lia.
    replace (N.to_nat (getNumIncomingValues P) - length (incoming_values P))%nat
      with 0%nat in Hv' by lia.
    simpl in Hv'. congruence.
Qed.

(** Filling a phi by a loop of [addIncoming]. *)
Lemma addIncomings_lists (l : list (addr * BasicBlock)) :
  forall P, wf_phi P ->
    getNumIncomingValues P + N.of_nat (length l) < 2 ^ NumUserOperandsBits ->
    exists P',
      addIncomings P (map (fun e => (Some e.1, Some e.2)) l) = Ok P' /\
      incoming_values P' = incoming_values P ++ (Some <$> l.*1) /\
      incoming_blocks P' = incoming_blocks P ++ (Some <$> l.*2) /\
      phi_ID P' = phi_ID P /\ phi_Block P' = phi_Block P /\
      (getNumIncomingValues P + N.of_nat (length l) <= ReservedSpace P ->
       ReservedSpace P' = ReservedSpace P) /\
      wf_phi P'.
Proof.
  induction l as [|[v bb] l IH]; intros P Hwf Hn; simpl.
  - exists P. by rewrite !app_nil_r.
  - simpl in Hn.
    destruct (addIncoming_nonnull P v bb Hwf) as (P1 & H1 & Hn1 & _); [lia|].
    destruct (addIncoming_lists P P1 _ _ Hwf H1) as (Hvs & Hbs & Hid & Hblk & Hres & Hwf1).
    rewrite H1. simpl.
    destruct (IH P1 Hwf1) as (P' & H' & Hvs' & Hbs' & Hid' & Hblk' & Hres' & Hwf');
      [lia|].
    exists P'. split; [done|].
    rewrite Hvs', Hbs', Hvs, Hbs, <- !app_assoc. simpl.
    split; [done|]. split; [done|]. split; [congruence|]. split; [congruence|].
    split; [|done].
    intros Hfit. unfold getNumIncomingValues in *.
    destruct (N.eqb_spec (getNumOperands P) (ReservedSpace P)) as [E|E]; [lia|].
    rewrite Hres'; [done|]. lia.
Qed.

(** X8. A phi constructed for [NumPreds] predecessors and then filled by
    [addIncoming], one call per entry of [l], has exactly the entries of
    [l], in order, and the id and block it was constructed with; when [l]
    has at most [NumPreds] entries the operand array is never regrown. *)
Theorem MemoryPhi_new_filled (BB : option BasicBlock) (Ver NumPreds : N)
  (l : list (addr * BasicBlock)) :
  NumPreds < 2 ^ UINT_WIDTH ->
  N.of_nat (length l) < 2 ^ NumUserOperandsBits ->
  exists P,
    addIncomings (MemoryPhi_new BB Ver NumPreds) (map (fun e => (Some e.1, Some e.2)) l)
    = Ok P /\
    wf_phi P /\
    getNumIncomingValues P = N.of_nat (length l) /\
    incoming_values P = Some <$> l.*1 /\
    incoming_blocks P = Some <$> l.*2 /\
    getID (MP P) = Ok Ver /\ getBlock (MP P) = BB /\
    (N.of_nat (length l) <= NumPreds -> ReservedSpace P = NumPreds).
Proof.
  intros HN Hl.
  assert (wf_phi (MemoryPhi_new BB Ver NumPreds)) as Hwf.
  { unfold wf_phi. simpl. rewrite !length_replicate. word_lia. }
  destruct (addIncomings_lists l _ Hwf) as (P & H & Hvs & Hbs & Hid & Hblk & Hres & Hwf');
    [simpl; lia|].
  exists P. split; [done|]. split; [done|].
  split.
  { pose proof (length_incoming_values P Hwf') as Hlen.
    rewrite Hvs in Hlen. simpl in Hlen. rewrite !length_fmap in Hlen. lia. }
  split; [done|]. split; [done|]. simpl.
  split; [by rewrite Hid|]. split; [done|]. exact Hres.
Qed.

(** X18. [addIncoming] regrows the operand array only when every reserved
    slot is in use, and then to [max(n + n / 2, 2)] slots for [n] entries,
    a sum that does not wrap; the capacity never shrinks and has room for
    the entry that was added. *)
Theorem addIncoming_capacity (P P' : MemoryPhi) (V : ptr) (BB : option BasicBlock) :
  wf_phi P -> addIncoming P V BB = Ok P' ->
  (getNumIncomingValues P < ReservedSpace P -> ReservedSpace P' = ReservedSpace P) /\
  (getNumIncomingValues P = ReservedSpace P ->
     ReservedSpace P'
     = N.max (getNumIncomingValues P + getNumIncomingValues P / 2) 2) /\
  ReservedSpace P <= ReservedSpace P' /\
  getNumIncomingValues P' <= ReservedSpace P'.
Proof.
  intros Hwf H.
  destruct (addIncoming_lists P P' V BB Hwf H) as (_ & _ & _ & _ & Hres & Hwf').
  destruct Hwf' as (_ & _ & Hle' & _). destruct Hwf as (_ & _ & Hle & _).
  pose proof (grow_bounds (getNumOperands P)) as [Hgrow _].
  unfold getNumIncomingValues, getNumOperands in *. rewrite Hres in Hle' |- *.
  destruct (N.eqb_spec (NumUserOperands P) (ReservedSpace P)) as [E|E];
    (split; [lia|]); (split; [done || lia|]); split; lia || done.
Qed.

(** ** The setters *)

Lemma take_insert_commute {A} (l : list A) (n i : nat) (x : A) :
  take n (<[i := x]> l) = <[i := x]> (take n l).
Proof.
  destruct (decide (i < n)%nat).
  - by rewrite take_insert_lt.
  - rewrite take_insert_ge by lia.
    by rewrite list_insert_ge by (rewrite length_take; lia).
Qed.

Lemma setIncomingValue_Ok (P P' : MemoryPhi) (I : N) (V : ptr) :
  setIncomingValue P I V = Ok P' ->
  is_Some V /\ I < getNumIncomingValues P /\
  incoming_values P' = <[N.to_nat I := V]> (incoming_values P) /\
  incoming_blocks P' = incoming_blocks P /\
  getNumIncomingValues P' = getNumIncomingValues P /\
  getID (MP P') = getID (MP P) /\ getBlock (MP P') = getBlock (MP P) /\
  (wf_phi P -> wf_phi P').
Proof.
  intros H. unfold setIncomingValue, setOperand in H.
  apply bind_Ok in H as (? & HV & H). apply check_Ok_inv, bool_decide_eq_true in HV.
  apply bind_Ok in H as (u & Hc & H). apply check_Ok_inv, N.ltb_lt in Hc.
  destruct (_ <? _)%nat; [|discriminate]. injection H as <-.
  unfold incoming_values, incoming_blocks, getNumIncomingValues, getNumOperands, wf_phi.
  simpl. rewrite take_insert_commute, length_insert. done.
Qed.

Lemma setIncomingBlock_Ok (P P' : MemoryPhi) (I : N) (BB : option BasicBlock) :
  setIncomingBlock P I BB = Ok P' ->
  is_Some BB /\
  incoming_values P' = incoming_values P /\
  incoming_blocks P' = <[N.to_nat I := BB]> (incoming_blocks P) /\
  (getNumIncomingValues P <= I -> incoming_blocks P' = incoming_blocks P) /\
  getNumIncomingValues P' = getNumIncomingValues P /\
  getID (MP P') = getID (MP P) /\ getBlock (MP P') = getBlock (MP P) /\
  (wf_phi P -> wf_phi P').
Proof.
  intros H. unfold setIncomingBlock in H.
  apply bind_Ok in H as (? & HB & H). apply check_Ok_inv, bool_decide_eq_true in HB.
  destruct (_ <? _)%nat; [|discriminate]. injection H as <-.
  unfold incoming_values, incoming_blocks, getNumIncomingValues, getNumOperands, wf_phi.
  simpl. rewrite take_insert_commute, length_insert.
  split; [done|]. split; [done|]. split; [done|]. split; [|done].
  intros HI. apply list_insert_ge. rewrite length_take. lia.
Qed.

(** X9. A setter that returns changes one slot of one range: after
    [setIncomingValue(I, V)] the blocks are as before and the values differ
    at [I] only; after [setIncomingBlock(I, BB)] the values are as before
    and the blocks differ at [I] only, and not at all when [I] is not the
    index of an incoming entry, which [setIncomingBlock] does not check.
    The number of entries, the id, the block and the representation
    invariant are kept. *)
Theorem phi_setters_frame (P P' : MemoryPhi) (I : N) :
  (forall V, setIncomingValue P I V = Ok P' ->
     I < getNumIncomingValues P /\
     incoming_values P' = <[N.to_nat I := V]> (incoming_values P) /\
     incoming_blocks P' = incoming_blocks P /\
     getNumIncomingValues P' = getNumIncomingValues P /\
     getID (MP P') = getID (MP P) /\ getBlock (MP P') = getBlock (MP P) /\
     (wf_phi P -> wf_phi P')) /\
  (forall BB, setIncomingBlock P I BB = Ok P' ->
     incoming_values P' = incoming_values P /\
     incoming_blocks P' = <[N.to_nat I := BB]> (incoming_blocks P) /\
     (getNumIncomingValues P <= I -> incoming_blocks P' = incoming_blocks P) /\
     getNumIncomingValues P' = getNumIncomingValues P /\
     getID (MP P') = getID (MP P) /\ getBlock (MP P') = getBlock (MP P) /\
     (wf_phi P -> wf_phi P')).
Proof.
  split.
  - intros V H. by apply setIncomingValue_Ok in H as (_ & H).
  - intros BB H. by apply setIncomingBlock_Ok in H as (_ & H).
Qed.

(** X19. Whatever sequence of [addIncoming], [setIncomingValue] and
    [setIncomingBlock] calls has returned on a constructed phi, the phi
    satisfies the representation invariant, it has as many incoming blocks
    as incoming values, and none of them is null. *)
Theorem phi_built_invariant (P : MemoryPhi) :
  phi_built P ->
  wf_phi P /\
  length (incoming_values P) = length (incoming_blocks P) /\
  Forall is_Some (incoming_values P) /\ Forall is_Some (incoming_blocks P).
Proof.
  intros Hb.
  assert (wf_phi P /\ Forall is_Some (incoming_values P) /\
          Forall is_Some (incoming_blocks P)) as (Hwf & Hvs & Hbs).
  { induction Hb as [BB Ver NumPreds HN | P V BB P' _ (Hwf & Hvs & Hbs) H
                    | P I V P' _ (Hwf & Hvs & Hbs) H | P I BB P' _ (Hwf & Hvs & Hbs) H].
    - split; [|by split; constructor].
      unfold wf_phi. simpl. rewrite !length_replicate. word_lia.
    - destruct (addIncoming_Ok_inv P P' V BB Hwf H) as (HV & HB & _).
      destruct (addIncoming_lists P P' V BB Hwf H) as (-> & -> & _ & _ & _ & Hwf').
      split; [done|]. split; apply Forall_app; split; by repeat constructor.
    - apply setIncomingValue_Ok in H as (HV & _ & -> & -> & _ & _ & _ & Hwf').
      split; [by apply Hwf'|]. split; [|done]. by apply Forall_insert.
    - apply setIncomingBlock_Ok in H as (HB & -> & -> & _ & _ & _ & _ & Hwf').
      split; [by apply Hwf'|]. split; [done|]. by apply Forall_insert. }
  split; [done|]. split; [|done].
  by rewrite length_incoming_values, length_incoming_blocks.
Qed.

(** ** The iterators *)

Lemma def_iterator_eq_end (X : memoryaccess_def_iterator) :
  def_iterator_eq X defs_end = true <-> Access X = None.
Proof.
  destruct X as [a n]. unfold def_iterator_eq. simpl.
  rewrite andb_true_iff, bool_decide_eq_true, orb_true_iff, negb_true_iff.
  rewrite bool_decide_eq_false, N.eqb_eq. split.
  - by intros [-> _].
  - intros ->. split; [done|]. left. by intros [? ?].
Qed.

(** X10. [operator==] of the iterator over defining accesses is an
    equivalence relation; it compares the argument numbers only while the
    access is not null, so an iterator is equal to [defs_end()] exactly when
    its access is null. *)
Theorem def_iterator_eq_equivalence :
  (forall X, def_iterator_eq X X = true) /\
  (forall X Y, def_iterator_eq X Y = def_iterator_eq Y X) /\
  (forall X Y Z, def_iterator_eq X Y = true -> def_iterator_eq Y Z = true ->
                 def_iterator_eq X Z = true) /\
  (forall X, def_iterator_eq X defs_end = true <-> Access X = None).
Proof.
  unfold def_iterator_eq. split; [|split; [|split]].
  - intros [[a|] n]; simpl; [|done].
    rewrite bool_decide_eq_true_2 by done. simpl. apply N.eqb_refl.
  - intros [a n] [b m]. simpl.
    destruct (decide (a = b)) as [->|Hne].
    + rewrite !bool_decide_eq_true_2 by done. simpl. by rewrite N.eqb_sym.
    + rewrite (bool_decide_eq_false_2 (a = b)), (bool_decide_eq_false_2 (b = a));
        done.
  - intros [a n] [b m] [c k]. simpl.
    rewrite !andb_true_iff, !bool_decide_eq_true, !orb_true_iff, !negb_true_iff.
    rewrite !bool_decide_eq_false, !N.eqb_eq.
    intros [-> H1] [-> H2]. split; [done|].
    destruct H1 as [H1| ->]; [by left|]. done.
  - apply def_iterator_eq_end.
Qed.

(** X11. The range from [defs_begin()] to [defs_end()] is never empty: a
    walk over it yields at least one element or fails.  On a phi without
    incoming values it fails at the first dereference, which asks for
    operand 0. *)
Theorem defs_never_empty (h : heap) (A : addr) (fuel : nat) :
  defs fuel h A <> Ok [] /\
  defs_with_blocks fuel h A <> Ok [] /\
  forall P, h !! A = Some (MP P) -> getNumIncomingValues P = 0 ->
    defs (S fuel) h A = Fault AssertionFailure.
Proof.
  assert (forall B (obs : heap -> memoryaccess_def_iterator -> result B),
            def_range obs fuel h (defs_begin (Some A)) defs_end <> Ok []) as Hne.
  { intros B obs. destruct fuel as [|fuel]; simpl; [done|].
    destruct (obs h _); simpl; [|done].
    destruct (def_iterator_next h _); simpl; [|done].
    destruct (def_range obs fuel h _ _); simpl; done. }
  split; [apply Hne|]. split; [apply Hne|].
  intros P HA Hn. unfold defs. simpl. unfold def_iterator_get, deref. simpl.
  rewrite HA. simpl. unfold getIncomingValue, getOperand.
  unfold getNumIncomingValues in Hn. by rewrite Hn.
Qed.

(** X12. Past the end nothing can be read: on an iterator equal to
    [defs_end()], [operator*], [operator++] and [getPhiArgBlock] each trip
    an assertion; so does [getPhiArgBlock] on an iterator over a use or a
    def. *)
Theorem def_iterator_asserts_at_end (h : heap) (it : memoryaccess_def_iterator) :
  (def_iterator_eq it defs_end = true ->
     def_iterator_get h it = Fault AssertionFailure /\
     def_iterator_next h it = Fault AssertionFailure /\
     getPhiArgBlock h it = Fault AssertionFailure) /\
  (forall l a, Access it = Some l -> h !! l = Some a -> isa_MemoryPhi a = false ->
     getPhiArgBlock h it = Fault AssertionFailure).
Proof.
  split.
  - intros Hend. apply def_iterator_eq_end in Hend.
    unfold def_iterator_get, def_iterator_next, getPhiArgBlock. by rewrite Hend.
  - intros l a Hl Ha Hphi. unfold getPhiArgBlock, deref. rewrite Hl. simpl. rewrite Ha. simpl.
    by destruct a.
Qed.


(** The walk over a use or a def. *)
Lemma defs_single (h : heap) (A : addr) (a : MemoryAccess) (D : ptr) (fuel : nat) :
  h !! A = Some a -> getDefiningAccess a = Ok D -> defs (S fuel) h A = Ok [D].
Proof.
  intros Ha HD. unfold defs. simpl. unfold def_iterator_get, def_iterator_next, deref. simpl.
  rewrite Ha. simpl.
  destruct a as [u|d|P]; simpl in *; try discriminate;
    injection HD as <-; simpl; by rewrite def_range_at_end.
Qed.

(** The walk over a phi that has incoming values. *)
Lemma defs_phi (h : heap) (A : addr) (P : MemoryPhi) (fuel : nat) :
  h !! A = Some (MP P) -> wf_phi P -> 0 < getNumIncomingValues P ->
  (N.to_nat (getNumIncomingValues P) <= fuel)%nat ->
  defs fuel h A = Ok (incoming_values P) /\
  defs_with_blocks fuel h A = Ok (zip (incoming_values P) (incoming_blocks P)).
Proof.
  intros Ha Hwf Hpos Hfuel.
  pose proof Hwf as (Hlen & Hblk & Hle & Hres & Hbits).
  unfold incoming_values, incoming_blocks.
  set (n := N.to_nat (getNumIncomingValues P)) in *.
  assert (exists m, n = S m) as [m Hm] by (exists (pred n); lia).
  assert (getNumIncomingValues P < 2 ^ UINT_WIDTH) as Hn
      by (unfold getNumIncomingValues, getNumOperands; lia).
  unfold getNumIncomingValues, getNumOperands in *.
  split.
  - unfold defs, defs_begin. change 0 with (N.of_nat 0).
    rewrite (def_range_phi def_iterator_get
               (fun i => default None (OperandList P !! i)) h A P Ha Hn) with (m := m);
      [ | | unfold getNumIncomingValues, getNumOperands; lia | lia ].
    + rewrite <- Hm. f_equal. apply take_as_seq. lia.
    + intros i Hi. unfold def_iterator_get, deref. simpl. rewrite Ha. simpl.
      by apply phi_operand_in_use.
  - unfold defs_with_blocks, defs_begin. change 0 with (N.of_nat 0).
    rewrite (def_range_phi _
               (fun i => (default None (OperandList P !! i),
                          default None (BlockList P !! i))) h A P Ha Hn) with (m := m);
      [ | | unfold getNumIncomingValues, getNumOperands; lia | lia ].
    + rewrite <- Hm. f_equal. apply (zip_take_as_seq pair); lia.
    + intros i Hi. unfold def_iterator_get, getPhiArgBlock, deref. simpl. rewrite Ha. simpl.
      destruct (phi_operand_in_use P i Hwf Hi) as [-> ->]. done.
Qed.

Section UpwardWalk.

Variable PHITranslateValue :
  positive -> BasicBlock -> option BasicBlock -> bool * option positive.

(** What [fillInCurrentPair] leaves: the position and the carried location
    as they were, the access under the position, and as the location of the
    pair the carried location, or the carried location under the address
    that the translator gives for the pointer of the carried location. *)
Lemma fillInCurrentPair_Ok (h : heap) (it it' : upward_defs_iterator) :
  fillInCurrentPair PHITranslateValue h it = Ok it' ->
  DefIterator it' = DefIterator it /\ Location it' = Location it /\
  def_iterator_get h (DefIterator it) = Ok (CurrentPair it').1 /\
  ((CurrentPair it').2 = Location it \/
   exists p0 a CurBB PredBB Addr,
     Ptr (Location it) = Some p0 /\
     deref h (OriginalAccess it) = Ok a /\ getBlock a = Some CurBB /\
     getPhiArgBlock h (DefIterator it) = Ok PredBB /\
     PHITranslateValue p0 CurBB PredBB = (false, Addr) /\ Addr <> Some p0 /\
     (CurrentPair it').2 = getWithNewPtr (Location it) Addr).
Proof.
  unfold fillInCurrentPair. intros H.
  apply bind_Ok in H as (first & Hget & H). rewrite Hget.
  destruct (WalkingPhi it); [destruct (Ptr (Location it)) as [p|] eqn:Hp|];
    try (injection H as <-; simpl; by eauto).
  apply bind_Ok in H as (a & Ha & H).
  destruct (getBlock a) as [CurBB|] eqn:Hblock; [|discriminate].
  apply bind_Ok in H as (PredBB & HPred & H).
  destruct (PHITranslateValue p CurBB PredBB) as [failed Addr] eqn:Htr.
  destruct failed; simpl in H; [injection H as <-; simpl; by eauto|].
  destruct (decide (Addr = Some p)) as [->|Hne].
  - rewrite bool_decide_eq_true_2 in H by done. injection H as <-. simpl. by eauto.
  - rewrite bool_decide_eq_false_2 in H by done. injection H as <-. simpl.
    do 3 (split; [done|]). right. by exists p, a, CurBB, PredBB, Addr.
Qed.

Lemma fillInCurrentPair_frame (h : heap) (it it' : upward_defs_iterator) :
  fillInCurrentPair PHITranslateValue h it = Ok it' ->
  OriginalAccess it' = OriginalAccess it /\ WalkingPhi it' = WalkingPhi it.
Proof.
  unfold fillInCurrentPair. intros H. apply bind_Ok in H as (? & _ & H).
  destruct (WalkingPhi it); [destruct (Ptr _)|]; try (by injection H as <-).
  apply bind_Ok in H as (acc & _ & H). destruct (getBlock acc); [|discriminate].
  apply bind_Ok in H as (? & _ & H).
  destruct (PHITranslateValue _ _ _). destruct (_ && _); by injection H as <-.
Qed.

Lemma def_iterator_next_access (h : heap) (I I' : memoryaccess_def_iterator) :
  def_iterator_next h I = Ok I' -> Access I' = Access I \/ Access I' = None.
Proof.
  unfold def_iterator_next. intros H.
  apply bind_Ok in H as (? & _ & H). apply bind_Ok in H as (a & _ & H).
  destruct a; [by injection H as <-; right..|].
  destruct (_ <=? _); injection H as <-; auto.
Qed.

(** The locations a walk over [A] started on [L] can pair an access with:
    [L], or [L] under the address the translator gives for the pointer of
    [L] across an edge into the block of the phi [A]. *)
Lemma fillInCurrentPair_from (h : heap) (A : addr) (it it' : upward_defs_iterator) :
  fillInCurrentPair PHITranslateValue h it = Ok it' ->
  OriginalAccess it = Some A ->
  Access (DefIterator it) = Some A \/ Access (DefIterator it) = None ->
  (CurrentPair it').2 = Location it \/
  exists P CurBB k PredBB p0 Addr,
    h !! A = Some (MP P) /\ phi_Block P = Some CurBB /\
    getIncomingBlock P k = Ok PredBB /\ Ptr (Location it) = Some p0 /\
    PHITranslateValue p0 CurBB PredBB = (false, Addr) /\ Addr <> Some p0 /\
    (CurrentPair it').2 = getWithNewPtr (Location it) Addr.
Proof.
  intros H HO HA.
  apply fillInCurrentPair_Ok in H
    as (_ & _ & _ & [?|(p0 & a & CurBB & PredBB & Addr & Hp & Ha & Hb & HPred & Htr & Hne & Hl)]);
    [by left|right].
  rewrite HO in Ha. apply deref_Ok in Ha as (l & [= <-] & Ha).
  unfold getPhiArgBlock in HPred. apply bind_Ok in HPred as (? & Hc & HPred).
  apply check_Ok_inv, bool_decide_eq_true in Hc.
  destruct HA as [HA|HA]; [|rewrite HA in Hc; by destruct Hc].
  rewrite HA in HPred. unfold deref in HPred. rewrite Ha in HPred. simpl in HPred.
  destruct a as [u|d|P]; try discriminate.
  by exists P, CurBB, (ArgNo (DefIterator it)), PredBB, p0, Addr.
Qed.

Lemma upward_range_follows_defs (h : heap) (A : addr) (L : MemoryLocation) (fuel : nat) :
  forall I ps,
    Location I = L -> OriginalAccess I = Some A ->
    Access (DefIterator I) = Some A \/ Access (DefIterator I) = None ->
    def_iterator_get h (DefIterator I) = Ok (CurrentPair I).1 ->
    ((CurrentPair I).2 = L \/
     exists P CurBB k PredBB p0 Addr,
       h !! A = Some (MP P) /\ phi_Block P = Some CurBB /\
       getIncomingBlock P k = Ok PredBB /\ Ptr L = Some p0 /\
       PHITranslateValue p0 CurBB PredBB = (false, Addr) /\ Addr <> Some p0 /\
       (CurrentPair I).2 = getWithNewPtr L Addr) ->
    upward_range PHITranslateValue fuel h I upward_defs_end = Ok ps ->
    def_range def_iterator_get fuel h (DefIterator I) defs_end = Ok ps.*1 /\
    Forall (fun p => p.2 = L \/
              exists P CurBB k PredBB p0 Addr,
                h !! A = Some (MP P) /\ phi_Block P = Some CurBB /\
                getIncomingBlock P k = Ok PredBB /\ Ptr L = Some p0 /\
                PHITranslateValue p0 CurBB PredBB = (false, Addr) /\ Addr <> Some p0 /\
                p.2 = getWithNewPtr L Addr) ps.
Proof.
  induction fuel as [|fuel IH]; intros I ps HL HO HA Hget Hloc H; simpl in *;
    unfold upward_iterator_eq in H; simpl in H;
    destruct (def_iterator_eq (DefIterator I) defs_end) eqn:Hend;
    try discriminate; try (injection H as <-; by split).
  unfold upward_iterator_get, upward_iterator_next in H. rewrite Hend in H. simpl in H.
  apply bind_Ok in H as (I' & Hnext & H). apply bind_Ok in H as (xs & Hrec & H).
  injection H as <-.
  apply bind_Ok in Hnext as (D & HD & Hnext).
  rewrite Hget, HD. simpl.
  assert (Access D = Some A \/ Access D = None) as HAD.
  { destruct (def_iterator_next_access h _ _ HD) as [->| ->]; auto. }
  destruct (def_iterator_eq D defs_end) eqn:HendD; simpl in Hnext.
  - injection Hnext as <-. simpl in *.
    assert (xs = []) as ->.
    { destruct fuel; simpl in Hrec; unfold upward_iterator_eq in Hrec; simpl in Hrec;
        rewrite HendD in Hrec; by injection Hrec as <-. }
    assert (def_range def_iterator_get fuel h D defs_end = Ok []) as ->
      by (destruct fuel; simpl; by rewrite HendD).
    split; [done|]. constructor; [done|constructor].
  - pose proof (fillInCurrentPair_from h A _ _ Hnext HO HAD) as Hloc'.
    pose proof (fillInCurrentPair_frame h _ _ Hnext) as [HO' _].
    apply fillInCurrentPair_Ok in Hnext as (HDI & HLI & Hget' & _). simpl in *.
    rewrite HL in Hloc'.
    destruct (IH I' xs) as [Hdefs Hall];
      [congruence|congruence|by rewrite HDI|by rewrite HDI|done|done|].
    rewrite HDI in Hdefs. rewrite Hdefs. simpl. split; [done|]. by constructor.
Qed.

(** X13. The upward iterator visits the defining accesses the plain
    iterator visits, in the same order.  The location it pairs with an
    access is the location [L] the walk was started on, or [L] under the
    address the translator gives for the pointer of [L] itself across an
    incoming edge of the phi: the location of the previous edge is never
    the starting point of a translation. *)
Theorem upward_defs_follow_defs (h : heap) (A : addr) (L : MemoryLocation)
  (fuel : nat) (ps : list MemoryAccessPair) :
  upward_defs PHITranslateValue fuel h (Some A, L) = Ok ps ->
  defs fuel h A = Ok ps.*1 /\
  Forall (fun p => p.2 = L \/
            exists P CurBB k PredBB p0 Addr,
              h !! A = Some (MP P) /\ phi_Block P = Some CurBB /\
              getIncomingBlock P k = Ok PredBB /\ Ptr L = Some p0 /\
              PHITranslateValue p0 CurBB PredBB = (false, Addr) /\ Addr <> Some p0 /\
              p.2 = getWithNewPtr L Addr) ps.
Proof.
  unfold upward_defs, upward_defs_begin. intros H.
  apply bind_Ok in H as (I & HI & H). apply bind_Ok in HI as (w & _ & HI).
  pose proof (fillInCurrentPair_from h A _ _ HI eq_refl (or_introl eq_refl)) as Hloc.
  pose proof (fillInCurrentPair_frame h _ _ HI) as [HO _].
  apply fillInCurrentPair_Ok in HI as (HDI & HLI & Hget & _). simpl in *.
  destruct (upward_range_follows_defs h A L fuel I ps) as [Hdefs Hall];
    [done|done|by rewrite HDI; left|by rewrite HDI|done|done|].
  rewrite HDI in Hdefs. done.
Qed.

(** X14. An upward walk cannot start on a null access, whose dereference
    trips the assertion of [operator*]; an iterator made by
    [upward_defs_begin] is never equal to [upward_defs_end()], so the range
    it opens is never empty. *)
Theorem upward_defs_begin_not_end (h : heap) (Info : MemoryAccessPair) :
  (Info.1 = None ->
     upward_defs_begin PHITranslateValue h Info = Fault AssertionFailure) /\
  (forall I, upward_defs_begin PHITranslateValue h Info = Ok I ->
     is_Some Info.1 /\ upward_iterator_eq I upward_defs_end = false) /\
  (forall fuel, upward_defs PHITranslateValue fuel h Info <> Ok []).
Proof.
  assert (forall I, upward_defs_begin PHITranslateValue h Info = Ok I ->
            is_Some Info.1 /\ upward_iterator_eq I upward_defs_end = false) as Hbegin.
  { intros I HI. unfold upward_defs_begin in HI.
    apply bind_Ok in HI as (w & _ & HI).
    apply fillInCurrentPair_Ok in HI as (HDI & _ & Hget & _). simpl in *.
    unfold def_iterator_get in Hget. simpl in Hget.
    destruct Info.1 as [l|] eqn:E; [|discriminate].
    split; [by eexists|]. unfold upward_iterator_eq. rewrite HDI.
    apply not_true_is_false. by intros Hend%def_iterator_eq_end. }
  split; [|split; [exact Hbegin|]].
  - destruct Info as [A L]. simpl. by intros ->.
  - intros fuel H. unfold upward_defs in H.
    apply bind_Ok in H as (I & HI & H).
    destruct (Hbegin I HI) as [_ Hne].
    destruct fuel as [|fuel]; simpl in H; rewrite Hne in H; [discriminate|].
    apply bind_Ok in H as (x & _ & H). apply bind_Ok in H as (I' & _ & H).
    apply bind_Ok in H as (xs & _ & H). discriminate.
Qed.

Lemma upward_iterator_next_Ok (h : heap) (I J : upward_defs_iterator) :
  upward_iterator_next PHITranslateValue h I = Ok J ->
  is_Some (Access (DefIterator I)) /\
  def_iterator_next h (DefIterator I) = Ok (DefIterator J).
Proof.
  unfold upward_iterator_next. intros H.
  apply bind_Ok in H as (u & Hc & H). apply check_Ok_inv, negb_true_iff in Hc.
  apply bind_Ok in H as (D & HD & H). split.
  - destruct (Access (DefIterator I)) eqn:E; [by eexists|].
    apply def_iterator_eq_end in E. congruence.
  - rewrite HD. f_equal.
    destruct (negb _); [|by injection H as <-].
    by apply fillInCurrentPair_Ok in H as (-> & _).
Qed.

(** X15. [operator==] of the upward iterator compares positions only: two
    walks begun on the same access with different locations are equal at
    the start, and iterators that are equal are still equal after both
    have been advanced. *)
Theorem upward_iterator_eq_ignores_location (h : heap) :
  (forall A L1 L2 I1 I2,
     upward_defs_begin PHITranslateValue h (A, L1) = Ok I1 ->
     upward_defs_begin PHITranslateValue h (A, L2) = Ok I2 ->
     upward_iterator_eq I1 I2 = true) /\
  (forall X Y X' Y',
     upward_iterator_eq X Y = true ->
     upward_iterator_next PHITranslateValue h X = Ok X' ->
     upward_iterator_next PHITranslateValue h Y = Ok Y' ->
     upward_iterator_eq X' Y' = true).
Proof.
  assert (forall X, def_iterator_eq X X = true) as Hrefl.
  { intros [[a|] n]; unfold def_iterator_eq; simpl; [|done].
    rewrite bool_decide_eq_true_2 by done. simpl. apply N.eqb_refl. }
  split.
  - intros A L1 L2 I1 I2 H1 H2. unfold upward_defs_begin in *.
    apply bind_Ok in H1 as (w1 & _ & H1). apply bind_Ok in H2 as (w2 & _ & H2).
    apply fillInCurrentPair_Ok in H1 as (H1 & _).
    apply fillInCurrentPair_Ok in H2 as (H2 & _).
    unfold upward_iterator_eq. rewrite H1, H2. apply Hrefl.
  - intros X Y X' Y' Heq HX HY.
    apply upward_iterator_next_Ok in HX as [[a Ha] HX].
    apply upward_iterator_next_Ok in HY as [_ HY].
    unfold upward_iterator_eq in *. unfold def_iterator_eq in Heq.
    apply andb_true_iff in Heq as [HA HN]. apply bool_decide_eq_true in HA.
    rewrite Ha in HN. rewrite bool_decide_eq_true_2 in HN by by eexists.
    simpl in HN. apply N.eqb_eq in HN.
    assert (DefIterator X = DefIterator Y) as HXY.
    { destruct (DefIterator X), (DefIterator Y). simpl in *. congruence. }
    rewrite HXY in HX. rewrite HX in HY. injection HY as ->. apply Hrefl.
Qed.

End UpwardWalk.

(** ** Mutators and the walk over the defining accesses *)

(** X16. After [setDefiningAccess(DMA)], optimized or not, and after the
    base [MemoryUseOrDef::setDefiningAccess(DMA)] on a use or a def, the
    walk from [defs_begin()] to [defs_end()] yields [DMA] and nothing else;
    [resetOptimized] leaves the walk as it was. *)
Theorem defs_after_setDefiningAccess (h : heap) (U : addr) (fuel : nat) :
  (forall DMA Optimized h', setDefiningAccess h U DMA Optimized = Ok h' ->
     defs (S fuel) h' U = Ok [DMA]) /\
  (forall a a' DMA, h !! U = Some a -> MemoryUseOrDef_setDefiningAccess a DMA = Ok a' ->
     defs (S fuel) (<[U := a']> h) U = Ok [DMA]) /\
  (forall h', resetOptimized h U = Ok h' -> defs (S fuel) h' U = defs (S fuel) h U).
Proof.
  split; [|split].
  - intros DMA o h' H. unfold setDefiningAccess in H.
    apply bind_Ok in H as (a & _ & H). apply bind_Ok in H as (u & _ & H).
    apply bind_Ok in H as (oid & _ & H). injection H as <-.
    eapply defs_single; [by rewrite lookup_insert_eq|done].
  - intros a a' DMA Ha H.
    eapply defs_single; [by rewrite lookup_insert_eq|].
    destruct a; simpl in H; try discriminate; by injection H as <-.
  - intros h' H. unfold resetOptimized in H.
    apply bind_Ok in H as (a & Ha & H). apply bind_Ok in H as (u & Hu & H).
    injection H as <-. apply deref_Ok in Ha as (l & [= <-] & Ha).
    destruct a; try discriminate. injection Hu as ->.
    rewrite (defs_single _ U _ (use_Operand u)) by (by rewrite ?lookup_insert_eq).
    by rewrite (defs_single _ U _ (use_Operand u) fuel Ha).
Qed.

(** X17. After an [addIncoming(V, BB)] that returned, the walk over the
    phi yields the earlier incoming accesses followed by [V], and
    [getPhiArgBlock] the earlier blocks followed by [BB]; this holds for a
    phi that had no incoming value before. *)
Theorem defs_after_addIncoming (h : heap) (A : addr) (P P' : MemoryPhi)
  (V : ptr) (BB : option BasicBlock) (fuel : nat) :
  h !! A = Some (MP P) -> wf_phi P -> addIncoming P V BB = Ok P' ->
  (N.to_nat (getNumIncomingValues P) < fuel)%nat ->
  defs fuel (<[A := MP P']> h) A = Ok (incoming_values P ++ [V]) /\
  defs_with_blocks fuel (<[A := MP P']> h) A
  = Ok (zip (incoming_values P ++ [V]) (incoming_blocks P ++ [BB])).
Proof.
  intros _ Hwf H Hfuel.
  destruct (addIncoming_Ok_inv P P' V BB Hwf H) as (_ & _ & Hn).
  assert (exists P'', addIncoming P V BB = Ok P'' /\
            getNumIncomingValues P'' = getNumIncomingValues P + 1) as (P'' & H'' & Hcount).
  { destruct (addIncoming_Ok_inv P P' V BB Hwf H) as ([v ->] & [bb ->] & _).
    destruct (addIncoming_nonnull P v bb Hwf Hn) as (P'' & ? & ? & _). by exists P''. }
  rewrite H in H''. injection H'' as <-.
  destruct (addIncoming_lists P P' V BB Hwf H) as (<- & <- & _ & _ & _ & Hwf').
  apply defs_phi; [by rewrite lookup_insert_eq|done|lia|lia].
Qed.

(** ** What a walk reads *)

(** The iterator standing on [A] or past the end reads the object at [A]
    only. *)
Lemma def_iterator_local (h h' : heap) (A : addr) (I : memoryaccess_def_iterator) :
  h !! A = h' !! A -> Access I = Some A \/ Access I = None ->
  def_iterator_get h I = def_iterator_get h' I /\
  getPhiArgBlock h I = getPhiArgBlock h' I /\
  def_iterator_next h I = def_iterator_next h' I /\
  (forall I', def_iterator_next h I = Ok I' -> Access I' = Some A \/ Access I' = None).
Proof.
  intros HA [HI|HI]; unfold def_iterator_get, getPhiArgBlock, def_iterator_next, deref;
    rewrite HI; simpl; [|done].
  rewrite <- HA. split; [done|]. split; [done|]. split; [done|].
  intros I'. destruct (h !! A) as [[u|d|P]|]; simpl; try discriminate.
  - intros [= <-]. by right.
  - intros [= <-]. by right.
  - destruct (_ <=? _); intros [= <-]; simpl; auto.
Qed.

Lemma def_range_local {B} (obs : heap -> memoryaccess_def_iterator -> result B)
  (h h' : heap) (A : addr) :
  h !! A = h' !! A ->
  (forall I, Access I = Some A \/ Access I = None -> obs h I = obs h' I) ->
  forall fuel I, Access I = Some A \/ Access I = None ->
    def_range obs fuel h I defs_end = def_range obs fuel h' I defs_end.
Proof.
  intros HA Hobs. induction fuel as [|fuel IH]; intros I HI; simpl; [done|].
  destruct (def_iterator_eq I defs_end); [done|].
  rewrite (Hobs I HI).
  destruct (def_iterator_local h h' A I HA HI) as (_ & _ & Hnext & Hacc).
  rewrite <- Hnext. destruct (obs h' I); simpl; [|done].
  destruct (def_iterator_next h I) as [I'|] eqn:E; simpl; [|done].
  by rewrite (IH I') by by apply Hacc.
Qed.

Section UpwardLocal.

Variable PHITranslateValue :
  positive -> BasicBlock -> option BasicBlock -> bool * option positive.

Lemma fillInCurrentPair_local (h h' : heap) (A : addr) (I : upward_defs_iterator) :
  h !! A = h' !! A ->
  Access (DefIterator I) = Some A \/ Access (DefIterator I) = None ->
  OriginalAccess I = Some A ->
  fillInCurrentPair PHITranslateValue h I = fillInCurrentPair PHITranslateValue h' I.
Proof.
  intros HA HI HO. unfold fillInCurrentPair.
  destruct (def_iterator_local h h' A (DefIterator I) HA HI) as (-> & -> & _).
  unfold deref. rewrite HO. simpl. by rewrite HA.
Qed.

Lemma upward_range_local (h h' : heap) (A : addr) :
  h !! A = h' !! A ->
  forall fuel I,
    Access (DefIterator I) = Some A \/ Access (DefIterator I) = None ->
    OriginalAccess I = Some A ->
    upward_range PHITranslateValue fuel h I upward_defs_end
    = upward_range PHITranslateValue fuel h' I upward_defs_end.
Proof.
  intros HA. induction fuel as [|fuel IH]; intros I HI HO; simpl; [done|].
  destruct (upward_iterator_eq I upward_defs_end); [done|].
  destruct (upward_iterator_get I); simpl; [|done].
  destruct (def_iterator_local h h' A (DefIterator I) HA HI) as (_ & _ & Hnext & Hacc).
  assert (upward_iterator_next PHITranslateValue h I
          = upward_iterator_next PHITranslateValue h' I) as Hstep.
  { unfold upward_iterator_next. rewrite <- Hnext.
    destruct (check _); simpl; [|done].
    destruct (def_iterator_next h (DefIterator I)) as [D|] eqn:E; simpl; [|done].
    destruct (negb _); [|done].
    apply (fillInCurrentPair_local h h' A); [done|by apply Hacc|done]. }
  rewrite <- Hstep.
  destruct (upward_iterator_next PHITranslateValue h I) as [I'|] eqn:E; simpl; [|done].
  rewrite (IH I'); [done| |].
  - unfold upward_iterator_next in E.
    apply bind_Ok in E as (? & _ & E). apply bind_Ok in E as (D & HD & E).
    destruct (negb _).
    + apply fillInCurrentPair_Ok in E as (-> & _). by apply Hacc.
    + injection E as <-. simpl. by apply Hacc.
  - unfold upward_iterator_next in E.
    apply bind_Ok in E as (? & _ & E). apply bind_Ok in E as (D & HD & E).
    destruct (negb _).
    + by apply fillInCurrentPair_frame in E as [-> _].
    + by injection E as <-.
Qed.

(** X20. A walk over the defining accesses of [A], plain or upward, reads
    the object at [A] and no other: in two stores that agree at [A] the two
    walks yield the same sequences, so changes to other accesses do not
    disturb it. *)
Theorem defs_read_one_object (h h' : heap) (A : addr) (fuel : nat) :
  h !! A = h' !! A ->
  defs fuel h A = defs fuel h' A /\
  defs_with_blocks fuel h A = defs_with_blocks fuel h' A /\
  forall L, upward_defs PHITranslateValue fuel h (Some A, L)
            = upward_defs PHITranslateValue fuel h' (Some A, L).
Proof.
  intros HA. split; [|split].
  - apply (def_range_local _ h h' A HA); [|by left].
    intros I HI. by apply (def_iterator_local h h' A I HA HI).
  - apply (def_range_local _ h h' A HA); [|by left].
    intros I HI. destruct (def_iterator_local h h' A I HA HI) as (-> & -> & _). done.
  - intros L.
    pose proof (fun I => fillInCurrentPair_local h h' A I HA) as Hfill.
    pose proof (upward_range_local h h' A HA fuel) as Hrange.
    unfold upward_defs, upward_defs_begin. simpl. unfold deref. rewrite <- HA.
    destruct (h !! A) as [a|]; simpl; [|done].
    set (I0 := {| CurrentPair := _ |}).
    rewrite <- (Hfill I0); [|by left|done].
    destruct (fillInCurrentPair PHITranslateValue h I0) as [I|] eqn:E; simpl; [|done].
    apply Hrange.
    + apply fillInCurrentPair_Ok in E as (-> & _). by left.
    + by apply fillInCurrentPair_frame in E as [-> _].
Qed.

End UpwardLocal.

(** * Instances on the sample analyses *)

Lemma isOptimized_tracks_marker_witness :
  (exists h' u',
     setDefiningAccess Samples.straight 3%positive (Some 2%positive) true = Ok h' /\
     h' !! 3%positive = Some (MU u') /\ use_Operand u' = Some 2%positive /\
     getID_at Samples.straight (Some 2%positive) = Ok (OptimizedID u') /\
     isOptimized h' 3%positive = Ok true) /\
  isOptimized Samples.straight 3%positive = Ok false.
Proof.
  split.
  - apply (proj1 (isOptimized_tracks_marker Samples.straight 3%positive)
             Samples.load 2%positive (MD Samples.store)).
    + vm_compute. reflexivity.
    + vm_compute. reflexivity.
    + reflexivity.
  - apply (proj2 (proj2 (isOptimized_tracks_marker Samples.straight 3%positive))
             Samples.load 2%positive 1).
    + vm_compute. reflexivity.
    + reflexivity.
    + vm_compute. reflexivity.
    + vm_compute. discriminate.
Defined.

Lemma sample_merge_wf : wf_phi Samples.merge.
Proof. unfold wf_phi. simpl. repeat split; try reflexivity; vm_compute; congruence. Defined.

Lemma defs_enumerates_witness :
  defs 1 Samples.merged 3%positive = Ok [Some 2%positive] /\
  defs 2 Samples.merged 5%positive = Ok [Some 2%positive; Some 3%positive] /\
  defs_with_blocks 2 Samples.merged 5%positive
  = Ok [(Some 2%positive, Some 2%positive); (Some 3%positive, Some 3%positive)].
Proof.
  split.
  - apply (proj1 (defs_enumerates Samples.merged 3%positive) (MU Samples.load));
      [vm_compute; reflexivity | reflexivity | lia].
  - apply (proj2 (defs_enumerates Samples.merged 5%positive) Samples.merge);
      [vm_compute; reflexivity | exact sample_merge_wf | vm_compute; reflexivity
      | vm_compute; lia].
Defined.


Lemma phi_setters_reject_null_witness :
  setIncomingValue Samples.merge 1 None = Fault AssertionFailure /\
  getIncomingValue Samples.merge 1 = Ok (Some 3%positive) /\
  getIncomingBlock Samples.merge 1 = Ok (Some 3%positive).
Proof.
  split; [apply (proj1 (phi_setters_reject_null Samples.merge 1))|].
  split.
  - apply (proj1 (proj2 (proj2 (phi_setters_reject_null Samples.merge 1)))
             (Some 3%positive) Samples.merge).
    vm_compute. reflexivity.
  - apply (proj2 (proj2 (proj2 (phi_setters_reject_null Samples.merge 1)))
             (Some 3%positive) Samples.merge).
    vm_compute. reflexivity.
Defined.

Lemma addIncoming_appends_witness :
  is_Ok (addIncoming Samples.merge (Some 1%positive) (Some 7%positive)) /\
  forall P', addIncoming Samples.merge (Some 1%positive) (Some 7%positive) = Ok P' ->
    getNumIncomingValues P' = 3 /\
    getIncomingValue P' 2 = Ok (Some 1%positive) /\
    getIncomingBlock P' 2 = Ok (Some 7%positive) /\
    (forall I, I < 2 ->
               getIncomingValue P' I = getIncomingValue Samples.merge I /\
               getIncomingBlock P' I = getIncomingBlock Samples.merge I) /\
    wf_phi P'.
Proof.
  split.
  - apply (proj2 (addIncoming_appends Samples.merge (Some 1%positive)
                    (Some 7%positive) sample_merge_wf)).
    + by eexists.
    + by eexists.
    + vm_compute. reflexivity.
  - exact (proj1 (addIncoming_appends Samples.merge (Some 1%positive)
                    (Some 7%positive) sample_merge_wf)).
Defined.

Lemma sample_built_eq :
  Builder.buildMemorySSA 10 0 Samples.oracle Samples.tree Samples.diamond
  = Ok Samples.built.
Proof. vm_compute. reflexivity. Defined.


Lemma sample_built_accesses :
  Accesses Samples.built
  = <[5%positive := MP Samples.merge]>
      (<[4%positive := MU {| use_Block := Some 4%positive;
                             use_MemoryInst := Some 12%positive;
                             use_Operand := Some 5%positive; OptimizedID := 3 |}]>
         (<[3%positive := MD {| def_Block := Some 3%positive;
                                def_MemoryInst := Some 11%positive;
                                def_Operand := Some 1%positive; def_ID := 2 |}]>
            (<[2%positive := MD {| def_Block := Some 2%positive;
                                   def_MemoryInst := Some 10%positive;
                                   def_Operand := Some 1%positive; def_ID := 1 |}]>
               (<[1%positive := Builder.LiveOnEntry 0]> ∅)))).
Proof. vm_compute. reflexivity. Defined.

Lemma sample_built_ascends : ClobberWalker.ascends Samples.built Samples.height.
Proof.
  intros l a Hl. rewrite sample_built_accesses in Hl.
  assert (forall l', (l' = 1 \/ l' = 5)%positive ->
            is_Some (Accesses Samples.built !! l')) as Hin.
  { intros l' [->| ->]; vm_compute; by eexists. }
  apply lookup_insert_Some in Hl as [[<- <-]|[_ Hl]]; [done|].
  apply lookup_insert_Some in Hl as [[<- <-]|[_ Hl]].
  { exists 5%positive. split; [reflexivity|]. split; [apply Hin; by right | simpl; lia]. }
  apply lookup_insert_Some in Hl as [[<- <-]|[_ Hl]].
  { right. split; [by eexists|]. exists 1%positive.
    split; [reflexivity|]. split; [apply Hin; by left | simpl; lia]. }
  apply lookup_insert_Some in Hl as [[<- <-]|[_ Hl]].
  { right. split; [by eexists|]. exists 1%positive.
    split; [reflexivity|]. split; [apply Hin; by left | simpl; lia]. }
  apply lookup_insert_Some in Hl as [[<- <-]|[_ Hl]].
  { by left. }
  by rewrite lookup_empty in Hl.
Defined.

Lemma clobber_of_use_is_not_a_use_witness :
  is_Ok (ClobberWalker.getClobberingMemoryAccess Samples.translate Samples.oracle
           2 Samples.built 4%positive) /\
  exists l a, Some 5%positive = Some l /\ Accesses Samples.built !! l = Some a /\
              isa_MemoryUse a = false /\
              (isa_MemoryDef a = true \/ isa_MemoryPhi a = true).
Proof.
  assert (Accesses Samples.built !! 4%positive
          = Some (MU {| use_Block := Some 4%positive;
                        use_MemoryInst := Some 12%positive;
                        use_Operand := Some 5%positive; OptimizedID := 3 |})) as HU
      by (vm_compute; reflexivity).
  split.
  - apply (proj2 (clobber_of_use_is_not_a_use Samples.translate Samples.oracle
                    Samples.built 4%positive _ HU) Samples.height).
    + exact sample_built_ascends.
    + simpl. by eexists.
    + simpl. lia.
  - apply (proj1 (clobber_of_use_is_not_a_use Samples.translate Samples.oracle
                    Samples.built 4%positive _ HU) 2%nat (Some 5%positive)).
    vm_compute. reflexivity.
Defined.

Lemma removeMemoryAccess_rewires_witness :
  exists s',
    Mutation.removeMemoryAccess 2%positive Samples.built = Ok s' /\
    (forall U u, U <> 2%positive -> Accesses Samples.built !! U = Some u ->
       exists u', Accesses s' !! U = Some u' /\
         length (Mutation.definingEdges u') = length (Mutation.definingEdges u) /\
         forall i V, Mutation.definingEdges u !! i = Some V ->
           Mutation.definingEdges u' !! i
           = Some (if decide (V = Some 2%positive) then Some 1%positive else V)) /\
    (forall BB, Some 2%positive = Some BB ->
       forall l, getBlockAccesses s' BB = Some l -> 2%positive ∉ l) /\
    (forall v, ValueToMemoryAccess s' !! v <> Some 2%positive) /\
    Accesses s' !! 2%positive = None /\
    2%positive ∈ Invalidated (Walker s').
Proof.
  apply (removeMemoryAccess_rewires Samples.built 2%positive
           (MD {| def_Block := Some 2%positive; def_MemoryInst := Some 10%positive;
                  def_Operand := Some 1%positive; def_ID := 1 |}) (Some 1%positive)).
  - vm_compute. reflexivity.
  - reflexivity.
Defined.

Lemma sample_well_formed : well_formed Samples.diamond Samples.tree.
Proof.
  split; [apply (bool_decide_unpack _); vm_compute; exact I|].
  split; [|split; vm_compute; reflexivity].
  intros BB BB' H.
  assert (frontier Samples.tree BB = [4%positive] \/ frontier Samples.tree BB = []) as [E|E]
    by (destruct BB as [[?|?|]|[?|?|]|]; simpl; auto).
  - rewrite E in H. apply list_elem_of_singleton in H as ->.
    apply (bool_decide_unpack _). vm_compute. exact I.
  - rewrite E in H. by apply elem_of_nil in H.
Defined.

Lemma build_covers_instructions_witness :
  NoDup (instructions Samples.diamond) /\
  well_formed Samples.diamond Samples.tree /\
  (exists fuel0, forall fuel, (fuel0 <= fuel)%nat ->
     exists s, Builder.buildMemorySSA fuel 0 Samples.oracle Samples.tree Samples.diamond
               = Ok s) /\
  Builder.buildMemorySSA 10 0 Samples.oracle Samples.tree Samples.diamond
  = Ok Samples.built /\
  (exists l u, Builder.getMemoryAccess Samples.built 12%positive = Some l /\
               Accesses Samples.built !! l = Some (MU u) /\
               use_MemoryInst u = Some 12%positive /\
               forall l', represents Samples.built l' 12%positive -> l' = l) /\
  (exists l d, Builder.getMemoryAccess Samples.built 10%positive = Some l /\
               Accesses Samples.built !! l = Some (MD d) /\
               def_MemoryInst d = Some 10%positive /\
               forall l', represents Samples.built l' 10%positive -> l' = l) /\
  (Builder.getMemoryAccess Samples.built 13%positive = None /\
   forall l, ~ represents Samples.built l 13%positive).
Proof.
  assert (NoDup (instructions Samples.diamond)) as Hnd
      by (apply (bool_decide_unpack _); vm_compute; exact I).
  assert (forall I, bool_decide (I ∈ instructions Samples.diamond) = true ->
            I ∈ instructions Samples.diamond) as Hin
      by (intros I; apply bool_decide_eq_true_1).
  pose proof (build_covers_instructions 0 Samples.oracle Samples.tree Samples.diamond Hnd)
    as [Htotal Hcovers].
  split; [exact Hnd|]. split; [exact sample_well_formed|].
  split; [exact (Htotal sample_well_formed)|]. split; [exact sample_built_eq|].
  split; [|split].
  - apply (Hcovers 10%nat Samples.built sample_built_eq 12%positive).
    apply Hin. vm_compute. reflexivity.
  - apply (Hcovers 10%nat Samples.built sample_built_eq 10%positive).
    apply Hin. vm_compute. reflexivity.
  - apply (Hcovers 10%nat Samples.built sample_built_eq 13%positive).
    apply Hin. vm_compute. reflexivity.
Defined.




(** ** Instances of the further properties *)

Lemma resetOptimized_forgets_marker_witness :
  exists h',
    resetOptimized Samples.straight_optimized 3%positive = Ok h' /\
    isOptimized Samples.straight_optimized 3%positive = Ok true /\
    isOptimized h' 3%positive = Ok false.
Proof.
  destruct (resetOptimized_forgets_marker Samples.straight_optimized 3%positive
              Samples.load_optimized)
    as (h' & u' & Hreset & _ & _ & _ & _ & _ & _ & Hopt).
  { vm_compute. reflexivity. }
  exists h'. split; [exact Hreset|]. split; [vm_compute; reflexivity|].
  apply (Hopt 2%positive 1); vm_compute; reflexivity.
Defined.

Lemma MemoryUse_new_not_optimized_witness :
  isOptimized (<[7%positive := MU (MemoryUse_new (Some 2%positive) (Some 14%positive)
                                     (Some 1%positive))]> Samples.straight) 7%positive
  = Ok false /\
  isOptimized (<[7%positive := MU (MemoryUse_new (Some 1%positive) (Some 14%positive)
                                     (Some 1%positive))]> Samples.straight) 7%positive
  = Ok true.
Proof.
  split.
  - apply (proj2 (proj2 (MemoryUse_new_not_optimized Samples.straight 7%positive
                           (Some 2%positive) (Some 14%positive) (Some 1%positive)
                           ltac:(vm_compute; reflexivity))) 1).
    vm_compute. reflexivity.
  - apply (proj2 (proj2 (MemoryUse_new_not_optimized Samples.straight 7%positive
                           (Some 1%positive) (Some 14%positive) (Some 1%positive)
                           ltac:(vm_compute; reflexivity))) 0).
    vm_compute. reflexivity.
Defined.

Lemma setDefiningAccess_plain_keeps_marker_witness :
  (exists h', setDefiningAccess Samples.straight_optimized 3%positive (Some 1%positive) false
              = Ok h' /\ isOptimized h' 3%positive = Ok false) /\
  (exists h', setDefiningAccess Samples.straight_optimized 3%positive (Some 2%positive) false
              = Ok h' /\ isOptimized h' 3%positive = Ok true).
Proof.
  split.
  - destruct (setDefiningAccess_plain_keeps_marker Samples.straight_optimized 3%positive
                Samples.load_optimized (Some 1%positive))
      as (h' & u' & Hset & _ & _ & _ & _ & _ & Hopt).
    { vm_compute. reflexivity. }
    exists h'. split; [exact Hset|]. apply (Hopt 0). vm_compute. reflexivity.
  - destruct (setDefiningAccess_plain_keeps_marker Samples.straight_optimized 3%positive
                Samples.load_optimized (Some 2%positive))
      as (h' & u' & Hset & _ & _ & _ & _ & _ & Hopt).
    { vm_compute. reflexivity. }
    exists h'. split; [exact Hset|]. apply (Hopt 1). vm_compute. reflexivity.
Defined.

Lemma optimized_marker_needs_an_id_witness :
  setDefiningAccess Samples.straight 3%positive None true = Fault NullDereference /\
  setDefiningAccess Samples.straight 3%positive (Some 3%positive) true = Fault Unreachable /\
  is_Ok (setDefiningAccess Samples.straight 3%positive (Some 2%positive) true).
Proof.
  assert (Samples.straight !! 3%positive = Some (MU Samples.load)) as HU
      by (vm_compute; reflexivity).
  split; [exact (proj1 (optimized_marker_needs_an_id Samples.straight 3%positive
                          Samples.load HU))|].
  split.
  - exact (proj1 (proj2 (optimized_marker_needs_an_id Samples.straight 3%positive
                           Samples.load HU)) 3%positive (MU Samples.load) HU).
  - exact (proj1 (proj2 (optimized_marker_needs_an_id Samples.straight 3%positive
                           Samples.load HU)) 2%positive (MD Samples.store)
             ltac:(vm_compute; reflexivity)).
Defined.

Lemma getBasicBlockIndex_first_match_witness :
  exists r,
    getBasicBlockIndex Samples.merge (Some 3%positive) = Ok r /\
    match r with
    | Some i =>
        i < getNumIncomingValues Samples.merge /\
        getIncomingBlock Samples.merge i = Ok (Some 3%positive) /\
        forall j, j < i -> getIncomingBlock Samples.merge j <> Ok (Some 3%positive)
    | None =>
        forall j, j < getNumIncomingValues Samples.merge ->
                  getIncomingBlock Samples.merge j <> Ok (Some 3%positive)
    end.
Proof.
  exact (getBasicBlockIndex_first_match Samples.merge (Some 3%positive) sample_merge_wf).
Defined.

Lemma getIncomingValueForBlock_first_match_witness :
  (getIncomingValueForBlock Samples.merge (Some 2%positive)
   = getIncomingValue Samples.merge 0 /\
   is_Ok (getIncomingValue Samples.merge 0)) /\
  getIncomingValueForBlock Samples.merge None = Fault AssertionFailure.
Proof.
  split.
  - apply (proj1 (getIncomingValueForBlock_first_match Samples.merge (Some 2%positive)
                    sample_merge_wf) 0).
    + vm_compute. reflexivity.
    + vm_compute. reflexivity.
    + intros j Hj. lia.
  - apply (proj2 (getIncomingValueForBlock_first_match Samples.merge None
                    sample_merge_wf)).
    intros [|[p|p|]] Hj; vm_compute; try discriminate;
      vm_compute in Hj; destruct p; discriminate.
Defined.

Lemma addIncoming_then_lookup_witness :
  (exists P', addIncoming Samples.merge (Some 1%positive) (Some 7%positive) = Ok P' /\
              getBasicBlockIndex P' (Some 7%positive) = Ok (Some 2) /\
              getIncomingValueForBlock P' (Some 7%positive) = Ok (Some 1%positive)) /\
  (exists P', addIncoming Samples.merge (Some 1%positive) (Some 3%positive) = Ok P' /\
              getBasicBlockIndex P' (Some 3%positive) = Ok (Some 1) /\
              getIncomingValueForBlock P' (Some 3%positive)
              = getIncomingValueForBlock Samples.merge (Some 3%positive)).
Proof.
  split.
  - destruct (addIncoming Samples.merge (Some 1%positive) (Some 7%positive))
      as [P'|f] eqn:E; [|vm_compute in E; discriminate].
    exists P'. split; [reflexivity|].
    apply (proj2 (proj2 (addIncoming_then_lookup Samples.merge P' (Some 1%positive)
                           (Some 7%positive) sample_merge_wf E))).
    vm_compute. reflexivity.
  - destruct (addIncoming Samples.merge (Some 1%positive) (Some 3%positive))
      as [P'|f] eqn:E; [|vm_compute in E; discriminate].
    exists P'. split; [reflexivity|].
    apply (proj1 (proj2 (addIncoming_then_lookup Samples.merge P' (Some 1%positive)
                           (Some 3%positive) sample_merge_wf E))).
    vm_compute. reflexivity.
Defined.

Lemma MemoryPhi_new_filled_witness :
  exists P,
    addIncomings (MemoryPhi_new (Some 4%positive) 3 2)
      (map (fun e => (Some e.1, Some e.2))
           [(2%positive, 2%positive); (3%positive, 3%positive)])
    = Ok P /\
    wf_phi P /\
    getNumIncomingValues P = 2 /\
    incoming_values P = [Some 2%positive; Some 3%positive] /\
    incoming_blocks P = [Some 2%positive; Some 3%positive] /\
    getID (MP P) = Ok 3 /\ getBlock (MP P) = Some 4%positive /\
    (2 <= 2 -> ReservedSpace P = 2).
Proof.
  apply (MemoryPhi_new_filled (Some 4%positive) 3 2
           [(2%positive, 2%positive); (3%positive, 3%positive)]);
    vm_compute; reflexivity.
Defined.

Lemma addIncoming_capacity_witness :
  exists P', addIncoming Samples.merge (Some 1%positive) (Some 7%positive) = Ok P' /\
             ReservedSpace P' = 3.
Proof.
  destruct (addIncoming Samples.merge (Some 1%positive) (Some 7%positive))
    as [P'|f] eqn:E; [|vm_compute in E; discriminate].
  exists P'. split; [reflexivity|].
  apply (proj1 (proj2 (addIncoming_capacity Samples.merge P' (Some 1%positive)
                         (Some 7%positive) sample_merge_wf E))).
  reflexivity.
Defined.

Lemma phi_setters_frame_witness :
  exists P', setIncomingBlock Samples.merge 1 (Some 9%positive) = Ok P' /\
             incoming_values P' = incoming_values Samples.merge /\
             incoming_blocks P'
             = <[N.to_nat 1 := Some 9%positive]> (incoming_blocks Samples.merge).
Proof.
  destruct (setIncomingBlock Samples.merge 1 (Some 9%positive))
    as [P'|f] eqn:E; [|vm_compute in E; discriminate].
  exists P'. split; [reflexivity|].
  destruct (proj2 (phi_setters_frame Samples.merge P' 1) (Some 9%positive) E)
    as (Hvs & Hbs & _).
  split; [exact Hvs | exact Hbs].
Defined.

Lemma phi_built_invariant_witness :
  exists P', addIncoming Samples.fresh_phi (Some 2%positive) (Some 2%positive) = Ok P' /\
             wf_phi P' /\
             length (incoming_values P') = length (incoming_blocks P') /\
             Forall is_Some (incoming_values P') /\ Forall is_Some (incoming_blocks P').
Proof.
  destruct (addIncoming Samples.fresh_phi (Some 2%positive) (Some 2%positive))
    as [P'|f] eqn:E; [|vm_compute in E; discriminate].
  exists P'. split; [reflexivity|].
  apply phi_built_invariant.
  apply (built_addIncoming Samples.fresh_phi (Some 2%positive) (Some 2%positive) P');
    [|exact E].
  apply built_new. vm_compute. reflexivity.
Defined.

Lemma defs_never_empty_witness :
  defs 1 Samples.fresh_phi_heap 5%positive = Fault AssertionFailure.
Proof.
  apply (proj2 (proj2 (defs_never_empty Samples.fresh_phi_heap 5%positive 0))
           Samples.fresh_phi); vm_compute; reflexivity.
Defined.

Lemma def_iterator_asserts_at_end_witness :
  (def_iterator_get Samples.merged defs_end = Fault AssertionFailure /\
   def_iterator_next Samples.merged defs_end = Fault AssertionFailure /\
   getPhiArgBlock Samples.merged defs_end = Fault AssertionFailure) /\
  getPhiArgBlock Samples.merged (defs_begin (Some 3%positive)) = Fault AssertionFailure.
Proof.
  split.
  - apply (proj1 (def_iterator_asserts_at_end Samples.merged defs_end)). reflexivity.
  - apply (proj2 (def_iterator_asserts_at_end Samples.merged (defs_begin (Some 3%positive)))
             3%positive (MU Samples.load)); [reflexivity | vm_compute; reflexivity | reflexivity].
Defined.

Lemma upward_defs_follow_defs_witness :
  upward_defs Samples.translate 2 Samples.merged (Some 5%positive, Samples.cell)
  = Ok [(Some 2%positive, getWithNewPtr Samples.cell (Some 10%positive));
        (Some 3%positive, Samples.cell)] /\
  defs 2 Samples.merged 5%positive = Ok [Some 2%positive; Some 3%positive] /\
  Forall (fun p => p.2 = Samples.cell \/
            exists P CurBB k PredBB p0 Addr,
              Samples.merged !! 5%positive = Some (MP P) /\ phi_Block P = Some CurBB /\
              getIncomingBlock P k = Ok PredBB /\ Ptr Samples.cell = Some p0 /\
              Samples.translate p0 CurBB PredBB = (false, Addr) /\ Addr <> Some p0 /\
              p.2 = getWithNewPtr Samples.cell Addr)
         [(Some 2%positive, getWithNewPtr Samples.cell (Some 10%positive));
          (Some 3%positive, Samples.cell)].
Proof.
  assert (upward_defs Samples.translate 2 Samples.merged (Some 5%positive, Samples.cell)
          = Ok [(Some 2%positive, getWithNewPtr Samples.cell (Some 10%positive));
                (Some 3%positive, Samples.cell)]) as Hwalk
      by (vm_compute; reflexivity).
  split; [exact Hwalk|].
  exact (upward_defs_follow_defs Samples.translate Samples.merged 5%positive
           Samples.cell 2 _ Hwalk).
Defined.

Lemma upward_defs_begin_not_end_witness :
  upward_defs_begin Samples.translate Samples.merged (None, Samples.cell)
  = Fault AssertionFailure.
Proof.
  apply (proj1 (upward_defs_begin_not_end Samples.translate Samples.merged
                  (None, Samples.cell))).
  reflexivity.
Defined.

Lemma upward_iterator_eq_ignores_location_witness :
  exists I1 I2,
    upward_defs_begin Samples.translate Samples.merged (Some 5%positive, Samples.cell)
    = Ok I1 /\
    upward_defs_begin Samples.translate Samples.merged
      (Some 5%positive, MemoryLocation_default) = Ok I2 /\
    CurrentPair I1 <> CurrentPair I2 /\
    upward_iterator_eq I1 I2 = true.
Proof.
  destruct (upward_defs_begin Samples.translate Samples.merged
              (Some 5%positive, Samples.cell)) as [I1|f] eqn:E1;
    [|vm_compute in E1; discriminate].
  destruct (upward_defs_begin Samples.translate Samples.merged
              (Some 5%positive, MemoryLocation_default)) as [I2|f] eqn:E2;
    [|vm_compute in E2; discriminate].
  exists I1, I2. split; [reflexivity|]. split; [reflexivity|]. split.
  - vm_compute in E1, E2. injection E1 as <-. injection E2 as <-. simpl. discriminate.
  - exact (proj1 (upward_iterator_eq_ignores_location Samples.translate Samples.merged)
             (Some 5%positive) Samples.cell MemoryLocation_default I1 I2 E1 E2).
Defined.

Lemma defs_after_setDefiningAccess_witness :
  exists h', setDefiningAccess Samples.straight 3%positive (Some 1%positive) false = Ok h' /\
             defs 1 h' 3%positive = Ok [Some 1%positive].
Proof.
  destruct (setDefiningAccess Samples.straight 3%positive (Some 1%positive) false)
    as [h'|f] eqn:E; [|vm_compute in E; discriminate].
  exists h'. split; [reflexivity|].
  exact (proj1 (defs_after_setDefiningAccess Samples.straight 3%positive 0)
           (Some 1%positive) false h' E).
Defined.

Lemma defs_after_addIncoming_witness :
  exists P', addIncoming Samples.merge (Some 1%positive) (Some 7%positive) = Ok P' /\
    defs 3 (<[5%positive := MP P']> Samples.merged) 5%positive
    = Ok (incoming_values Samples.merge ++ [Some 1%positive]) /\
    defs_with_blocks 3 (<[5%positive := MP P']> Samples.merged) 5%positive
    = Ok (zip (incoming_values Samples.merge ++ [Some 1%positive])
              (incoming_blocks Samples.merge ++ [Some 7%positive])).
Proof.
  destruct (addIncoming Samples.merge (Some 1%positive) (Some 7%positive))
    as [P'|f] eqn:E; [|vm_compute in E; discriminate].
  exists P'. split; [reflexivity|].
  apply (defs_after_addIncoming Samples.merged 5%positive Samples.merge P'
           (Some 1%positive) (Some 7%positive) 3);
    [vm_compute; reflexivity | exact sample_merge_wf | exact E | vm_compute; lia].
Defined.

Lemma defs_read_one_object_witness :
  defs 2 Samples.merged 5%positive
  = defs 2 (<[3%positive := MU Samples.load_optimized]> Samples.merged) 5%positive /\
  defs_with_blocks 2 Samples.merged 5%positive
  = defs_with_blocks 2 (<[3%positive := MU Samples.load_optimized]> Samples.merged)
      5%positive /\
  forall L, upward_defs Samples.translate 2 Samples.merged (Some 5%positive, L)
            = upward_defs Samples.translate 2
                (<[3%positive := MU Samples.load_optimized]> Samples.merged)
                (Some 5%positive, L).
Proof.
  apply (defs_read_one_object Samples.translate Samples.merged
           (<[3%positive := MU Samples.load_optimized]> Samples.merged) 5%positive 2).
  vm_compute. reflexivity.
Defined.
